(** * pySDC problem classes: generalized Fisher equation (PETSc) and nonlinear ODE 1

    A shallow embedding of
    [pySDC/implementations/problem_classes/GeneralizedFisher_1D_PETSc.py] and
    [pySDC/implementations/problem_classes/nonlinear_ODE_1.py], and of the
    table of reference stencils in [pySDC/tests/test_helpers.py].

    Numbers.  The Python code computes with IEEE doubles.  The properties
    below are the algebraic ones, so floating-point values are read as real
    numbers ([R]) and the arithmetic operators as the exact field operations;
    rounding, overflow and underflow are not part of the model.  [/] is the
    division of [R]; the divisors of the Fisher code are [dx**2], which is
    not zero on a grid over an interval [a < b].  The exponent [nu] of the
    reaction term is an integer, and [x ** nu] the integer power; a negative
    power of zero, which is infinite in the code, is outside the model.  The
    Newton solver of [nonlinear_ODE_1] tests for NaN, so its numbers are the
    reals extended with the three IEEE special values (module [Newton]).

    Grid.  The DMDA is the one of a run on a single process: the only rank
    owns every grid point, and the ghosted local vector of a global vector
    is the vector itself. *)

From Stdlib Require Import ZArith QArith String Sorted Reals Lra Lia.
From stdpp Require Import base option list gmap.
From Equations Require Import Equations.

Local Open Scope Z_scope.

(** ** PETSc objects *)

Module PETSc.

(** [PETSc.Mat.Stencil]: a grid index [i] and the component [field]. *)
Record Stencil := { st_i : Z; st_field : Z }.

(** [PETSc.Mat] of type aij on a DMDA with one degree of freedom per grid
    point: the coefficients by (row index, column index).  A position that
    holds no coefficient reads as zero. *)
Abbreviation Mat := (gmap (Z * Z) R).

(** [A.zeroEntries()]: every coefficient reads as zero afterwards.  The
    nonzero structure PETSc keeps is not modelled: a position holds a
    coefficient from the moment one is set there. *)
Definition zeroEntries (A : Mat) : Mat := ∅.

(** [A.setValueStencil(row, col, value)] in the default insert mode. *)
Definition setValueStencil (A : Mat) (row col : Stencil) (value : R) : Mat :=
  <[(st_i row, st_i col) := value]> A.

Definition assemble (A : Mat) : Mat := A.

Definition getValue (A : Mat) (i j : Z) : R := default 0%R (A !! (i, j)).

(** [PETSc.Mat.Structure] *)
Inductive Structure := SAME_NONZERO_PATTERN | DIFFERENT_NONZERO_PATTERN.

(** The DMDA of a one-dimensional grid: [getSizes()[0]] and the pair
    [getRanges()[0]] of the rows this process owns. *)
Record DMDA := { da_mx : Z; da_xs : Z; da_xe : Z }.

(** [PETSc.DMDA().create([nvars], dof=1, stencil_width=1)] on one process. *)
Definition DMDA_create (nvars : Z) : DMDA :=
  {| da_mx := nvars; da_xs := 0; da_xe := nvars |}.

(** A vector array, addressed by the global grid index. *)
Abbreviation Vec := (list R).

(** Python's [range(lo, hi)]. *)
Definition range (lo hi : Z) : list Z := seqZ lo (hi - lo).

(** Position addressed by a Python index into an array of length [len]:
    negative indices count from the end, anything else is an IndexError. *)
Definition py_index (len : nat) (i : Z) : option nat :=
  if (0 <=? i) && (i <? Z.of_nat len) then Some (Z.to_nat i)
  else if (- Z.of_nat len <=? i) && (i <? 0) then Some (Z.to_nat (Z.of_nat len + i))
  else None.

(** [x[i]] *)
Definition getitem (x : Vec) (i : Z) : option R :=
  k ← py_index (length x) i; x !! k.

(** [f[i] = v] *)
Definition setitem (f : Vec) (i : Z) (v : R) : option Vec :=
  k ← py_index (length f) i; Some (<[k := v]> f).

(** A [for i in ...] loop whose body may raise. *)
Fixpoint for_each {S : Type} (body : S → Z → option S) (s : S) (l : list Z)
  : option S :=
  match l with
  | [] => Some s
  | i :: l' => s' ← body s i; for_each body s' l'
  end.

(** [A.mult(u, f)]: the product of the matrix with the vector. *)
Definition mult (A : Mat) (u : Vec) : Vec :=
  map (λ i, foldr Rplus 0%R (imap (λ j uj, (getValue A i (Z.of_nat j) * uj)%R) u))
      (range 0 (Z.of_nat (length u))).

End PETSc.

Import PETSc.

(** ** GeneralizedFisher_1D_PETSc.py *)

Module Fisher.

(** The attributes of a [petsc_fisher_multiimplicit] instance that the
    operators, the providers and the solvers read or update. *)
Record problem := {
  nvars : Z;
  lambda0 : R;
  nu : Z;
  interval : R * R;
  dx : R;
  init : DMDA;
  ksp_itercount : Z;
  ksp_ncalls : Z;
  snes_itercount : Z;
  snes_ncalls : Z
}.

(** The inner loop [for index, value in [...]] of the assembly routines:
    the (column, value) pairs are inserted into the row in their order. *)
Definition set_row (A : Mat) (row : Stencil) (entries : list (Z * R)) : Mat :=
  foldl (λ A '(index, value),
           let col := {| st_i := index; st_field := 0 |} in
           setValueStencil A row col value)
        A entries.

(** Body of the row loop of [__get_A]. *)
Definition get_A_row (mx : Z) (dx : R) (A : Mat) (i : Z) : Mat :=
  let row := {| st_i := i; st_field := 0 |} in
  if (i =? 0) || (i =? mx - 1) then setValueStencil A row row 1%R
  else
    let diag := (-2 / dx ^ 2)%R in
    set_row A row [(i - 1, (1 / dx ^ 2)%R); (i, diag); (i + 1, (1 / dx ^ 2)%R)].

(** [petsc_fisher_multiimplicit.__get_A], from the DMDA [init] and the
    spacing [dx] of the instance. *)
Definition get_A_of (da : DMDA) (dx : R) : Mat :=
  let A := zeroEntries ∅ in
  let mx := da_mx da in
  let '(xs, xe) := (da_xs da, da_xe da) in
  assemble (foldl (get_A_row mx dx) A (range xs xe)).

Definition get_A (self : problem) : Mat := get_A_of (init self) (dx self).

(** Body of the row loop of [get_sys_mat]. *)
Definition get_sys_mat_row (mx : Z) (dx factor : R) (A : Mat) (i : Z) : Mat :=
  let row := {| st_i := i; st_field := 0 |} in
  if (i =? 0) || (i =? mx - 1) then setValueStencil A row row 1%R
  else
    let diag := (1 + factor * 2 / dx ^ 2)%R in
    set_row A row [(i - 1, (- factor / dx ^ 2)%R); (i, diag); (i + 1, (- factor / dx ^ 2)%R)].

(** [petsc_fisher_multiimplicit.get_sys_mat] *)
Definition get_sys_mat (self : problem) (factor : R) : Mat :=
  let A := zeroEntries ∅ in
  let mx := da_mx (init self) in
  let '(xs, xe) := (da_xs (init self), da_xe (init self)) in
  assemble (foldl (get_sys_mat_row mx (dx self) factor) A (range xs xe)).

(** [petsc_fisher_multiimplicit.__init__]: the grid, the spacing and the
    four diagnostic counters.  (With [nvars = 1] the division that defines
    [dx] raises in Python: a grid has two points at least.) *)
Definition new_problem (nvars : Z) (lambda0 : R) (nu : Z) (interval : R * R)
  : problem :=
  {| nvars := nvars; lambda0 := lambda0; nu := nu; interval := interval;
     dx := ((interval.2 - interval.1) / IZR (nvars - 1))%R;
     init := DMDA_create nvars;
     ksp_itercount := 0; ksp_ncalls := 0;
     snes_itercount := 0; snes_ncalls := 0 |}.

(** [da.globalToLocal(X, localX)] followed by [da.getVecArray(localX)]. *)
Definition globalToLocal (X : Vec) : Vec := X.

(** *** class Fisher_full *)

Module Fisher_full.

Record t := {
  da : DMDA;
  prob : problem;
  factor : R;
  dx : R;
  xs : Z;
  xe : Z;
  mx : Z
}.

(** [Fisher_full.__init__] *)
Definition new (da : DMDA) (prob : problem) (factor dx : R) : t :=
  {| da := da; prob := prob; factor := factor; dx := dx;
     xs := da_xs da; xe := da_xe da; mx := da_mx da |}.

(** Body of the loop of [formFunction]. *)
Definition formFunction_at (self : t) (x f : Vec) (i : Z) : option Vec :=
  if (i =? 0) || (i =? mx self - 1) then
    xi ← getitem x i;
    setitem f i xi
  else
    u ← getitem x i;
    u_e ← getitem x (i + 1);
    u_w ← getitem x (i - 1);
    let u_xx := ((u_e - 2 * u + u_w) / dx self ^ 2)%R in
    xi ← getitem x i;
    setitem f i
      (xi - factor self
            * (u_xx + lambda0 (prob self) ^ 2 * xi * (1 - powerRZ xi (nu (prob self)))))%R.

(** [Fisher_full.formFunction]: the vector [F] after the call, or [None]
    when an index is out of range. *)
Definition formFunction (self : t) (X F : Vec) : option Vec :=
  let x := globalToLocal X in
  for_each (formFunction_at self x) F (range (xs self) (xe self)).

(** Body of the row loop of [formJacobian]. *)
Definition formJacobian_row (self : t) (x : Vec) (P : Mat) (i : Z) : option Mat :=
  let row := {| st_i := i; st_field := 0 |} in
  if (i =? 0) || (i =? mx self - 1) then
    Some (setValueStencil P row row 1%R)
  else
    xi ← getitem x i;
    let diag :=
      (1 - factor self
           * (-2 / dx self ^ 2
              + lambda0 (prob self) ^ 2
                * (1 - IZR (nu (prob self) + 1) * powerRZ xi (nu (prob self)))))%R in
    Some (set_row P row
            [(i - 1, (- factor self / dx self ^ 2)%R);
             (i, diag);
             (i + 1, (- factor self / dx self ^ 2)%R)]).

(** [Fisher_full.formJacobian]: the matrix [P] after the call and the
    returned status.  [J] is finalised when it is another matrix than [P]
    and keeps its coefficients either way. *)
Definition formJacobian (self : t) (X : Vec) (J P : Mat) : option (Mat * Structure) :=
  let x := globalToLocal X in
  P ← for_each (formJacobian_row self x) (zeroEntries P) (range (xs self) (xe self));
  Some (assemble P, SAME_NONZERO_PATTERN).

End Fisher_full.

(** *** class Fisher_reaction *)

Module Fisher_reaction.

Record t := {
  da : DMDA;
  prob : problem;
  factor : R
}.

(** [Fisher_reaction.__init__] *)
Definition new (da : DMDA) (prob : problem) (factor : R) : t :=
  {| da := da; prob := prob; factor := factor |}.

(** Body of the loop of [formFunction]. *)
Definition formFunction_at (self : t) (mx : Z) (x f : Vec) (i : Z) : option Vec :=
  if (i =? 0) || (i =? mx - 1) then
    xi ← getitem x i;
    setitem f i xi
  else
    xi ← getitem x i;
    setitem f i
      (xi - factor self * lambda0 (prob self) ^ 2 * xi
            * (1 - powerRZ xi (nu (prob self))))%R.

(** [Fisher_reaction.formFunction] *)
Definition formFunction (self : t) (X F : Vec) : option Vec :=
  let x := globalToLocal X in
  let mx := da_mx (da self) in
  let '(xs, xe) := (da_xs (da self), da_xe (da self)) in
  for_each (formFunction_at self mx x) F (range xs xe).

(** Body of the row loop of [formJacobian]. *)
Definition formJacobian_row (self : t) (mx : Z) (x : Vec) (P : Mat) (i : Z)
  : option Mat :=
  let row := {| st_i := i; st_field := 0 |} in
  if (i =? 0) || (i =? mx - 1) then
    Some (setValueStencil P row row 1%R)
  else
    xi ← getitem x i;
    let diag :=
      (1 - factor self * lambda0 (prob self) ^ 2
           * (1 - IZR (nu (prob self) + 1) * powerRZ xi (nu (prob self))))%R in
    Some (setValueStencil P row row diag).

(** [Fisher_reaction.formJacobian] *)
Definition formJacobian (self : t) (X : Vec) (J P : Mat) : option (Mat * Structure) :=
  let x := globalToLocal X in
  let mx := da_mx (da self) in
  let '(xs, xe) := (da_xs (da self), da_xe (da self)) in
  P ← for_each (formJacobian_row self mx x) (zeroEntries P) (range xs xe);
  Some (assemble P, SAME_NONZERO_PATTERN).

End Fisher_reaction.

(** *** class petsc_fisher_multiimplicit, continued *)

(** The reaction term of [eval_f] at the grid points of [range xs xe]. *)
Definition eval_f_reaction_at (self : problem) (xa fa2 : Vec) (i : Z) : option Vec :=
  xi ← getitem xa i;
  setitem fa2 i (lambda0 self ^ 2 * xi * (1 - powerRZ xi (nu self)))%R.

(** [petsc_fisher_multiimplicit.eval_f]: the components [comp1] and
    [comp2] of the result.  [self.A] is the matrix [__get_A] built in
    [__init__]. *)
Definition eval_f (self : problem) (u : Vec) (t : R) : option (Vec * Vec) :=
  let comp1 := mult (get_A self) u in
  fa1 ← setitem comp1 0 0%R;
  fa1 ← setitem fa1 (-1) 0%R;
  let comp2 := replicate (Z.to_nat (da_mx (init self))) 0%R in
  let xa := u in
  fa2 ← for_each (eval_f_reaction_at self xa) comp2
         (range (da_xs (init self)) (da_xe (init self)));
  fa2 ← setitem fa2 0 0%R;
  fa2 ← setitem fa2 (-1) 0%R;
  Some (fa1, fa2).

(** [self.ksp_itercount += its] and [self.ksp_ncalls += 1], with [its] the
    value of [self.ksp.getIterationNumber()]. *)
Definition add_ksp (self : problem) (its : Z) : problem :=
  {| nvars := nvars self; lambda0 := lambda0 self; nu := nu self;
     interval := interval self; dx := dx self; init := init self;
     ksp_itercount := ksp_itercount self + its;
     ksp_ncalls := ksp_ncalls self + 1;
     snes_itercount := snes_itercount self;
     snes_ncalls := snes_ncalls self |}.

(** [self.snes_itercount += its] and [self.snes_ncalls += 1], with [its]
    the value of [self.snes.getIterationNumber()]. *)
Definition add_snes (self : problem) (its : Z) : problem :=
  {| nvars := nvars self; lambda0 := lambda0 self; nu := nu self;
     interval := interval self; dx := dx self; init := init self;
     ksp_itercount := ksp_itercount self;
     ksp_ncalls := ksp_ncalls self;
     snes_itercount := snes_itercount self + its;
     snes_ncalls := snes_ncalls self + 1 |}.

Section Solvers.
(** The linear backend: [self.ksp.solve(rhs, me)] with the operator set
    by [setOperators] and the initial guess in [me]; the solution and
    what [getIterationNumber()] reports afterwards. *)
Variable ksp_solve : Mat → Vec → Vec → Vec * Z.

(** The nonlinear backend: [self.snes.solve(rhs, me)] with the residual
    and Jacobian callbacks registered by [setFunction] and [setJacobian]. *)
Variable snes_solve :
  (Vec → Vec → option Vec) → (Vec → Mat → Mat → option (Mat * Structure)) →
  Vec → Vec → Vec * Z.

(** [petsc_fisher_multiimplicit.solve_system_1]: the solution and the
    instance with its counters updated. *)
Definition solve_system_1 (self : problem) (rhs : Vec) (factor : R) (u0 : Vec) (t : R)
  : Vec * problem :=
  let me := u0 in
  let '(me, its) := ksp_solve (get_sys_mat self factor) rhs me in
  (me, add_ksp self its).

(** [petsc_fisher_multiimplicit.solve_system_2] *)
Definition solve_system_2 (self : problem) (rhs : Vec) (factor : R) (u0 : Vec) (t : R)
  : Vec * problem :=
  let me := u0 in
  let target := Fisher_reaction.new (init self) self factor in
  let '(me, its) :=
    snes_solve (Fisher_reaction.formFunction target)
               (Fisher_reaction.formJacobian target) rhs me in
  (me, add_snes self its).

(** [petsc_fisher_fullyimplicit.solve_system] *)
Definition fullyimplicit_solve_system
    (self : problem) (rhs : Vec) (factor : R) (u0 : Vec) (t : R) : Vec * problem :=
  let me := u0 in
  let target := Fisher_full.new (init self) self factor (dx self) in
  let '(me, its) :=
    snes_solve (Fisher_full.formFunction target)
               (Fisher_full.formJacobian target) rhs me in
  (me, add_snes self its).

(** [petsc_fisher_semiimplicit.solve_system] *)
Definition semiimplicit_solve_system
    (self : problem) (rhs : Vec) (factor : R) (u0 : Vec) (t : R) : Vec * problem :=
  let me := u0 in
  let '(me, its) := ksp_solve (get_sys_mat self factor) rhs me in
  (me, add_ksp self its).
End Solvers.

(** *** class petsc_fisher_fullyimplicit *)

(** Body of the loop of [petsc_fisher_fullyimplicit.eval_f]:
    [fa2[i] += self.lambda0**2 * xa[i] * (1 - xa[i] ** self.nu)]. *)
Definition fullyimplicit_eval_f_at (self : problem) (xa fa2 : Vec) (i : Z)
  : option Vec :=
  fi ← getitem fa2 i;
  xi ← getitem xa i;
  setitem fa2 i (fi + lambda0 self ^ 2 * xi * (1 - powerRZ xi (nu self)))%R.

(** [petsc_fisher_fullyimplicit.eval_f] *)
Definition fullyimplicit_eval_f (self : problem) (u : Vec) (t : R) : option Vec :=
  let f := mult (get_A self) u in
  let xa := u in
  fa2 ← for_each (fullyimplicit_eval_f_at self xa) f
         (range (da_xs (init self)) (da_xe (init self)));
  fa2 ← setitem fa2 0 0%R;
  fa2 ← setitem fa2 (-1) 0%R;
  Some fa2.

(** *** class petsc_fisher_semiimplicit *)

(** [petsc_fisher_semiimplicit.eval_f]: the components [impl] and [expl]
    of the result. *)
Definition semiimplicit_eval_f (self : problem) (u : Vec) (t : R)
  : option (Vec * Vec) :=
  let impl := mult (get_A self) u in
  fa1 ← setitem impl 0 0%R;
  fa1 ← setitem fa1 (-1) 0%R;
  let expl := replicate (Z.to_nat (da_mx (init self))) 0%R in
  let xa := u in
  fa2 ← for_each (eval_f_reaction_at self xa) expl
         (range (da_xs (init self)) (da_xe (init self)));
  fa2 ← setitem fa2 0 0%R;
  fa2 ← setitem fa2 (-1) 0%R;
  Some (fa1, fa2).

(** *** petsc_fisher_multiimplicit.u_exact *)

(** Body of the loop of [u_exact]: the travelling wave at the grid index
    [i] and the time [t]. *)
Definition u_exact_at (self : problem) (lam1 sig1 t : R) (xa : Vec) (i : Z)
  : option Vec :=
  setitem xa i
    (Rpower
       (1 + (Rpower 2 (IZR (nu self) / 2) - 1)
            * exp (- IZR (nu self) / 2 * sig1
                   * ((interval self).1 + IZR (i + 1) * dx self + 2 * lam1 * t)))
       (-2 / IZR (nu self)))%R.

(** [petsc_fisher_multiimplicit.u_exact].  The powers with a real exponent
    are read as [Rpower], which is Python's power for a positive base; with
    [nu > 0] every base of the routine is positive. *)
Definition u_exact (self : problem) (t : R) : option Vec :=
  let lam1 :=
    (lambda0 self / 2
     * (Rpower (IZR (nu self) / 2 + 1) 0.5 + Rpower (IZR (nu self) / 2 + 1) (-0.5)))%R in
  let sig1 := (lam1 - sqrt (lam1 ^ 2 - lambda0 self ^ 2))%R in
  let me := replicate (Z.to_nat (da_mx (init self))) 0%R in
  for_each (u_exact_at self lam1 sig1 t) me
    (range (da_xs (init self)) (da_xe (init self))).

(** *** Sequences of solve calls *)

(** A stage solve as the time-stepper requests it: the linear stage
    ([solve_system_1]) or the nonlinear stage ([solve_system_2]) with its
    arguments. *)
Inductive stage_call :=
| linear_stage (rhs : Vec) (factor : R) (u0 : Vec) (t : R)
| nonlinear_stage (rhs : Vec) (factor : R) (u0 : Vec) (t : R).

Definition is_linear_stage (c : stage_call) : bool :=
  match c with linear_stage _ _ _ _ => true | nonlinear_stage _ _ _ _ => false end.

Section StageCalls.
Variable ksp_solve : Mat → Vec → Vec → Vec * Z.
Variable snes_solve :
  (Vec → Vec → option Vec) → (Vec → Mat → Mat → option (Mat * Structure)) →
  Vec → Vec → Vec * Z.

(** The instance after one stage solve. *)
Definition after_stage_call (self : problem) (c : stage_call) : problem :=
  match c with
  | linear_stage rhs factor u0 t => (solve_system_1 ksp_solve self rhs factor u0 t).2
  | nonlinear_stage rhs factor u0 t => (solve_system_2 snes_solve self rhs factor u0 t).2
  end.

(** The instance after the stage solves of a list, made in its order. *)
Definition after_stage_calls (self : problem) (calls : list stage_call) : problem :=
  foldl after_stage_call self calls.
End StageCalls.

(** *** Vocabulary of the properties *)

(** The coefficient at column [j] of a row of the zero matrix after the
    three insertions at columns [i - 1], [i] and [i + 1]. *)
Definition tridiagonal (i : Z) (lower diag upper : R) (j : Z) : option R :=
  if decide (j = i - 1) then Some lower
  else if decide (j = i) then Some diag
  else if decide (j = i + 1) then Some upper
  else None.

(** Whether [i] is one of the two boundary rows of a grid of [mx] points,
    as the loops test it. *)
Definition boundary (mx i : Z) : bool := (i =? 0) || (i =? mx - 1).

(** The identity matrix. *)
Definition eye (i j : Z) : R := if decide (i = j) then 1%R else 0%R.

(** The component [x[i]] of a vector, for the indices inside the array. *)
Definition item (x : Vec) (i : Z) : R := default 0%R (getitem x i).

(** Row [i] of [A] is the row of the identity matrix: the coefficient 1 on
    the diagonal and no other entry. *)
Definition identity_row (A : Mat) (i : Z) : Prop :=
  A !! (i, i) = Some 1%R ∧ ∀ j, j ≠ i → A !! (i, j) = None.

(** Row [i] of [A] holds [lower], [diag] and [upper] at the columns
    [i - 1], [i] and [i + 1], and no other entry. *)
Definition tridiagonal_row (A : Mat) (i : Z) (lower diag upper : R) : Prop :=
  A !! (i, i - 1) = Some lower ∧ A !! (i, i) = Some diag
  ∧ A !! (i, i + 1) = Some upper
  ∧ ∀ j, j ≠ i - 1 → j ≠ i → j ≠ i + 1 → A !! (i, j) = None.

(** Row [i] of [A] holds [diag] on the diagonal and no other entry. *)
Definition diagonal_row (A : Mat) (i : Z) (diag : R) : Prop :=
  A !! (i, i) = Some diag ∧ ∀ j, j ≠ i → A !! (i, j) = None.

(** The second difference quotient at the grid point [i]. *)
Definition u_xx (dx : R) (u : Vec) (i : Z) : R :=
  ((item u (i + 1) - 2 * item u i + item u (i - 1)) / dx ^ 2)%R.

(** The reaction term [lambda0^2 * x * (1 - x^nu)]. *)
Definition reaction (self : problem) (x : R) : R :=
  (lambda0 self ^ 2 * x * (1 - powerRZ x (nu self)))%R.

(** Every coefficient [A] stores lies in the [N x N] matrix and on one of
    its three central diagonals. *)
Definition in_band (N : Z) (A : Mat) : Prop :=
  ∀ i j v, A !! (i, j) = Some v → 0 ≤ i < N ∧ 0 ≤ j < N ∧ -1 ≤ j - i ≤ 1.

(** Every coefficient of [A] that is not zero lies in the [N x N] matrix
    and on one of its three central diagonals. *)
Definition nonzeros_in_band (N : Z) (A : Mat) : Prop :=
  ∀ i j, getValue A i j ≠ 0%R → 0 ≤ i < N ∧ 0 ≤ j < N ∧ -1 ≤ j - i ≤ 1.

(** The vector [X] with its component [j] replaced by [t]. *)
Definition perturb (X : Vec) (j : Z) (t : R) : Vec := <[Z.to_nat j := t]> X.

(** The component [i] of the vector a routine returned. *)
Definition component (r : option Vec) (i : Z) : R := item (default [] r) i.

(** The number of linear stage solves, and of nonlinear ones, in a list of
    stage solves. *)
Fixpoint linear_stages (calls : list stage_call) : Z :=
  match calls with
  | [] => 0
  | c :: calls => (if is_linear_stage c then 1 else 0) + linear_stages calls
  end.

Fixpoint nonlinear_stages (calls : list stage_call) : Z :=
  match calls with
  | [] => 0
  | c :: calls => (if is_linear_stage c then 0 else 1) + nonlinear_stages calls
  end.

(** No counter of [self'] is below its value in [self]. *)
Definition counters_le (self self' : problem) : Prop :=
  ksp_itercount self ≤ ksp_itercount self'
  ∧ ksp_ncalls self ≤ ksp_ncalls self'
  ∧ snes_itercount self ≤ snes_itercount self'
  ∧ snes_ncalls self ≤ snes_ncalls self'.

End Fisher.

(** ** nonlinear_ODE_1.py *)

Module Newton.

(** The values of a double, without rounding: a real number, an infinity
    with its sign ([true] for the negative one), or NaN.  Zero carries no
    sign; the only divisors of [solve_system] that can vanish are
    [2 * sqrt(1 - u)] and [dg = 1 - ...], which IEEE arithmetic evaluates to
    the positive zero, so a division by zero is a division by [+0]. *)
Inductive float64 := NaN | Inf (negative : bool) | Fin (r : R).

(** Sign of a real number: [None] for zero, otherwise whether it is
    negative. *)
Definition sign (r : R) : option bool :=
  if Req_dec_T r 0 then None else if Rlt_dec r 0 then Some true else Some false.

Definition neg (x : float64) : float64 :=
  match x with
  | NaN => NaN
  | Inf s => Inf (negb s)
  | Fin r => Fin (- r)
  end.

Definition add (x y : float64) : float64 :=
  match x, y with
  | NaN, _ | _, NaN => NaN
  | Inf s, Inf s' => if Bool.eqb s s' then Inf s else NaN
  | Inf s, Fin _ | Fin _, Inf s => Inf s
  | Fin a, Fin b => Fin (a + b)
  end.

Definition sub (x y : float64) : float64 := add x (neg y).

Definition mul (x y : float64) : float64 :=
  match x, y with
  | NaN, _ | _, NaN => NaN
  | Inf s, Inf s' => Inf (xorb s s')
  | Inf s, Fin r | Fin r, Inf s =>
      match sign r with None => NaN | Some s' => Inf (xorb s s') end
  | Fin a, Fin b => Fin (a * b)
  end.

Definition div (x y : float64) : float64 :=
  match x, y with
  | NaN, _ | _, NaN => NaN
  | Inf _, Inf _ => NaN
  | Inf s, Fin b =>
      match sign b with Some s' => Inf (xorb s s') | None => Inf s end
  | Fin _, Inf _ => Fin 0
  | Fin a, Fin b =>
      if Req_dec_T b 0 then
        match sign a with None => NaN | Some s => Inf s end
      else Fin (a / b)
  end.

(** [np.sqrt] *)
Definition sqrt (x : float64) : float64 :=
  match x with
  | NaN => NaN
  | Inf s => if s then NaN else Inf false
  | Fin r => if Rlt_dec r 0 then NaN else Fin (R_sqrt.sqrt r)
  end.

Definition abs (x : float64) : float64 :=
  match x with
  | NaN => NaN
  | Inf _ => Inf false
  | Fin r => Fin (Rabs r)
  end.

(** [x < y] *)
Definition ltb (x y : float64) : bool :=
  match x, y with
  | NaN, _ | _, NaN => false
  | Inf s, Inf s' => s && negb s'
  | Inf s, Fin _ => s
  | Fin _, Inf s => negb s
  | Fin a, Fin b => if Rlt_dec a b then true else false
  end.

(** [np.isnan] *)
Definition isnan (x : float64) : bool :=
  match x with NaN => true | _ => false end.

Declare Scope float64_scope.
Delimit Scope float64_scope with float64.
Bind Scope float64_scope with float64.
Notation "x + y" := (add x y) : float64_scope.
Notation "x - y" := (sub x y) : float64_scope.
Notation "x * y" := (mul x y) : float64_scope.
Notation "x / y" := (div x y) : float64_scope.
Notation "- x" := (neg x) : float64_scope.
Notation "x <? y" := (ltb x y) : float64_scope.

(** A [mesh] of [nonlinear_ODE_1]: [__init__] fixes [nvars = 1], so the
    array has the one component. *)
Abbreviation mesh := float64.

(** [np.linalg.norm(g, np.inf)]: the largest absolute value of the
    components. *)
Definition norm_inf (g : mesh) : float64 := abs g.

(** The attributes [__init__] registers. *)
Record nonlinear_ODE_1 := {
  u0 : mesh;
  newton_maxiter : Z;
  newton_tol : float64;
  stop_at_nan : bool
}.

(** [ProblemError] with the values its message is formatted from:
    'Newton got nan after %i iterations, aborting...' and
    'Newton did not converge after %i iterations, error is %s'. *)
Inductive ProblemError :=
| Newton_got_nan (n : Z)
| Newton_did_not_converge (n : Z) (res : float64).

(** [self.logger.warning('Newton got nan after %i iterations...' % n)] *)
Inductive log_record := warning_Newton_got_nan (n : Z).

Inductive result := Raise (e : ProblemError) | Return (u : mesh).

Section solve_system.
Variable self : nonlinear_ODE_1.
Variables rhs dt : float64.

Local Open Scope float64_scope.

(** [g = u - dt * np.sqrt(1 - u) - rhs] *)
Definition g_of (u : mesh) : mesh := u - dt * sqrt (Fin 1 - u) - rhs.

(** The Newton update of one pass through the loop:
    [dg = 1 - (-dt) / (2 * np.sqrt(1 - u))] and [u -= 1.0 / dg * g]. *)
Definition update (u g : mesh) : mesh :=
  let dg := Fin 1 - (- dt) / (Fin 2 * sqrt (Fin 1 - u)) in
  u - Fin 1 / dg * g.

(** The [while n < self.newton_maxiter] loop, from the values of [n], [u]
    and [res] at its head to their values when it is left. *)
Equations? while_loop (n : Z) (u : mesh) (res : float64) : Z * mesh * float64
  by wf (Z.to_nat (newton_maxiter self - n)) lt :=
  while_loop n u res with Z_lt_dec n (newton_maxiter self) := {
    | right _ => (n, u, res)
    | left _ =>
        let g := g_of u in
        let res := norm_inf g in
        if (res <? newton_tol self) || isnan res then (n, u, res)
        else
          let u := update u g in
          let n := (n + 1)%Z in
          while_loop n u res }.
Proof. lia. Qed.

(** [nonlinear_ODE_1.solve_system]: the warnings logged and how the call
    ends. *)
Definition solve_system (u0 : mesh) (t : float64) : list log_record * result :=
  let u := u0 in
  let n := 0%Z in
  let res := Fin 99 in
  let '(n, u, res) := while_loop n u res in
  if isnan res && stop_at_nan self then ([], Raise (Newton_got_nan n))
  else
    let log := if isnan res then [warning_Newton_got_nan n] else [] in
    if (n =? newton_maxiter self)%Z then (log, Raise (Newton_did_not_converge n res))
    else (log, Return u).
End solve_system.

(** [nonlinear_ODE_1.u_exact]: [me[:] = t - t**2 / 4], the square read as
    the product of [t] with itself. *)
Definition u_exact (t : float64) : mesh := (t - t * t / Fin 4)%float64.

(** [nonlinear_ODE_1.eval_f]: [f[:] = np.sqrt(1 - u)] *)
Definition eval_f (u : mesh) (t : float64) : mesh := sqrt (Fin 1 - u)%float64.

(** *** Vocabulary of the properties *)

Local Open Scope float64_scope.

(** The Newton iterator of the specification: a pass from the state
    [iterating] computes the residual [g(u) = u - dt * sqrt(1 - u) - rhs];
    with [|g| < tol] it ends in [converged], with [|g|] NaN in
    [diverged_nan]; otherwise it forms [dg = 1 + dt / (2 * sqrt(1 - u))],
    updates [u] to [u - g / dg] and counts one more iteration. *)
Inductive state :=
| iterating (n : Z) (u : mesh) (res : float64)
| converged (n : Z) (u : mesh) (res : float64)
| diverged_nan (n : Z) (u : mesh) (res : float64).

Definition spec_iteration (tol rhs dt : float64) (n : Z) (u : mesh) : state :=
  let g := u - dt * sqrt (Fin 1 - u) - rhs in
  let res := norm_inf g in
  if res <? tol then converged n u res
  else if isnan res then diverged_nan n u res
  else
    let dg := Fin 1 + dt / (Fin 2 * sqrt (Fin 1 - u)) in
    iterating (n + 1) (u - g / dg) res.

(** The three ways [solve_system] ends. *)
Inductive termination := by_nan | by_exhaustion | by_convergence.

(** [solve_system] ends in the given way: the residual norm of the last
    iterate is NaN, and the call raises with [stop_at_nan] and otherwise
    warns and returns that iterate; or the iteration count reached
    [newton_maxiter] without convergence, and the call raises with the last
    residual norm computed, which is the one of the iterate [u_prev] before
    the last update (with [newton_maxiter = 0] none was computed, and the
    value is the initial 99); or the residual norm of the current iterate is
    below [newton_tol], and the call returns that iterate. *)
Definition ends (self : nonlinear_ODE_1) (rhs dt : float64) (u0 : mesh)
    (t : float64) (way : termination) : Prop :=
  let '(n, u, res) := while_loop self rhs dt 0 u0 (Fin 99) in
  match way with
  | by_nan =>
      isnan res = true ∧ res = norm_inf (g_of rhs dt u)
      ∧ solve_system self rhs dt u0 t
        = if stop_at_nan self then ([], Raise (Newton_got_nan n))
          else ([warning_Newton_got_nan n], Return u)
  | by_exhaustion =>
      n = newton_maxiter self ∧ isnan res = false
      ∧ (n = 0%Z ∧ u = u0 ∧ res = Fin 99
         ∨ (0 < n)%Z ∧ (res <? newton_tol self) = false
           ∧ ∃ u_prev, res = norm_inf (g_of rhs dt u_prev)
                       ∧ u = update dt u_prev (g_of rhs dt u_prev))
      ∧ solve_system self rhs dt u0 t = ([], Raise (Newton_did_not_converge n res))
  | by_convergence =>
      (res <? newton_tol self) = true ∧ res = norm_inf (g_of rhs dt u)
      ∧ (n < newton_maxiter self)%Z
      ∧ solve_system self rhs dt u0 t = ([], Return u)
  end.

End Newton.

(** ** tests/test_helpers.py *)

Module TestHelpers.

Local Open Scope Q_scope.

(** The exceptions [fd_stencil_single] raises before it calls the stencil
    generator: [NotImplementedError] with the value its message is formatted
    from, and the error of reading the local variable [stencil] that no
    branch has assigned. *)
Inductive exn :=
| NotImplementedError_order (order : Z)
| NotImplementedError_stencil_type (stencil_type : string) (derivative : Z)
| NotImplementedError_derivative (derivative : Z)
| UnboundLocalError_stencil.

(** The table of [fd_stencil_single]: [stencil], [zero_pos] and [coeff] for
    a derivative, an order of accuracy and a stencil type.  The floats of the
    table are read as the rational numbers they are written as. *)
Definition reference_table (derivative order : Z) (stencil_type : string)
  : exn + (list Q * Z * Q) :=
  if (derivative =? 1)%Z then
    if String.eqb stencil_type "center" then
      if (order =? 2)%Z then inr ([-1; 0; 1], 2%Z, 1 / 2)
      else if (order =? 4)%Z then inr ([1; -8; 0; 8; -1], 3%Z, 1 / 12)
      else if (order =? 6)%Z then inr ([-1; 9; -45; 0; 45; -9; 1], 4%Z, 1 / 60)
      else inl (NotImplementedError_order order)
    else if String.eqb stencil_type "upwind" then
      if (order =? 1)%Z then inr ([-1; 1], 2%Z, 1)
      else if (order =? 2)%Z then inr ([1; -4; 3], 3%Z, 1 / 2)
      else if (order =? 3)%Z then inr ([1; -6; 3; 2], 3%Z, 1 / 6)
      else if (order =? 4)%Z then inr ([-5; 30; -90; 50; 15], 4%Z, 1 / 60)
      else if (order =? 5)%Z then inr ([3; -20; 60; -120; 65; 12], 5%Z, 1 / 60)
      else inl (NotImplementedError_order order)
    else inl (NotImplementedError_stencil_type stencil_type 1)
  else if (derivative =? 2)%Z then
    if String.eqb stencil_type "center" then
      let coeff := 1 in
      if (order =? 2)%Z then inr ([1; -2; 1], 2%Z, coeff)
      else if (order =? 4)%Z then
        inr ([-1 / 12; 4 / 3; -5 / 2; 4 / 3; -1 / 12], 3%Z, coeff)
      else if (order =? 6)%Z then
        inr ([1 / 90; -3 / 20; 3 / 2; -49 / 18; 3 / 2; -3 / 20; 1 / 90], 4%Z, coeff)
      else if (order =? 8)%Z then
        inr ([-1 / 560; 8 / 315; -1 / 5; 8 / 5; -205 / 72; 8 / 5; -1 / 5; 8 / 315;
              -1 / 560], 5%Z, coeff)
      else inl UnboundLocalError_stencil
    else inl (NotImplementedError_stencil_type stencil_type 2)
  else inl (NotImplementedError_derivative derivative).

(** The reference values in the common form: [coeff_reference] is
    [np.array(stencil) * coeff] and [steps_reference] is
    [np.append(np.arange(-zero_pos + 1, 1), np.arange(1, zero_pos))]
    cut to the length of [coeff_reference]. *)
Definition fd_reference (derivative order : Z) (stencil_type : string)
  : exn + (list Q * list Z) :=
  match reference_table derivative order stencil_type with
  | inl e => inl e
  | inr (stencil, zero_pos, coeff) =>
      let coeff_reference := map (λ s, s * coeff) stencil in
      let steps_reference :=
        take (length coeff_reference)
             (range (- zero_pos + 1) 1 ++ range 1 zero_pos) in
      inr (coeff_reference, steps_reference)
  end.

(** The combinations [test_fd_stencils] checks against the table, in the
    order of its three loops. *)
Definition test_fd_stencils_cases : list (Z * Z * string) :=
  map (λ order, (1%Z, order, "upwind"%string)) [1; 2; 3; 4; 5]%Z
  ++ map (λ order, (1%Z, order, "center"%string)) [2; 4; 6]%Z
  ++ map (λ order, (2%Z, order, "center"%string)) [2; 4; 6; 8]%Z.

(** *** Vocabulary of the properties *)

(** The moment of order [m] of a stencil: the sum of [c_k * s_k^m]. *)
Fixpoint moment (coeffs : list Q) (steps : list Z) (m : Z) : Q :=
  match coeffs, steps with
  | c :: coeffs, s :: steps => c * inject_Z s ^ m + moment coeffs steps m
  | _, _ => 0
  end.

(** The moments of orders [0] to [derivative + order - 1] are those of an
    approximation of the derivative with that order of accuracy: the
    factorial of [derivative] at [m = derivative], zero elsewhere. *)
Definition moments_ok (derivative order : Z) (coeffs : list Q) (steps : list Z)
  : bool :=
  forallb (λ m, Qeq_bool (moment coeffs steps m)
                  (if (m =? derivative)%Z
                   then inject_Z (Z.of_nat (fact (Z.to_nat derivative))) else 0))
          (range 0 (derivative + order)).

End TestHelpers.

(** ** Row loops over a sparse matrix *)

Section RowLoop.
Variable body : Mat → Z → Mat.

(** A step of the loop writes into its own row only ... *)
Hypothesis body_other_rows :
  ∀ A i i' j, i ≠ i' → body A i !! (i', j) = A !! (i', j).

(** ... and what it leaves there depends on that row only. *)
Hypothesis body_own_row :
  ∀ A A' i, (∀ j, A !! (i, j) = A' !! (i, j)) →
            ∀ j, body A i !! (i, j) = body A' i !! (i, j).

Lemma foldl_rows_notin (l : list Z) (A : Mat) i j :
  i ∉ l → foldl body A l !! (i, j) = A !! (i, j).
Proof.
  revert A. induction l as [|a l IH]; intros A Hi; simpl; [done|].
  apply not_elem_of_cons in Hi as [Hne Hi].
  rewrite IH by done. apply body_other_rows. congruence.
Qed.

Lemma foldl_rows_in (l : list Z) (A : Mat) i j :
  NoDup l → i ∈ l → (∀ j', A !! (i, j') = None) →
  foldl body A l !! (i, j) = body ∅ i !! (i, j).
Proof.
  revert A. induction l as [|a l IH]; intros A Hnd Hi Hrow; simpl.
  - by apply elem_of_nil in Hi.
  - apply NoDup_cons in Hnd as [Ha Hnd].
    destruct (decide (a = i)) as [->|Hne].
    + rewrite foldl_rows_notin by done.
      apply body_own_row. intros j'. by rewrite Hrow, lookup_empty.
    + apply elem_of_cons in Hi as [Hi|Hi]; [congruence|].
      apply IH; [done..|]. intros j'.
      rewrite body_other_rows by done. apply Hrow.
Qed.

(** The matrix a row loop over [range xs xe] builds from the zero matrix:
    row [i] is what the body writes for [i] alone. *)
Lemma row_loop_lookup xs xe i j :
  foldl body ∅ (range xs xe) !! (i, j)
  = if decide (xs ≤ i < xe) then body ∅ i !! (i, j) else None.
Proof.
  unfold range. case_decide as Hi.
  - apply foldl_rows_in.
    + apply NoDup_seqZ.
    + apply elem_of_seqZ. lia.
    + intros j'. apply lookup_empty.
  - rewrite foldl_rows_notin; [apply lookup_empty|].
    rewrite elem_of_seqZ. lia.
Qed.
End RowLoop.

(** ** The rows the assembly loops write *)

Import Fisher.

Lemma set_row_other_rows (A : Mat) row entries i j :
  i ≠ st_i row → set_row A row entries !! (i, j) = A !! (i, j).
Proof.
  intros Hne. unfold set_row. revert A.
  induction entries as [|[index value] es IH]; intros A; simpl; [done|].
  rewrite IH. unfold setValueStencil. simpl.
  apply lookup_insert_ne. congruence.
Qed.

Lemma set_row_own_row (A A' : Mat) row entries :
  (∀ j, A !! (st_i row, j) = A' !! (st_i row, j)) →
  ∀ j, set_row A row entries !! (st_i row, j) = set_row A' row entries !! (st_i row, j).
Proof.
  unfold set_row. revert A A'.
  induction entries as [|[index value] es IH]; intros A A' HA j; simpl; [done|].
  apply IH. intros j'. unfold setValueStencil. simpl.
  rewrite !lookup_insert. case_decide; [done|apply HA].
Qed.

Lemma lookup_insert_same_row (A : Mat) i c v j :
  <[(i, c) := v]> A !! (i, j) = if decide (c = j) then Some v else A !! (i, j).
Proof. rewrite lookup_insert. repeat case_decide; congruence. Qed.

Lemma set_row_tridiagonal i lower diag upper j :
  set_row ∅ {| st_i := i; st_field := 0 |}
          [(i - 1, lower); (i, diag); (i + 1, upper)] !! (i, j)
  = tridiagonal i lower diag upper j.
Proof.
  unfold set_row, setValueStencil, tridiagonal. simpl.
  rewrite !lookup_insert_same_row, lookup_empty.
  repeat case_decide; try done; lia.
Qed.

Lemma setValueStencil_diagonal i v j :
  setValueStencil ∅ {| st_i := i; st_field := 0 |} {| st_i := i; st_field := 0 |} v
    !! (i, j)
  = if decide (j = i) then Some v else None.
Proof.
  unfold setValueStencil. simpl. rewrite lookup_insert_same_row, lookup_empty.
  repeat case_decide; congruence.
Qed.

Lemma setValueStencil_other_rows (A : Mat) row col v i j :
  i ≠ st_i row → setValueStencil A row col v !! (i, j) = A !! (i, j).
Proof. intros Hne. apply lookup_insert_ne. congruence. Qed.

Lemma setValueStencil_own_row (A A' : Mat) row col v :
  (∀ j, A !! (st_i row, j) = A' !! (st_i row, j)) →
  ∀ j, setValueStencil A row col v !! (st_i row, j)
       = setValueStencil A' row col v !! (st_i row, j).
Proof.
  intros HA j. unfold setValueStencil. rewrite !lookup_insert.
  case_decide; [done|apply HA].
Qed.

Lemma boundary_spec mx i : boundary mx i = true ↔ i = 0 ∨ i = mx - 1.
Proof. unfold boundary. rewrite orb_true_iff, !Z.eqb_eq. done. Qed.

Lemma get_A_row_other_rows (mx : Z) (dx : R) (A : Mat) (i i' j : Z) :
  i ≠ i' → get_A_row mx dx A i !! (i', j) = A !! (i', j).
Proof.
  intros Hne. unfold get_A_row.
  destruct ((i =? 0) || (i =? mx - 1)).
  - apply setValueStencil_other_rows. simpl. congruence.
  - apply set_row_other_rows. simpl. congruence.
Qed.

Lemma get_A_row_own_row (mx : Z) (dx : R) (A A' : Mat) (i : Z) :
  (∀ j, A !! (i, j) = A' !! (i, j)) →
  ∀ j, get_A_row mx dx A i !! (i, j) = get_A_row mx dx A' i !! (i, j).
Proof.
  intros HA j. unfold get_A_row.
  destruct ((i =? 0) || (i =? mx - 1)).
  - by apply (setValueStencil_own_row A A' {| st_i := i; st_field := 0 |}).
  - by apply (set_row_own_row A A' {| st_i := i; st_field := 0 |}).
Qed.

(** Row [i] of the matrix of [__get_A]. *)
Lemma get_A_lookup (self : problem) i j :
  get_A self !! (i, j)
  = if decide (da_xs (init self) ≤ i < da_xe (init self)) then
      if boundary (da_mx (init self)) i
      then (if decide (j = i) then Some 1%R else None)
      else tridiagonal i (1 / dx self ^ 2) (-2 / dx self ^ 2) (1 / dx self ^ 2) j
    else None.
Proof.
  unfold get_A, get_A_of, assemble, zeroEntries.
  rewrite row_loop_lookup
    by (intros; eauto using get_A_row_other_rows, get_A_row_own_row).
  case_decide; [|done].
  unfold get_A_row, boundary. destruct ((i =? 0) || (i =? _ - 1)).
  - apply setValueStencil_diagonal.
  - apply set_row_tridiagonal.
Qed.

Lemma get_sys_mat_row_other_rows (mx : Z) (dx factor : R) (A : Mat) (i i' j : Z) :
  i ≠ i' → get_sys_mat_row mx dx factor A i !! (i', j) = A !! (i', j).
Proof.
  intros Hne. unfold get_sys_mat_row.
  destruct ((i =? 0) || (i =? mx - 1)).
  - apply setValueStencil_other_rows. simpl. congruence.
  - apply set_row_other_rows. simpl. congruence.
Qed.

Lemma get_sys_mat_row_own_row (mx : Z) (dx factor : R) (A A' : Mat) (i : Z) :
  (∀ j, A !! (i, j) = A' !! (i, j)) →
  ∀ j, get_sys_mat_row mx dx factor A i !! (i, j)
       = get_sys_mat_row mx dx factor A' i !! (i, j).
Proof.
  intros HA j. unfold get_sys_mat_row.
  destruct ((i =? 0) || (i =? mx - 1)).
  - by apply (setValueStencil_own_row A A' {| st_i := i; st_field := 0 |}).
  - by apply (set_row_own_row A A' {| st_i := i; st_field := 0 |}).
Qed.

(** Row [i] of the matrix of [get_sys_mat]. *)
Lemma get_sys_mat_lookup (self : problem) factor i j :
  get_sys_mat self factor !! (i, j)
  = if decide (da_xs (init self) ≤ i < da_xe (init self)) then
      if boundary (da_mx (init self)) i
      then (if decide (j = i) then Some 1%R else None)
      else tridiagonal i (- factor / dx self ^ 2) (1 + factor * 2 / dx self ^ 2)
                       (- factor / dx self ^ 2) j
    else None.
Proof.
  unfold get_sys_mat, assemble, zeroEntries.
  rewrite row_loop_lookup
    by (intros; eauto using get_sys_mat_row_other_rows, get_sys_mat_row_own_row).
  case_decide; [|done].
  unfold get_sys_mat_row, boundary. destruct ((i =? 0) || (i =? _ - 1)).
  - apply setValueStencil_diagonal.
  - apply set_row_tridiagonal.
Qed.

(** ** The system matrix and [I - factor * A] *)

Lemma getValue_tridiagonal (A : Mat) i j lower diag upper :
  A !! (i, j) = tridiagonal i lower diag upper j →
  getValue A i j
  = if decide (j = i - 1) then lower
    else if decide (j = i) then diag
    else if decide (j = i + 1) then upper
    else 0%R.
Proof.
  unfold getValue, tridiagonal. intros ->. repeat case_decide; done.
Qed.

Lemma getValue_identity_row (A : Mat) i j :
  A !! (i, j) = (if decide (j = i) then Some 1%R else None) →
  getValue A i j = eye i j.
Proof.
  unfold getValue, eye. intros ->. repeat case_decide; try done; congruence.
Qed.

(** C1, amended: on a grid of [N >= 2] points the matrix of
    [get_sys_mat(factor)] equals [I - factor * A], with [A] the matrix of
    [__get_A], at every entry of every interior row [0 < i < N - 1]; its two
    boundary rows [0] and [N - 1] are rows of the identity matrix, as those of
    [A] are. *)
Theorem get_sys_mat_is_I_minus_factor_A_inside
    (self : problem) (N : Z) (factor : R) (i j : Z) :
  init self = DMDA_create N → 2 ≤ N → 0 ≤ i < N →
  (0 < i < N - 1 →
   getValue (get_sys_mat self factor) i j
   = (eye i j - factor * getValue (get_A self) i j)%R)
  ∧ (i = 0 ∨ i = N - 1 →
     getValue (get_sys_mat self factor) i j = eye i j
     ∧ getValue (get_A self) i j = eye i j).
Proof.
  intros Hinit HN Hi.
  pose proof (get_sys_mat_lookup self factor i j) as HS.
  pose proof (get_A_lookup self i j) as HA.
  rewrite Hinit in HS, HA. simpl in HS, HA.
  rewrite decide_True in HS, HA by lia.
  split.
  - intros Hin.
    assert (boundary N i = false) as Hb.
    { apply not_true_is_false. rewrite boundary_spec. lia. }
    rewrite Hb in HS, HA.
    rewrite (getValue_tridiagonal _ _ _ _ _ _ HS), (getValue_tridiagonal _ _ _ _ _ _ HA).
    unfold eye. repeat case_decide; try lia; unfold Rdiv; ring.
  - intros Hbd. apply boundary_spec in Hbd. rewrite Hbd in HS, HA.
    split; by apply getValue_identity_row.
Qed.

(** The interior row 1 of the grid of 3 points, with [factor = 5]. *)
Lemma get_sys_mat_is_I_minus_factor_A_inside_witness :
  let self := new_problem 3 2 1 (0%R, 1%R) in
  getValue (get_sys_mat self 5) 1 1
  = (eye 1 1 - 5 * getValue (get_A self) 1 1)%R.
Proof.
  intros self.
  apply (get_sys_mat_is_I_minus_factor_A_inside self 3 5 1 1); [reflexivity|lia..].
Defined.

(** C1 as stated fails on the boundary rows: with [factor = 1] the entry
    (0, 0) of [get_sys_mat(factor)] is [1], that of [I - factor * A] is [0]. *)
Lemma get_sys_mat_boundary_row_differs :
  let self := new_problem 2 2 1 (0%R, 1%R) in
  getValue (get_sys_mat self 1) 0 0 = 1%R
  ∧ (eye 0 0 - 1 * getValue (get_A self) 0 0)%R = 0%R
  ∧ getValue (get_sys_mat self 1) 0 0
    ≠ (eye 0 0 - 1 * getValue (get_A self) 0 0)%R.
Proof.
  intros self.
  assert (getValue (get_sys_mat self 1) 0 0 = 1%R) as HS.
  { unfold getValue. rewrite get_sys_mat_lookup. reflexivity. }
  assert (getValue (get_A self) 0 0 = 1%R) as HA.
  { unfold getValue. rewrite get_A_lookup. reflexivity. }
  rewrite HS, HA. unfold eye. simpl.
  split; [done|]. split; lra.
Qed.

(** ** Loops that read and write vector arrays *)

Lemma py_index_in_range (len : nat) (i : Z) :
  0 ≤ i < Z.of_nat len → py_index len i = Some (Z.to_nat i).
Proof.
  intros Hi. unfold py_index.
  replace ((0 <=? i) && (i <? Z.of_nat len)) with true; [done|].
  symmetry. apply andb_true_iff. split; [apply Z.leb_le|apply Z.ltb_lt]; lia.
Qed.

Lemma getitem_in_range (x : Vec) (i : Z) :
  0 ≤ i < Z.of_nat (length x) → getitem x i = Some (item x i).
Proof.
  intros Hi. unfold item, getitem. rewrite py_index_in_range by done. simpl.
  destruct (lookup_lt_is_Some_2 x (Z.to_nat i)) as [v Hv]; [lia|].
  by rewrite Hv.
Qed.

Lemma setitem_in_range (f : Vec) (i : Z) (v : R) :
  0 ≤ i < Z.of_nat (length f) → setitem f i v = Some (<[Z.to_nat i := v]> f).
Proof.
  intros Hi. unfold setitem. by rewrite py_index_in_range.
Qed.

Lemma getitem_insert (f : Vec) (i k : Z) (v : R) :
  0 ≤ i < Z.of_nat (length f) → 0 ≤ k < Z.of_nat (length f) →
  getitem (<[Z.to_nat i := v]> f) k = if decide (k = i) then Some v else getitem f k.
Proof.
  intros Hi Hk. unfold getitem. rewrite length_insert.
  rewrite py_index_in_range by done. simpl.
  case_decide as Hki.
  - subst k. apply list_lookup_insert_eq. lia.
  - apply list_lookup_insert_ne. lia.
Qed.

(** A loop whose pass for [i] stores a value computed from [i] alone at
    [f[i]]: it raises nothing when every index lies inside the array and
    every value is defined, and then it has stored the value of each index
    it ran over and left the other components alone. *)
Lemma for_each_setitem (val : Z → option R) (body : Vec → Z → option Vec)
    (l : list Z) (f : Vec) :
  (∀ f i, body f i = v ← val i; setitem f i v) →
  NoDup l →
  (∀ i, i ∈ l → 0 ≤ i < Z.of_nat (length f) ∧ is_Some (val i)) →
  ∃ f', for_each body f l = Some f'
        ∧ length f' = length f
        ∧ ∀ k, 0 ≤ k < Z.of_nat (length f) →
               getitem f' k = if decide (k ∈ l) then val k else getitem f k.
Proof.
  intros Hbody. revert f.
  induction l as [|a l IH]; intros f Hnd Hl; cbn [for_each].
  - exists f. split_and!; [done..|]. intros k Hk.
    rewrite decide_False; [done|]. apply not_elem_of_nil.
  - apply NoDup_cons in Hnd as [Ha Hnd].
    destruct (Hl a) as [Hin [v Hv]]; [left|].
    rewrite Hbody, Hv. cbn [mbind option_bind].
    rewrite setitem_in_range by done. cbn [mbind option_bind].
    destruct (IH (<[Z.to_nat a := v]> f) Hnd) as (f' & Hrun & Hlen & Hget).
    { intros i Hi. rewrite length_insert. apply Hl. by right. }
    rewrite length_insert in Hlen, Hget.
    exists f'. split_and!; [done..|]. intros k Hk.
    rewrite Hget by done. rewrite getitem_insert by done.
    destruct (decide (k = a)) as [->|Hne].
    + rewrite decide_False by done. rewrite decide_True by left. done.
    + destruct (decide (k ∈ l)) as [Hkl|Hkl].
      * rewrite decide_True by (by right). done.
      * rewrite decide_False; [done|].
        intros [?|?]%elem_of_cons; done.
Qed.

(** A loop whose passes cannot raise is the fold of its passes. *)
Lemma for_each_total {S : Type} (body : S → Z → option S) (l : list Z) (s : S) :
  (∀ s i, i ∈ l → is_Some (body s i)) →
  for_each body s l = Some (foldl (λ s i, default s (body s i)) s l).
Proof.
  revert s. induction l as [|a l IH]; intros s Hl; simpl; [done|].
  destruct (Hl s a) as [s' Hs']; [left|].
  rewrite Hs'. simpl. apply IH. intros s'' i Hi. apply Hl. by right.
Qed.

Lemma elem_of_range (lo hi i : Z) : i ∈ range lo hi ↔ lo ≤ i < hi.
Proof. unfold range. rewrite elem_of_seqZ. lia. Qed.

Lemma NoDup_range (lo hi : Z) : NoDup (range lo hi).
Proof. apply NoDup_seqZ. Qed.

(** ** The residuals of the two providers *)

(** C3: on a grid of [N >= 2] points [Fisher_full.formFunction] returns
    and has written, for every input vector [x], factor, [lambda0], [nu] and
    [dx], [F_i = x_i - factor * ((x_{i+1} - 2 x_i + x_{i-1}) / dx^2
    + lambda0^2 * x_i * (1 - x_i^nu))] at every interior index
    [0 < i < N - 1] and [F_i = x_i] at the boundary indices [0] and [N - 1]. *)
Theorem Fisher_full_formFunction_residual
    (prob : problem) (factor dx : R) (N : Z) (X F : Vec) :
  2 ≤ N → Z.of_nat (length X) = N → Z.of_nat (length F) = N →
  let self := Fisher_full.new (DMDA_create N) prob factor dx in
  let x := item X in
  ∃ F', Fisher_full.formFunction self X F = Some F'
    ∧ Z.of_nat (length F') = N
    ∧ (∀ i, 0 < i < N - 1 →
         getitem F' i
         = Some (x i - factor
                       * ((x (i + 1)%Z - 2 * x i + x (i - 1)%Z) / dx ^ 2
                          + lambda0 prob ^ 2 * x i * (1 - powerRZ (x i) (nu prob))))%R)
    ∧ (∀ i, i = 0 ∨ i = N - 1 → getitem F' i = Some (x i)).
Proof.
  intros HN HX HF self x.
  set (val := λ i : Z,
    if (i =? 0) || (i =? N - 1) then getitem X i
    else
      u ← getitem X i; u_e ← getitem X (i + 1); u_w ← getitem X (i - 1);
      xi ← getitem X i;
      Some (xi - factor
                 * ((u_e - 2 * u + u_w) / dx ^ 2
                    + lambda0 prob ^ 2 * xi * (1 - powerRZ xi (nu prob))))%R).
  destruct (for_each_setitem val (Fisher_full.formFunction_at self X) (range 0 N) F)
    as (F' & Hrun & Hlen & Hget).
  { intros f i. unfold Fisher_full.formFunction_at, val. simpl.
    destruct ((i =? 0) || (i =? N - 1)); [done|].
    destruct (getitem X i); simpl; [|done].
    destruct (getitem X (i + 1)); simpl; [|done].
    destruct (getitem X (i - 1)); simpl; done. }
  { apply NoDup_range. }
  { intros i Hi%elem_of_range. split; [lia|]. unfold val.
    destruct ((i =? 0) || (i =? N - 1)) eqn:Hb.
    - rewrite getitem_in_range by lia. done.
    - apply orb_false_iff in Hb as [H0%Z.eqb_neq H1%Z.eqb_neq].
      rewrite !getitem_in_range by lia. done. }
  exists F'. split; [exact Hrun|]. split; [lia|].
  assert (∀ i, 0 ≤ i < N → getitem F' i = val i) as Hval.
  { intros i Hi. rewrite Hget by lia. apply decide_True, elem_of_range. lia. }
  split.
  - intros i Hi. rewrite Hval by lia. unfold val.
    replace ((i =? 0) || (i =? N - 1)) with false.
    + rewrite !getitem_in_range by lia. done.
    + symmetry. apply orb_false_iff. split; apply Z.eqb_neq; lia.
  - intros i Hi. rewrite Hval by lia. unfold val.
    replace ((i =? 0) || (i =? N - 1)) with true.
    + apply getitem_in_range. lia.
    + symmetry. apply orb_true_iff. rewrite !Z.eqb_eq. done.
Qed.

(** The residual at the interior point of the grid of 3 points for
    [x = [0, 1, 0]], [factor = 1], [dx = 1/2], [lambda0 = 2] and [nu = 1]. *)
Lemma Fisher_full_formFunction_residual_witness :
  ∃ F', Fisher_full.formFunction
          (Fisher_full.new (DMDA_create 3) (new_problem 3 2 1 (0%R, 1%R)) 1 (1 / 2))
          [0%R; 1%R; 0%R] [7%R; 7%R; 7%R] = Some F'
        ∧ getitem F' 1 = Some 9%R.
Proof.
  destruct (Fisher_full_formFunction_residual
              (new_problem 3 2 1 (0%R, 1%R)) 1 (1 / 2) 3
              [0%R; 1%R; 0%R] [7%R; 7%R; 7%R])
    as (F' & Hrun & _ & Hin & _); [lia|reflexivity|reflexivity|].
  exists F'. split; [exact Hrun|].
  rewrite Hin by lia. f_equal. unfold item. simpl. lra.
Defined.

(** ** The Jacobians of the two providers *)

(** A row loop whose pass for row [i] inserts a list of (column, value)
    pairs computed from [i] alone. *)
Lemma for_each_set_row (entries : Z → option (list (Z * R)))
    (body : Mat → Z → option Mat) (xs xe : Z) :
  (∀ A i, body A i
          = es ← entries i; Some (set_row A {| st_i := i; st_field := 0 |} es)) →
  (∀ i, xs ≤ i < xe → is_Some (entries i)) →
  ∃ P : Mat, for_each body ∅ (range xs xe) = Some P
    ∧ ∀ i j, P !! (i, j)
             = if decide (xs ≤ i < xe)
               then es ← entries i; set_row ∅ {| st_i := i; st_field := 0 |} es !! (i, j)
               else None.
Proof.
  intros Hbody Hdef. eexists. split.
  - apply for_each_total. intros A i Hi%elem_of_range.
    rewrite Hbody. destruct (Hdef i Hi) as [es ->]. done.
  - intros i j. rewrite row_loop_lookup.
    + case_decide as Hi; [|done].
      rewrite Hbody. destruct (Hdef i Hi) as [es ->]. done.
    + intros A k k' c Hne. rewrite Hbody.
      destruct (entries k); simpl; [|done].
      apply set_row_other_rows. simpl. congruence.
    + intros A A' k HA c. rewrite !Hbody.
      destruct (entries k); simpl; [|done].
      by apply (set_row_own_row A A' {| st_i := k; st_field := 0 |}).
Qed.

Lemma tridiagonal_row_intro (A : Mat) i lower diag upper :
  (∀ j, A !! (i, j) = tridiagonal i lower diag upper j) →
  tridiagonal_row A i lower diag upper.
Proof.
  intros HA. unfold tridiagonal_row. rewrite !HA. unfold tridiagonal.
  split_and!.
  - rewrite decide_True; done.
  - rewrite decide_False by lia. rewrite decide_True; done.
  - rewrite decide_False by lia. rewrite decide_False by lia.
    rewrite decide_True; done.
  - intros j H1 H2 H3. rewrite HA. unfold tridiagonal.
    rewrite !decide_False by done. done.
Qed.

Lemma diagonal_row_intro (A : Mat) i diag :
  (∀ j, A !! (i, j) = if decide (j = i) then Some diag else None) →
  diagonal_row A i diag.
Proof.
  intros HA. unfold diagonal_row. rewrite HA, decide_True by done.
  split; [done|]. intros j Hj. rewrite HA, decide_False; done.
Qed.

Lemma set_row_diagonal i v j :
  set_row ∅ {| st_i := i; st_field := 0 |} [(i, v)] !! (i, j)
  = if decide (j = i) then Some v else None.
Proof. apply setValueStencil_diagonal. Qed.

Lemma boundary_false (N i : Z) : 0 < i < N - 1 → boundary N i = false.
Proof. intros Hi. apply not_true_is_false. rewrite boundary_spec. lia. Qed.

Lemma boundary_true (N i : Z) : i = 0 ∨ i = N - 1 → boundary N i = true.
Proof. apply boundary_spec. Qed.

(** The run of [Fisher_full.formJacobian] on one process and the rows of
    the matrix it leaves in [P]. *)
Lemma Fisher_full_formJacobian_run
    (prob : problem) (factor dx : R) (N : Z) (X : Vec) (J P : Mat) :
  Z.of_nat (length X) = N →
  let self := Fisher_full.new (DMDA_create N) prob factor dx in
  ∃ P', Fisher_full.formJacobian self X J P = Some (P', SAME_NONZERO_PATTERN)
    ∧ ∀ i j, 0 ≤ i < N →
        P' !! (i, j)
        = if boundary N i then (if decide (j = i) then Some 1%R else None)
          else tridiagonal i
                 (- factor / dx ^ 2)
                 (1 - factor
                      * (-2 / dx ^ 2
                         + lambda0 prob ^ 2
                           * (1 - IZR (nu prob + 1) * powerRZ (item X i) (nu prob))))
                 (- factor / dx ^ 2) j.
Proof.
  intros HX self.
  set (entries := λ i : Z,
    if (i =? 0) || (i =? N - 1) then Some [(i, 1%R)]
    else
      xi ← getitem X i;
      Some [(i - 1, (- factor / dx ^ 2)%R);
            (i, (1 - factor
                     * (-2 / dx ^ 2
                        + lambda0 prob ^ 2
                          * (1 - IZR (nu prob + 1) * powerRZ xi (nu prob))))%R);
            (i + 1, (- factor / dx ^ 2)%R)]).
  destruct (for_each_set_row entries (Fisher_full.formJacobian_row self X) 0 N)
    as (P' & Hrun & Hrows).
  { intros A i. unfold Fisher_full.formJacobian_row, entries. simpl.
    destruct ((i =? 0) || (i =? N - 1)); [done|].
    destruct (getitem X i); done. }
  { intros i Hi. unfold entries.
    destruct ((i =? 0) || (i =? N - 1)); [done|].
    rewrite getitem_in_range by lia. done. }
  exists P'. split.
  { unfold Fisher_full.formJacobian, zeroEntries, globalToLocal, assemble. simpl.
    rewrite Hrun. done. }
  intros i j Hi. rewrite Hrows, decide_True by lia.
  unfold entries, boundary. destruct ((i =? 0) || (i =? N - 1)); simpl.
  - apply set_row_diagonal.
  - rewrite getitem_in_range by lia. simpl. apply set_row_tridiagonal.
Qed.

(** C4: on a grid of [N >= 2] points [Fisher_full.formJacobian] returns
    and has written into [P], for every input vector [x], factor, [lambda0],
    [nu] and [dx]: in every interior row [0 < i < N - 1] the diagonal entry
    [1 - factor * (-2/dx^2 + lambda0^2 * (1 - (nu + 1) * x_i^nu))], the
    entries [-factor/dx^2] at the columns [i - 1] and [i + 1], and nothing
    else; the boundary rows [0] and [N - 1] are rows of the identity. *)
Theorem Fisher_full_formJacobian_rows
    (prob : problem) (factor dx : R) (N : Z) (X : Vec) (J P : Mat) :
  2 ≤ N → Z.of_nat (length X) = N →
  let self := Fisher_full.new (DMDA_create N) prob factor dx in
  let x := item X in
  ∃ P', Fisher_full.formJacobian self X J P = Some (P', SAME_NONZERO_PATTERN)
    ∧ (∀ i, 0 < i < N - 1 →
         tridiagonal_row P' i
           (- factor / dx ^ 2)
           (1 - factor
                * (-2 / dx ^ 2
                   + lambda0 prob ^ 2
                     * (1 - IZR (nu prob + 1) * powerRZ (x i) (nu prob))))
           (- factor / dx ^ 2))
    ∧ (∀ i, i = 0 ∨ i = N - 1 → identity_row P' i).
Proof.
  intros HN HX self x.
  destruct (Fisher_full_formJacobian_run prob factor dx N X J P HX)
    as (P' & Hrun & Hrows).
  exists P'. split; [exact Hrun|]. split.
  - intros i Hi. apply tridiagonal_row_intro. intros j.
    rewrite Hrows by lia. by rewrite boundary_false.
  - intros i Hi. apply diagonal_row_intro. intros j.
    rewrite Hrows by lia. by rewrite boundary_true.
Qed.

(** The Jacobian of the same run: an off-diagonal entry of the interior row
    and the last row. *)
Lemma Fisher_full_formJacobian_rows_witness :
  ∃ P', Fisher_full.formJacobian
          (Fisher_full.new (DMDA_create 3) (new_problem 3 2 1 (0%R, 1%R)) 1 (1 / 2))
          [0%R; 1%R; 0%R] ∅ ∅ = Some (P', SAME_NONZERO_PATTERN)
        ∧ P' !! (1, 0) = Some (- 1 / (1 / 2) ^ 2)%R
        ∧ identity_row P' 2.
Proof.
  destruct (Fisher_full_formJacobian_rows
              (new_problem 3 2 1 (0%R, 1%R)) 1 (1 / 2) 3 [0%R; 1%R; 0%R] ∅ ∅)
    as (P' & Hrun & Hin & Hbd); [lia|reflexivity|].
  exists P'. split; [exact Hrun|]. split.
  - destruct (Hin 1) as (Hlow & _); [lia|]. exact Hlow.
  - apply Hbd. right. reflexivity.
Defined.

(** The run of [Fisher_reaction.formFunction] on one process. *)
Lemma Fisher_reaction_formFunction_run
    (prob : problem) (factor : R) (N : Z) (X F : Vec) :
  Z.of_nat (length X) = N → Z.of_nat (length F) = N →
  let self := Fisher_reaction.new (DMDA_create N) prob factor in
  ∃ F', Fisher_reaction.formFunction self X F = Some F'
    ∧ Z.of_nat (length F') = N
    ∧ ∀ i, 0 ≤ i < N →
        getitem F' i
        = Some (if boundary N i then item X i
                else (item X i - factor * lambda0 prob ^ 2 * item X i
                                 * (1 - powerRZ (item X i) (nu prob)))%R).
Proof.
  intros HX HF self.
  set (val := λ i : Z,
    xi ← getitem X i;
    Some (if boundary N i then xi
          else (xi - factor * lambda0 prob ^ 2 * xi * (1 - powerRZ xi (nu prob)))%R)).
  destruct (for_each_setitem val (Fisher_reaction.formFunction_at self N X)
              (range 0 N) F) as (F' & Hrun & Hlen & Hget).
  { intros f i. unfold Fisher_reaction.formFunction_at, val, boundary. simpl.
    destruct ((i =? 0) || (i =? N - 1)); destruct (getitem X i); done. }
  { apply NoDup_range. }
  { intros i Hi%elem_of_range. split; [lia|]. unfold val.
    rewrite getitem_in_range by lia. done. }
  exists F'. split; [exact Hrun|]. split; [lia|].
  intros i Hi. rewrite Hget by lia.
  rewrite decide_True by (apply elem_of_range; lia).
  unfold val. rewrite getitem_in_range by lia. done.
Qed.

(** The run of [Fisher_reaction.formJacobian] on one process and the rows
    of the matrix it leaves in [P]. *)
Lemma Fisher_reaction_formJacobian_run
    (prob : problem) (factor : R) (N : Z) (X : Vec) (J P : Mat) :
  Z.of_nat (length X) = N →
  let self := Fisher_reaction.new (DMDA_create N) prob factor in
  ∃ P', Fisher_reaction.formJacobian self X J P = Some (P', SAME_NONZERO_PATTERN)
    ∧ ∀ i j, 0 ≤ i < N →
        P' !! (i, j)
        = if decide (j = i)
          then Some (if boundary N i then 1%R
                     else (1 - factor * lambda0 prob ^ 2
                               * (1 - IZR (nu prob + 1)
                                      * powerRZ (item X i) (nu prob)))%R)
          else None.
Proof.
  intros HX self.
  set (entries := λ i : Z,
    if (i =? 0) || (i =? N - 1) then Some [(i, 1%R)]
    else
      xi ← getitem X i;
      Some [(i, (1 - factor * lambda0 prob ^ 2
                     * (1 - IZR (nu prob + 1) * powerRZ xi (nu prob)))%R)]).
  destruct (for_each_set_row entries (Fisher_reaction.formJacobian_row self N X) 0 N)
    as (P' & Hrun & Hrows).
  { intros A i. unfold Fisher_reaction.formJacobian_row, entries. simpl.
    destruct ((i =? 0) || (i =? N - 1)); [done|].
    destruct (getitem X i); done. }
  { intros i Hi. unfold entries.
    destruct ((i =? 0) || (i =? N - 1)); [done|].
    rewrite getitem_in_range by lia. done. }
  exists P'. split.
  { unfold Fisher_reaction.formJacobian, zeroEntries, globalToLocal, assemble.
    simpl. rewrite Hrun. done. }
  intros i j Hi. rewrite Hrows, decide_True by lia.
  unfold entries, boundary. destruct ((i =? 0) || (i =? N - 1)); simpl.
  - apply set_row_diagonal.
  - rewrite getitem_in_range by lia. simpl. apply set_row_diagonal.
Qed.

(** C5: on a grid of [N >= 2] points, for every input vector [x],
    factor, [lambda0] and [nu], [Fisher_reaction.formFunction] writes
    [F_i = x_i - factor * lambda0^2 * x_i * (1 - x_i^nu)] at the interior
    indices and [F_i = x_i] at the boundary indices, and
    [Fisher_reaction.formJacobian] writes a diagonal matrix with the interior
    diagonal [1 - factor * lambda0^2 * (1 - (nu + 1) * x_i^nu)] and identity
    boundary rows; for [factor = 0.1], [lambda0 = 1], [nu = 2] and
    [x_i = 0.5] at an interior index the diagonal entry is [0.975]. *)
Theorem Fisher_reaction_residual_and_jacobian
    (prob : problem) (factor : R) (N : Z) (X F : Vec) (J P : Mat) :
  2 ≤ N → Z.of_nat (length X) = N → Z.of_nat (length F) = N →
  let self := Fisher_reaction.new (DMDA_create N) prob factor in
  let x := item X in
  (∃ F', Fisher_reaction.formFunction self X F = Some F'
     ∧ Z.of_nat (length F') = N
     ∧ (∀ i, 0 < i < N - 1 →
          getitem F' i
          = Some (x i - factor * lambda0 prob ^ 2 * x i
                        * (1 - powerRZ (x i) (nu prob)))%R)
     ∧ (∀ i, i = 0 ∨ i = N - 1 → getitem F' i = Some (x i)))
  ∧ (∃ P', Fisher_reaction.formJacobian self X J P = Some (P', SAME_NONZERO_PATTERN)
     ∧ (∀ i, 0 < i < N - 1 →
          diagonal_row P' i
            (1 - factor * lambda0 prob ^ 2
                 * (1 - IZR (nu prob + 1) * powerRZ (x i) (nu prob))))
     ∧ (∀ i, i = 0 ∨ i = N - 1 → identity_row P' i)
     ∧ (factor = 0.1%R → lambda0 prob = 1%R → nu prob = 2 →
        ∀ i, 0 < i < N - 1 → x i = 0.5%R → P' !! (i, i) = Some 0.975%R)).
Proof.
  intros HN HX HF self x. split.
  - destruct (Fisher_reaction_formFunction_run prob factor N X F HX HF)
      as (F' & Hrun & Hlen & Hget).
    exists F'. split_and!; [done..| |].
    + intros i Hi. rewrite Hget by lia. by rewrite boundary_false.
    + intros i Hi. rewrite Hget by lia. by rewrite boundary_true.
  - destruct (Fisher_reaction_formJacobian_run prob factor N X J P HX)
      as (P' & Hrun & Hrows).
    exists P'. split_and!; [done| | |].
    + intros i Hi. apply diagonal_row_intro. intros j.
      rewrite Hrows by lia. by rewrite boundary_false.
    + intros i Hi. apply diagonal_row_intro. intros j.
      rewrite Hrows by lia. by rewrite boundary_true.
    + intros -> Hl Hn i Hi Hx. rewrite Hrows, decide_True by (lia || done).
      rewrite boundary_false by done. fold (x i). rewrite Hl, Hn, Hx.
      f_equal. change (powerRZ 0.5 2) with (0.5 ^ 2)%R. change (2 + 1) with 3.
      lra.
Qed.

(** The scenario [factor = 0.1], [lambda0 = 1], [nu = 2] and
    [x = [0, 0.5, 0.5, 0.5, 0]]: the interior diagonal is [0.975]. *)
Lemma Fisher_reaction_residual_and_jacobian_witness :
  ∃ P', Fisher_reaction.formJacobian
          (Fisher_reaction.new (DMDA_create 5) (new_problem 5 1 2 (0%R, 1%R)) 0.1)
          [0%R; 0.5%R; 0.5%R; 0.5%R; 0%R] ∅ ∅ = Some (P', SAME_NONZERO_PATTERN)
        ∧ P' !! (1, 1) = Some 0.975%R
        ∧ P' !! (2, 2) = Some 0.975%R
        ∧ P' !! (3, 3) = Some 0.975%R.
Proof.
  destruct (Fisher_reaction_residual_and_jacobian
              (new_problem 5 1 2 (0%R, 1%R)) 0.1 5
              [0%R; 0.5%R; 0.5%R; 0.5%R; 0%R] (replicate 5 0%R) ∅ ∅)
    as (_ & P' & Hrun & _ & _ & Hval); [lia|reflexivity|reflexivity|].
  exists P'. split; [exact Hrun|].
  split_and!; apply Hval; (reflexivity || lia).
Defined.

(** ** The linear operator applied to a vector *)

Lemma getValue_get_A (self : problem) (i j : Z) :
  getValue (get_A self) i j
  = if decide (da_xs (init self) ≤ i < da_xe (init self)) then
      if boundary (da_mx (init self)) i then eye i j
      else if decide (j = i - 1) then (1 / dx self ^ 2)%R
      else if decide (j = i) then (-2 / dx self ^ 2)%R
      else if decide (j = i + 1) then (1 / dx self ^ 2)%R
      else 0%R
    else 0%R.
Proof.
  unfold getValue. rewrite get_A_lookup. unfold tridiagonal, eye.
  repeat case_decide; try done; try congruence; destruct (boundary _ _); done.
Qed.

Lemma dx_grid_5_unit_interval (lambda0 : R) (nu : Z) :
  dx (new_problem 5 lambda0 nu (0%R, 1%R)) = 0.25%R.
Proof. simpl. change (5 - 1) with 4. lra. Qed.

(** The matrix of [__get_A] on the grid of 5 points on [0, 1], applied to
    the vector [0, 1, 1, 1, 0]. *)
Lemma mult_get_A_pinned_ones (lambda0 : R) (nu : Z) :
  mult (get_A (new_problem 5 lambda0 nu (0%R, 1%R))) [0%R; 1%R; 1%R; 1%R; 0%R]
  = [0%R; (-16)%R; 0%R; (-16)%R; 0%R].
Proof.
  unfold mult.
  change (range 0 (Z.of_nat (length [0%R; 1%R; 1%R; 1%R; 0%R]))) with [0; 1; 2; 3; 4].
  cbn [map imap foldr compose].
  rewrite !getValue_get_A, dx_grid_5_unit_interval.
  simpl. unfold eye. simpl.
  repeat f_equal; lra.
Qed.

(** C2, amended: on the grid [N = 5] on [0, 1], where [dx = 0.25], the
    linear operator [A] of [__get_A] times the vector [0, 1, 1, 1, 0] is
    [0, -1/dx^2, 0, -1/dx^2, 0], that is [0, -16, 0, -16, 0]; this is also
    the diffusion component [eval_f] returns for that vector. *)
Theorem linear_operator_times_pinned_ones (lambda0 : R) (nu : Z) (t : R) :
  let self := new_problem 5 lambda0 nu (0%R, 1%R) in
  let u := [0%R; 1%R; 1%R; 1%R; 0%R] in
  dx self = 0.25%R
  ∧ mult (get_A self) u
    = [0%R; (-1 / dx self ^ 2)%R; 0%R; (-1 / dx self ^ 2)%R; 0%R]
  ∧ mult (get_A self) u = [0%R; (-16)%R; 0%R; (-16)%R; 0%R]
  ∧ ∃ comp2, eval_f self u t = Some ([0%R; (-16)%R; 0%R; (-16)%R; 0%R], comp2).
Proof.
  intros self u. split; [apply dx_grid_5_unit_interval|].
  split; [|split; [apply mult_get_A_pinned_ones|]].
  - unfold self, u. rewrite mult_get_A_pinned_ones, dx_grid_5_unit_interval.
    repeat f_equal; lra.
  - unfold eval_f, self, u. rewrite mult_get_A_pinned_ones.
    eexists. reflexivity.
Qed.

(** C2 as stated fails: the second component of the product is [-16], not
    [-2/dx^2 = -32]. *)
Lemma linear_operator_times_pinned_ones_is_not_minus_32 :
  let self := new_problem 5 2 1 (0%R, 1%R) in
  let u := [0%R; 1%R; 1%R; 1%R; 0%R] in
  mult (get_A self) u ≠ [0%R; (-32)%R; 0%R; (-32)%R; 0%R]
  ∧ mult (get_A self) u
    ≠ [0%R; (-2 / dx self ^ 2)%R; 0%R; (-2 / dx self ^ 2)%R; 0%R].
Proof.
  intros self u. unfold self, u.
  rewrite mult_get_A_pinned_ones, dx_grid_5_unit_interval.
  split; intros Heq; injection Heq as Heq _; lra.
Qed.

(** ** Boundary rows *)

(** C8: on a grid of [N >= 1] points the rows [0] and [N - 1] of the
    linear operator of [__get_A], of the system matrix of
    [get_sys_mat(factor)], of the Jacobian of [Fisher_full.formJacobian] and
    of the Jacobian of [Fisher_reaction.formJacobian] are rows of the
    identity (1 on the diagonal, no other entry), for every factor,
    [lambda0], [nu], [dx] and every input vector [x]. *)
Theorem boundary_rows_are_identity_rows
    (self prob : problem) (N : Z) (factor dx : R) (X : Vec) (J P : Mat) (i : Z) :
  init self = DMDA_create N → 1 ≤ N → Z.of_nat (length X) = N →
  i = 0 ∨ i = N - 1 →
  identity_row (get_A self) i
  ∧ identity_row (get_sys_mat self factor) i
  ∧ (∃ P', Fisher_full.formJacobian
             (Fisher_full.new (DMDA_create N) prob factor dx) X J P
           = Some (P', SAME_NONZERO_PATTERN)
           ∧ identity_row P' i)
  ∧ (∃ P', Fisher_reaction.formJacobian
             (Fisher_reaction.new (DMDA_create N) prob factor) X J P
           = Some (P', SAME_NONZERO_PATTERN)
           ∧ identity_row P' i).
Proof.
  intros Hinit HN HX Hi.
  assert (0 ≤ i < N) as Hrange by lia.
  pose proof (boundary_true N i Hi) as Hb.
  split_and!.
  - apply diagonal_row_intro. intros j. rewrite get_A_lookup, Hinit. simpl.
    rewrite decide_True by lia. by rewrite Hb.
  - apply diagonal_row_intro. intros j. rewrite get_sys_mat_lookup, Hinit. simpl.
    rewrite decide_True by lia. by rewrite Hb.
  - destruct (Fisher_full_formJacobian_run prob factor dx N X J P HX)
      as (P' & Hrun & Hrows).
    exists P'. split; [exact Hrun|].
    apply diagonal_row_intro. intros j. rewrite Hrows by lia. by rewrite Hb.
  - destruct (Fisher_reaction_formJacobian_run prob factor N X J P HX)
      as (P' & Hrun & Hrows).
    exists P'. split; [exact Hrun|].
    apply diagonal_row_intro. intros j. rewrite Hrows by lia. by rewrite Hb.
Qed.

(** The last row of the two operators on the grid of 4 points. *)
Lemma boundary_rows_are_identity_rows_witness :
  let self := new_problem 4 2 1 (0%R, 1%R) in
  identity_row (get_A self) 3 ∧ identity_row (get_sys_mat self 7) 3.
Proof.
  intros self.
  destruct (boundary_rows_are_identity_rows self self 4 7 (dx self)
              [1%R; 2%R; 3%R; 4%R] ∅ ∅ 3) as (HA & HS & _);
    [reflexivity|lia|reflexivity|right; reflexivity|].
  split; [exact HA|exact HS].
Defined.

(** ** The diagnostic counters *)

Section Counters.
Variable ksp_solve : Mat → Vec → Vec → Vec * Z.
Variable snes_solve :
  (Vec → Vec → option Vec) → (Vec → Mat → Mat → option (Mat * Structure)) →
  Vec → Vec → Vec * Z.

(** The backends report iteration counts that are not negative. *)
Hypothesis ksp_iterations_nonneg : ∀ A b x, 0 ≤ (ksp_solve A b x).2.
Hypothesis snes_iterations_nonneg : ∀ F Jac b x, 0 ≤ (snes_solve F Jac b x).2.

Lemma add_ksp_counters (self : problem) (its : Z) :
  0 ≤ its → counters_le self (add_ksp self its).
Proof. unfold counters_le. simpl. lia. Qed.

Lemma add_snes_counters (self : problem) (its : Z) :
  0 ≤ its → counters_le self (add_snes self its).
Proof. unfold counters_le. simpl. lia. Qed.

(** C9: a call of [solve_system_1] adds 1 to [ksp_ncalls] and the
    iteration count the linear backend reports to [ksp_itercount]; a call
    of [solve_system_2] adds 1 to [snes_ncalls] and the count the nonlinear
    backend reports to [snes_itercount]; with counts that are not negative
    no solve call, those of the two subclasses included, decreases or
    resets any of the four counters. *)
Theorem solve_calls_accumulate_counters
    (self : problem) (rhs : Vec) (factor : R) (u0 : Vec) (t : R) :
  let self1 := (solve_system_1 ksp_solve self rhs factor u0 t).2 in
  let its1 := (ksp_solve (get_sys_mat self factor) rhs u0).2 in
  let self2 := (solve_system_2 snes_solve self rhs factor u0 t).2 in
  let target := Fisher_reaction.new (init self) self factor in
  let its2 := (snes_solve (Fisher_reaction.formFunction target)
                          (Fisher_reaction.formJacobian target) rhs u0).2 in
  (ksp_ncalls self1 = ksp_ncalls self + 1
   ∧ ksp_itercount self1 = ksp_itercount self + its1
   ∧ snes_ncalls self1 = snes_ncalls self
   ∧ snes_itercount self1 = snes_itercount self)
  ∧ (snes_ncalls self2 = snes_ncalls self + 1
     ∧ snes_itercount self2 = snes_itercount self + its2
     ∧ ksp_ncalls self2 = ksp_ncalls self
     ∧ ksp_itercount self2 = ksp_itercount self)
  ∧ counters_le self self1
  ∧ counters_le self self2
  ∧ counters_le self (fullyimplicit_solve_system snes_solve self rhs factor u0 t).2
  ∧ counters_le self (semiimplicit_solve_system ksp_solve self rhs factor u0 t).2.
Proof.
  intros self1 its1 self2 target its2.
  unfold self1, self2, its1, its2, solve_system_1, solve_system_2,
    fullyimplicit_solve_system, semiimplicit_solve_system.
  fold target.
  pose proof (ksp_iterations_nonneg (get_sys_mat self factor) rhs u0) as Hk.
  pose proof (snes_iterations_nonneg (Fisher_reaction.formFunction target)
                (Fisher_reaction.formJacobian target) rhs u0) as Hs.
  pose proof (snes_iterations_nonneg
                (Fisher_full.formFunction
                   (Fisher_full.new (init self) self factor (dx self)))
                (Fisher_full.formJacobian
                   (Fisher_full.new (init self) self factor (dx self)))
                rhs u0) as Hf.
  destruct (ksp_solve _ _ _) as [me1 k1].
  destruct (snes_solve (Fisher_reaction.formFunction target) _ _ _) as [me2 k2].
  destruct (snes_solve (Fisher_full.formFunction _) _ _ _) as [me3 k3].
  simpl in *.
  split_and!; try done; auto using add_ksp_counters, add_snes_counters.
Qed.
End Counters.

(** A first call of [solve_system_1] with a backend that reports 3
    iterations. *)
Lemma solve_calls_accumulate_counters_witness :
  let ksp := λ (_ : Mat) (_ x : Vec), (x, 3) in
  let snes := λ (_ : Vec → Vec → option Vec)
                (_ : Vec → Mat → Mat → option (Mat * Structure)) (_ x : Vec), (x, 2) in
  let self := new_problem 5 2 1 (0%R, 1%R) in
  ksp_ncalls (solve_system_1 ksp self [] 1 [] 0).2 = 1
  ∧ ksp_itercount (solve_system_1 ksp self [] 1 [] 0).2 = 3.
Proof.
  intros ksp snes self.
  destruct (solve_calls_accumulate_counters ksp snes) with
    (self := self) (rhs := @nil R) (factor := 1%R) (u0 := @nil R) (t := 0%R)
    as ((Hn & Hi & _) & _).
  - intros A b x. simpl. lia.
  - intros F Jac b x. simpl. lia.
  - split; [exact Hn|exact Hi].
Defined.

(** ** The system matrix as an operator *)

Lemma sum_imap_zero (c : nat → R) (u : Vec) :
  (∀ j, (j < length u)%nat → c j = 0%R) →
  foldr Rplus 0%R (imap (λ j uj, (c j * uj)%R) u) = 0%R.
Proof.
  revert c. induction u as [|x u IH]; intros c Hc; simpl; [done|].
  assert (foldr Rplus 0%R (imap ((λ j uj, (c j * uj)%R) ∘ S) u) = 0%R) as ->.
  { apply (IH (λ j, c (S j))). intros j Hj. apply Hc. simpl. lia. }
  rewrite Hc by (simpl; lia). lra.
Qed.

Lemma sum_imap_plus (c1 c2 : nat → R) (u : Vec) :
  foldr Rplus 0%R (imap (λ j uj, ((c1 j + c2 j) * uj)%R) u)
  = (foldr Rplus 0%R (imap (λ j uj, (c1 j * uj)%R) u)
     + foldr Rplus 0%R (imap (λ j uj, (c2 j * uj)%R) u))%R.
Proof.
  revert c1 c2. induction u as [|x u IH]; intros c1 c2; simpl; [lra|].
  assert (foldr Rplus 0%R (imap ((λ j uj, ((c1 j + c2 j) * uj)%R) ∘ S) u)
          = (foldr Rplus 0%R (imap ((λ j uj, (c1 j * uj)%R) ∘ S) u)
             + foldr Rplus 0%R (imap ((λ j uj, (c2 j * uj)%R) ∘ S) u))%R) as ->.
  { apply (IH (λ j, c1 (S j)) (λ j, c2 (S j))). }
  lra.
Qed.

Lemma sum_imap_single (k : nat) (a : R) (u : Vec) :
  foldr Rplus 0%R (imap (λ j uj, ((if decide (j = k) then a else 0) * uj)%R) u)
  = (a * default 0 (u !! k))%R.
Proof.
  revert k. induction u as [|x u IH]; intros k; simpl; [lra|].
  destruct k as [|k]; simpl.
  - assert (foldr Rplus 0%R
              (imap ((λ j uj, ((if decide (j = 0%nat) then a else 0) * uj)%R) ∘ S) u)
            = 0%R) as ->.
    { apply (sum_imap_zero (λ j, if decide (S j = 0%nat) then a else 0%R)).
      intros j _. by rewrite decide_False. }
    lra.
  - rewrite <- (IH k).
    assert (imap ((λ j uj, ((if decide (j = S k) then a else 0) * uj)%R) ∘ S) u
            = imap (λ j uj, ((if decide (j = k) then a else 0) * uj)%R) u) as ->.
    { apply imap_ext. intros j y _. simpl. repeat case_decide; try done; lia. }
    lra.
Qed.

Lemma item_nonneg (u : Vec) (k : Z) : 0 ≤ k → item u k = default 0%R (u !! Z.to_nat k).
Proof.
  intros Hk. unfold item, getitem, py_index.
  destruct (decide (k < Z.of_nat (length u))) as [Hlt|Hge].
  - replace ((0 <=? k) && (k <? Z.of_nat (length u))) with true; [done|].
    symmetry. apply andb_true_iff. split; [apply Z.leb_le|apply Z.ltb_lt]; lia.
  - replace ((0 <=? k) && (k <? Z.of_nat (length u))) with false
      by (symmetry; apply andb_false_iff; right; apply Z.ltb_ge; lia).
    replace ((- Z.of_nat (length u) <=? k) && (k <? 0)) with false
      by (symmetry; apply andb_false_iff; right; apply Z.ltb_ge; lia).
    simpl. rewrite lookup_ge_None_2 by lia. done.
Qed.

(** The product of a tridiagonal row with a vector. *)
Lemma row_sum_tridiagonal (A : Mat) (i : Z) (lower diag upper : R) (u : Vec) :
  0 < i →
  (∀ j, A !! (i, j) = tridiagonal i lower diag upper j) →
  foldr Rplus 0%R (imap (λ j uj, (getValue A i (Z.of_nat j) * uj)%R) u)
  = (lower * item u (i - 1) + diag * item u i + upper * item u (i + 1))%R.
Proof.
  intros Hi HA.
  rewrite (imap_ext _
    (λ j uj,
       (((if decide (j = Z.to_nat (i - 1)) then lower else 0)
         + ((if decide (j = Z.to_nat i) then diag else 0)
            + (if decide (j = Z.to_nat (i + 1)) then upper else 0))) * uj)%R)).
  - rewrite sum_imap_plus, sum_imap_plus, !sum_imap_single.
    rewrite !item_nonneg by lia. lra.
  - intros j y _. simpl. f_equal.
    rewrite (getValue_tridiagonal _ _ _ _ _ _ (HA (Z.of_nat j))).
    repeat case_decide; first [lra|lia|congruence].
Qed.

(** The product of an identity row with a vector. *)
Lemma row_sum_identity (A : Mat) (i : Z) (u : Vec) :
  0 ≤ i →
  (∀ j, A !! (i, j) = if decide (j = i) then Some 1%R else None) →
  foldr Rplus 0%R (imap (λ j uj, (getValue A i (Z.of_nat j) * uj)%R) u) = item u i.
Proof.
  intros Hi HA.
  rewrite (imap_ext _ (λ j uj, ((if decide (j = Z.to_nat i) then 1 else 0) * uj)%R)).
  - rewrite sum_imap_single, item_nonneg by lia. lra.
  - intros j y _. simpl. f_equal.
    rewrite (getValue_identity_row _ _ _ (HA (Z.of_nat j))). unfold eye.
    repeat case_decide; first [lra|lia|congruence].
Qed.

Lemma getitem_mult (A : Mat) (u : Vec) (i : Z) :
  0 ≤ i < Z.of_nat (length u) →
  getitem (mult A u) i
  = Some (foldr Rplus 0%R (imap (λ j uj, (getValue A i (Z.of_nat j) * uj)%R) u)).
Proof.
  intros Hi. unfold getitem, mult, range.
  rewrite length_map, length_seqZ.
  rewrite py_index_in_range by lia. simpl.
  rewrite list_lookup_fmap, lookup_seqZ_lt by lia. simpl.
  replace (0 + Z.of_nat (Z.to_nat i)) with i by lia. done.
Qed.

Lemma getitem_insert_nat (f : Vec) (k : nat) (i : Z) (v : R) :
  (k < length f)%nat → 0 ≤ i < Z.of_nat (length f) →
  getitem (<[k := v]> f) i = if decide (i = Z.of_nat k) then Some v else getitem f i.
Proof.
  intros Hk Hi. rewrite <- (Nat2Z.id k) at 1.
  rewrite getitem_insert by lia. done.
Qed.

Lemma setitem_last (f : Vec) (v : R) :
  (0 < length f)%nat → setitem f (-1) v = Some (<[(length f - 1)%nat := v]> f).
Proof.
  intros Hlen. unfold setitem, py_index.
  replace ((0 <=? -1) && (-1 <? Z.of_nat (length f))) with false by done.
  replace ((- Z.of_nat (length f) <=? -1) && (-1 <? 0)) with true
    by (symmetry; apply andb_true_iff; split; [apply Z.leb_le; lia|done]).
  simpl. do 2 f_equal. lia.
Qed.

Lemma length_mult (A : Mat) (u : Vec) : length (mult A u) = length u.
Proof. unfold mult, range. rewrite length_map, length_seqZ. lia. Qed.

(** The run of [eval_f] on one process: the diffusion component is the
    product with [A], zeroed at the first and at the last point. *)
Lemma eval_f_run (self : problem) (N : Z) (u : Vec) (t : R) :
  init self = DMDA_create N → 2 ≤ N → Z.of_nat (length u) = N →
  ∃ comp2,
    eval_f self u t
    = Some (<[(length u - 1)%nat := 0%R]> (<[0%nat := 0%R]> (mult (get_A self) u)),
            comp2).
Proof.
  intros Hinit HN Hu. unfold eval_f. rewrite Hinit. simpl.
  rewrite setitem_in_range by (rewrite length_mult; lia). simpl.
  rewrite setitem_last by (rewrite length_insert, length_mult; lia). simpl.
  rewrite length_insert, length_mult.
  destruct (for_each_setitem
              (λ i, xi ← getitem u i;
                    Some (lambda0 self ^ 2 * xi * (1 - powerRZ xi (nu self)))%R)
              (eval_f_reaction_at self u) (range 0 N)
              (replicate (Z.to_nat N) 0%R)) as (fa2 & -> & Hlen & _).
  { intros f i. unfold eval_f_reaction_at. destruct (getitem u i); done. }
  { apply NoDup_range. }
  { intros i Hi%elem_of_range. rewrite length_replicate. split; [lia|].
    rewrite getitem_in_range by lia. done. }
  rewrite length_replicate in Hlen. simpl.
  rewrite setitem_in_range by lia. simpl.
  rewrite setitem_last by (rewrite length_insert; lia). simpl.
  eexists. reflexivity.
Qed.

(** The system matrix is [I - factor * L], with [L] the linear operator as
    [eval_f] applies it: the product with [A], zeroed at the two boundary
    points.  On a grid of [N >= 2] points and for every vector [u],
    [get_sys_mat(factor)] times [u] is [u - factor * eval_f(u).comp1]. *)
Lemma get_sys_mat_times_vector
    (self : problem) (N : Z) (factor : R) (u : Vec) (t : R) :
  init self = DMDA_create N → 2 ≤ N → Z.of_nat (length u) = N →
  ∃ L comp2, eval_f self u t = Some (L, comp2)
    ∧ ∀ i, 0 ≤ i < N →
        getitem (mult (get_sys_mat self factor) u) i
        = Some (item u i - factor * item L i)%R.
Proof.
  intros Hinit HN Hu.
  destruct (eval_f_run self N u t Hinit HN Hu) as (comp2 & Hrun).
  eexists _, comp2. split; [exact Hrun|].
  intros i Hi. rewrite getitem_mult by lia.
  assert (∀ j, get_sys_mat self factor !! (i, j)
               = if boundary N i then (if decide (j = i) then Some 1%R else None)
                 else tridiagonal i (- factor / dx self ^ 2)
                        (1 + factor * 2 / dx self ^ 2) (- factor / dx self ^ 2) j)
    as HS.
  { intros j. rewrite get_sys_mat_lookup, Hinit.
    cbn [da_xs da_xe da_mx DMDA_create]. by rewrite decide_True by lia. }
  assert (∀ j, get_A self !! (i, j)
               = if boundary N i then (if decide (j = i) then Some 1%R else None)
                 else tridiagonal i (1 / dx self ^ 2) (-2 / dx self ^ 2)
                        (1 / dx self ^ 2) j)
    as HA.
  { intros j. rewrite get_A_lookup, Hinit.
    cbn [da_xs da_xe da_mx DMDA_create]. by rewrite decide_True by lia. }
  f_equal. unfold item at 2.
  rewrite getitem_insert_nat by (rewrite ?length_insert, length_mult; lia).
  rewrite getitem_insert_nat by (rewrite ?length_insert, length_mult; lia).
  destruct (boundary N i) eqn:Hb.
  - rewrite (row_sum_identity _ i u ltac:(lia) HS).
    apply boundary_spec in Hb.
    repeat case_decide; simpl; try lra; lia.
  - assert (0 < i < N - 1) as Hin.
    { destruct (decide (i = 0 ∨ i = N - 1)) as [Hbd%boundary_spec|]; [congruence|lia]. }
    rewrite (row_sum_tridiagonal _ i _ _ _ u ltac:(lia) HS).
    rewrite !decide_False by lia.
    rewrite getitem_mult by lia. cbn [default from_option]. unfold Datatypes.id.
    rewrite (row_sum_tridiagonal _ i _ _ _ u ltac:(lia) HA).
    unfold Rdiv. ring.
Qed.

(** ** The right-hand sides *)

(** A loop whose pass for [i] replaces [f[i]] by a value computed from [i]
    and from [f[i]]. *)
Lemma for_each_update (upd : Z → R → option R) (body : Vec → Z → option Vec)
    (l : list Z) (f : Vec) :
  (∀ f i, body f i = fi ← getitem f i; v ← upd i fi; setitem f i v) →
  NoDup l →
  (∀ i, i ∈ l → 0 ≤ i < Z.of_nat (length f) ∧ ∀ fi, is_Some (upd i fi)) →
  ∃ f', for_each body f l = Some f'
        ∧ length f' = length f
        ∧ ∀ k, 0 ≤ k < Z.of_nat (length f) →
               getitem f' k
               = if decide (k ∈ l) then fi ← getitem f k; upd k fi else getitem f k.
Proof.
  intros Hbody. revert f.
  induction l as [|a l IH]; intros f Hnd Hl; cbn [for_each].
  - exists f. split_and!; [done..|]. intros k Hk.
    rewrite decide_False; [done|]. apply not_elem_of_nil.
  - apply NoDup_cons in Hnd as [Ha Hnd].
    destruct (Hl a) as [Hin Hupd]; [left|].
    rewrite Hbody, getitem_in_range by done. cbn [mbind option_bind].
    destruct (Hupd (item f a)) as [v Hv]. rewrite Hv. cbn [mbind option_bind].
    rewrite setitem_in_range by done. cbn [mbind option_bind].
    destruct (IH (<[Z.to_nat a := v]> f) Hnd) as (f' & Hrun & Hlen & Hget).
    { intros i Hi. rewrite length_insert. apply Hl. by right. }
    rewrite length_insert in Hlen, Hget.
    exists f'. split_and!; [done..|]. intros k Hk.
    rewrite Hget by done. rewrite getitem_insert by done.
    destruct (decide (k = a)) as [->|Hne].
    + rewrite decide_False by done. rewrite decide_True by left.
      rewrite getitem_in_range by done. cbn [mbind option_bind]. done.
    + destruct (decide (k ∈ l)) as [Hkl|Hkl].
      * rewrite decide_True by (by right). done.
      * rewrite decide_False; [done|].
        intros [?|?]%elem_of_cons; done.
Qed.

(** The components of [A u] on a grid of [N] points. *)
Lemma getitem_mult_get_A (self : problem) (N : Z) (u : Vec) (i : Z) :
  init self = DMDA_create N → Z.of_nat (length u) = N → 0 ≤ i < N →
  getitem (mult (get_A self) u) i
  = Some (if boundary N i then item u i else u_xx (dx self) u i).
Proof.
  intros Hinit Hu Hi. rewrite getitem_mult by lia. f_equal.
  assert (∀ j, get_A self !! (i, j)
               = if boundary N i then (if decide (j = i) then Some 1%R else None)
                 else tridiagonal i (1 / dx self ^ 2) (-2 / dx self ^ 2)
                        (1 / dx self ^ 2) j)
    as HA.
  { intros j. rewrite get_A_lookup, Hinit.
    cbn [da_xs da_xe da_mx DMDA_create]. by rewrite decide_True by lia. }
  destruct (boundary N i) eqn:Hb.
  - by rewrite (row_sum_identity _ i u ltac:(lia) HA).
  - assert (0 < i) as Hpos.
    { destruct (decide (i = 0)) as [->|]; [|lia]. by rewrite boundary_true in Hb by auto. }
    rewrite (row_sum_tridiagonal _ i _ _ _ u Hpos HA).
    unfold u_xx, Rdiv. ring.
Qed.

(** The run of [eval_f] on one process, with both components. *)
Lemma eval_f_entries (self : problem) (N : Z) (u : Vec) (t : R) :
  init self = DMDA_create N → 2 ≤ N → Z.of_nat (length u) = N →
  ∃ comp1 comp2,
    eval_f self u t = Some (comp1, comp2)
    ∧ Z.of_nat (length comp1) = N ∧ Z.of_nat (length comp2) = N
    ∧ ∀ i, 0 ≤ i < N →
        getitem comp1 i = Some (if boundary N i then 0%R else u_xx (dx self) u i)
        ∧ getitem comp2 i
          = Some (if boundary N i then 0%R else reaction self (item u i)).
Proof.
  intros Hinit HN Hu. unfold eval_f. rewrite Hinit. simpl.
  rewrite setitem_in_range by (rewrite length_mult; lia). simpl.
  rewrite setitem_last by (rewrite length_insert, length_mult; lia). simpl.
  rewrite length_insert, length_mult.
  destruct (for_each_setitem
              (λ i, xi ← getitem u i;
                    Some (lambda0 self ^ 2 * xi * (1 - powerRZ xi (nu self)))%R)
              (eval_f_reaction_at self u) (range 0 N)
              (replicate (Z.to_nat N) 0%R)) as (fa2 & -> & Hlen & Hget).
  { intros f i. unfold eval_f_reaction_at. destruct (getitem u i); done. }
  { apply NoDup_range. }
  { intros i Hi%elem_of_range. rewrite length_replicate. split; [lia|].
    rewrite getitem_in_range by lia. done. }
  rewrite length_replicate in Hlen, Hget. simpl.
  rewrite setitem_in_range by lia. simpl.
  rewrite setitem_last by (rewrite length_insert; lia). simpl.
  rewrite length_insert, Hlen.
  eexists _, _. split; [reflexivity|].
  split; [rewrite !length_insert, length_mult; lia|].
  split; [rewrite !length_insert; lia|].
  intros i Hi. split.
  - rewrite getitem_insert_nat by (rewrite ?length_insert, length_mult; lia).
    rewrite getitem_insert_nat by (rewrite ?length_insert, length_mult; lia).
    rewrite (getitem_mult_get_A self N) by done.
    destruct (boundary N i) eqn:Hb.
    + apply boundary_spec in Hb. repeat case_decide; try done; lia.
    + assert (¬ (i = 0 ∨ i = N - 1)) as Hnb
        by (intros Hbd%boundary_spec; congruence).
      rewrite !decide_False by lia. done.
  - rewrite getitem_insert_nat by (rewrite ?length_insert; lia).
    rewrite getitem_insert_nat by (rewrite ?length_insert; lia).
    rewrite Hget by lia. rewrite (decide_True (P := i ∈ range 0 N))
      by (apply elem_of_range; lia).
    rewrite getitem_in_range by lia. simpl.
    destruct (boundary N i) eqn:Hb.
    + apply boundary_spec in Hb. repeat case_decide; try done; lia.
    + assert (¬ (i = 0 ∨ i = N - 1)) as Hnb
        by (intros Hbd%boundary_spec; congruence).
      rewrite !decide_False by lia. done.
Qed.

(** The run of [petsc_fisher_fullyimplicit.eval_f] on one process. *)
Lemma fullyimplicit_eval_f_entries (self : problem) (N : Z) (u : Vec) (t : R) :
  init self = DMDA_create N → 2 ≤ N → Z.of_nat (length u) = N →
  ∃ f, fullyimplicit_eval_f self u t = Some f
    ∧ Z.of_nat (length f) = N
    ∧ ∀ i, 0 ≤ i < N →
        getitem f i
        = Some (if boundary N i then 0%R
                else (u_xx (dx self) u i + reaction self (item u i))%R).
Proof.
  intros Hinit HN Hu. unfold fullyimplicit_eval_f. rewrite Hinit. simpl.
  destruct (for_each_update
              (λ i fi, xi ← getitem u i;
                       Some (fi + lambda0 self ^ 2 * xi * (1 - powerRZ xi (nu self)))%R)
              (fullyimplicit_eval_f_at self u) (range 0 N)
              (mult (get_A self) u)) as (fa2 & -> & Hlen & Hget).
  { intros f i. unfold fullyimplicit_eval_f_at.
    destruct (getitem f i); simpl; [|done]. destruct (getitem u i); done. }
  { apply NoDup_range. }
  { intros i Hi%elem_of_range. rewrite length_mult. split; [lia|].
    intros fi. rewrite getitem_in_range by lia. done. }
  rewrite length_mult in Hlen, Hget. simpl.
  rewrite setitem_in_range by lia. simpl.
  rewrite setitem_last by (rewrite length_insert; lia). simpl.
  rewrite length_insert, Hlen.
  eexists. split; [reflexivity|].
  split; [rewrite !length_insert; lia|].
  intros i Hi.
  rewrite getitem_insert_nat by (rewrite ?length_insert; lia).
  rewrite getitem_insert_nat by (rewrite ?length_insert; lia).
  rewrite Hget by lia. rewrite (decide_True (P := i ∈ range 0 N))
    by (apply elem_of_range; lia).
  rewrite (getitem_mult_get_A self N) by done. simpl.
  rewrite getitem_in_range by lia. simpl.
  destruct (boundary N i) eqn:Hb.
  - apply boundary_spec in Hb. repeat case_decide; try done; lia.
  - assert (¬ (i = 0 ∨ i = N - 1)) as Hnb
      by (intros Hbd%boundary_spec; congruence).
    rewrite !decide_False by lia. done.
Qed.

(** The run of [Fisher_full.formFunction] on one process. *)
Lemma Fisher_full_formFunction_run
    (prob : problem) (factor dx : R) (N : Z) (X F : Vec) :
  Z.of_nat (length X) = N → Z.of_nat (length F) = N →
  let self := Fisher_full.new (DMDA_create N) prob factor dx in
  ∃ F', Fisher_full.formFunction self X F = Some F'
    ∧ Z.of_nat (length F') = N
    ∧ ∀ i, 0 ≤ i < N →
        getitem F' i
        = Some (if boundary N i then item X i
                else (item X i
                      - factor * (u_xx dx X i + reaction prob (item X i)))%R).
Proof.
  intros HX HF self.
  set (val := λ i : Z,
    if (i =? 0) || (i =? N - 1) then getitem X i
    else
      u ← getitem X i; u_e ← getitem X (i + 1); u_w ← getitem X (i - 1);
      xi ← getitem X i;
      Some (xi - factor
                 * ((u_e - 2 * u + u_w) / dx ^ 2
                    + lambda0 prob ^ 2 * xi * (1 - powerRZ xi (nu prob))))%R).
  destruct (for_each_setitem val (Fisher_full.formFunction_at self X) (range 0 N) F)
    as (F' & Hrun & Hlen & Hget).
  { intros f i. unfold Fisher_full.formFunction_at, val. simpl.
    destruct ((i =? 0) || (i =? N - 1)); [done|].
    destruct (getitem X i); simpl; [|done].
    destruct (getitem X (i + 1)); simpl; [|done].
    destruct (getitem X (i - 1)); simpl; done. }
  { apply NoDup_range. }
  { intros i Hi%elem_of_range. split; [lia|]. unfold val.
    destruct ((i =? 0) || (i =? N - 1)) eqn:Hb.
    - rewrite getitem_in_range by lia. done.
    - apply orb_false_iff in Hb as [H0%Z.eqb_neq H1%Z.eqb_neq].
      rewrite !getitem_in_range by lia. done. }
  exists F'. split; [exact Hrun|]. split; [lia|].
  intros i Hi. rewrite Hget by lia.
  rewrite decide_True by (apply elem_of_range; lia).
  unfold val, boundary. destruct ((i =? 0) || (i =? N - 1)) eqn:Hb.
  - apply getitem_in_range. lia.
  - apply orb_false_iff in Hb as [H0%Z.eqb_neq H1%Z.eqb_neq].
    rewrite !getitem_in_range by lia. done.
Qed.

(** X1: on a grid of [N >= 2] points [eval_f] returns two vectors of
    length [N]; at an interior point the first holds the second difference
    quotient [(u_{i+1} - 2 u_i + u_{i-1}) / dx^2] and the second the
    reaction term [lambda0^2 u_i (1 - u_i^nu)]; both are zero at the two
    boundary points. *)
Theorem eval_f_components (self : problem) (N : Z) (u : Vec) (t : R) :
  init self = DMDA_create N → 2 ≤ N → Z.of_nat (length u) = N →
  ∃ comp1 comp2,
    eval_f self u t = Some (comp1, comp2)
    ∧ Z.of_nat (length comp1) = N ∧ Z.of_nat (length comp2) = N
    ∧ (∀ i, 0 < i < N - 1 →
         getitem comp1 i
         = Some ((item u (i + 1)%Z - 2 * item u i + item u (i - 1)%Z) / dx self ^ 2)%R
         ∧ getitem comp2 i
           = Some (lambda0 self ^ 2 * item u i * (1 - powerRZ (item u i) (nu self)))%R)
    ∧ (∀ i, i = 0 ∨ i = N - 1 →
         getitem comp1 i = Some 0%R ∧ getitem comp2 i = Some 0%R).
Proof.
  intros Hinit HN Hu.
  destruct (eval_f_entries self N u t Hinit HN Hu)
    as (comp1 & comp2 & Hrun & H1 & H2 & Hget).
  exists comp1, comp2. split_and!; [done..| |].
  - intros i Hi. destruct (Hget i) as [Hc1 Hc2]; [lia|].
    rewrite boundary_false in Hc1, Hc2 by done. done.
  - intros i Hi. destruct (Hget i) as [Hc1 Hc2]; [lia|].
    rewrite boundary_true in Hc1, Hc2 by done. done.
Qed.

Lemma eval_f_components_witness :
  ∃ comp1 comp2,
    eval_f (new_problem 3 2 1 (0%R, 1%R)) [0%R; 1%R; 0%R] 0 = Some (comp1, comp2)
    ∧ getitem comp1 1 = Some (-8)%R ∧ getitem comp2 1 = Some 0%R.
Proof.
  destruct (eval_f_components (new_problem 3 2 1 (0%R, 1%R)) 3 [0%R; 1%R; 0%R] 0)
    as (comp1 & comp2 & Hrun & _ & _ & Hin & _); [reflexivity|lia|reflexivity|].
  exists comp1, comp2. split; [exact Hrun|].
  destruct (Hin 1) as [-> ->]; [lia|].
  split; f_equal; unfold item; simpl; [change (3 - 1) with 2|]; lra.
Defined.

(** X2: the right-hand side of the fully implicit problem is the sum of
    the two parts of the split problems: on a grid of [N >= 2] points
    [petsc_fisher_fullyimplicit.eval_f] returns, at every point, the sum of
    the components [impl] and [expl] that [petsc_fisher_semiimplicit.eval_f]
    returns, which are the components [comp1] and [comp2] of
    [petsc_fisher_multiimplicit.eval_f]. *)
Theorem fullyimplicit_eval_f_is_sum_of_parts
    (self : problem) (N : Z) (u : Vec) (t : R) :
  init self = DMDA_create N → 2 ≤ N → Z.of_nat (length u) = N →
  ∃ f impl expl,
    fullyimplicit_eval_f self u t = Some f
    ∧ semiimplicit_eval_f self u t = Some (impl, expl)
    ∧ eval_f self u t = Some (impl, expl)
    ∧ Z.of_nat (length f) = N
    ∧ ∀ i, 0 ≤ i < N → item f i = (item impl i + item expl i)%R.
Proof.
  intros Hinit HN Hu.
  destruct (fullyimplicit_eval_f_entries self N u t Hinit HN Hu)
    as (f & Hf & Hlen & Hfi).
  destruct (eval_f_entries self N u t Hinit HN Hu)
    as (comp1 & comp2 & Hrun & _ & _ & Hget).
  exists f, comp1, comp2. split_and!; [done..|].
  intros i Hi. destruct (Hget i Hi) as [Hc1 Hc2].
  unfold item. rewrite Hfi, Hc1, Hc2 by done. simpl.
  destruct (boundary N i); lra.
Qed.

Lemma fullyimplicit_eval_f_is_sum_of_parts_witness :
  ∃ f impl expl,
    fullyimplicit_eval_f (new_problem 3 2 1 (0%R, 1%R)) [0%R; 1%R; 0%R] 0 = Some f
    ∧ eval_f (new_problem 3 2 1 (0%R, 1%R)) [0%R; 1%R; 0%R] 0 = Some (impl, expl)
    ∧ item f 1 = (item impl 1 + item expl 1)%R.
Proof.
  destruct (fullyimplicit_eval_f_is_sum_of_parts
              (new_problem 3 2 1 (0%R, 1%R)) 3 [0%R; 1%R; 0%R] 0)
    as (f & impl & expl & Hf & _ & He & _ & Hsum); [reflexivity|lia|reflexivity|].
  exists f, impl, expl. split_and!; [done..|]. apply Hsum. lia.
Defined.

(** ** Residuals, Jacobians and right-hand sides together *)

(** X3: the residual that [petsc_fisher_fullyimplicit.solve_system] hands
    to the nonlinear solver is [u - factor * f(u)], with [f] the right-hand
    side of that class: on a grid of [N >= 2] points, for every vector [X],
    [Fisher_full.formFunction] of the provider built from the instance
    writes, at every point, [X_i - factor * eval_f(X)_i]. *)
Theorem Fisher_full_residual_is_u_minus_factor_f
    (self : problem) (N : Z) (factor : R) (X F : Vec) (t : R) :
  init self = DMDA_create N → 2 ≤ N →
  Z.of_nat (length X) = N → Z.of_nat (length F) = N →
  let target := Fisher_full.new (init self) self factor (dx self) in
  ∃ F' f,
    Fisher_full.formFunction target X F = Some F'
    ∧ fullyimplicit_eval_f self X t = Some f
    ∧ ∀ i, 0 ≤ i < N → item F' i = (item X i - factor * item f i)%R.
Proof.
  intros Hinit HN HX HF target. unfold target. rewrite Hinit.
  destruct (Fisher_full_formFunction_run self factor (dx self) N X F HX HF)
    as (F' & Hrun & _ & Hget).
  destruct (fullyimplicit_eval_f_entries self N X t Hinit HN HX)
    as (f & Hf & _ & Hfi).
  exists F', f. split_and!; [done..|].
  intros i Hi. unfold item at 1 3. rewrite Hget, Hfi by done. simpl.
  destruct (boundary N i); lra.
Qed.

Lemma Fisher_full_residual_is_u_minus_factor_f_witness :
  ∃ F' f,
    Fisher_full.formFunction
      (Fisher_full.new (DMDA_create 3) (new_problem 3 2 1 (0%R, 1%R)) 5 (1 / 2))
      [0%R; 1%R; 0%R] [7%R; 7%R; 7%R] = Some F'
    ∧ fullyimplicit_eval_f (new_problem 3 2 1 (0%R, 1%R)) [0%R; 1%R; 0%R] 0 = Some f
    ∧ item F' 1 = (item [0%R; 1%R; 0%R] 1 - 5 * item f 1)%R.
Proof.
  destruct (Fisher_full_residual_is_u_minus_factor_f
              (new_problem 3 2 1 (0%R, 1%R)) 3 5
              [0%R; 1%R; 0%R] [7%R; 7%R; 7%R] 0)
    as (F' & f & HF & Hf & Hi); [reflexivity|lia|reflexivity|reflexivity|].
  exists F', f. split_and!; [|exact Hf|apply Hi; lia].
  rewrite <- HF. do 2 f_equal. unfold new_problem, Fisher_full.new. simpl.
  f_equal. change (3 - 1) with 2. lra.
Defined.

(** X4: the residual that [solve_system_2] hands to the nonlinear solver
    is [u - factor * comp2(u)], with [comp2] the reaction component of
    [eval_f]: on a grid of [N >= 2] points, for every vector [X],
    [Fisher_reaction.formFunction] of the provider built from the instance
    writes, at every point, [X_i - factor * eval_f(X).comp2_i]. *)
Theorem Fisher_reaction_residual_is_u_minus_factor_comp2
    (self : problem) (N : Z) (factor : R) (X F : Vec) (t : R) :
  init self = DMDA_create N → 2 ≤ N →
  Z.of_nat (length X) = N → Z.of_nat (length F) = N →
  let target := Fisher_reaction.new (init self) self factor in
  ∃ F' comp1 comp2,
    Fisher_reaction.formFunction target X F = Some F'
    ∧ eval_f self X t = Some (comp1, comp2)
    ∧ ∀ i, 0 ≤ i < N → item F' i = (item X i - factor * item comp2 i)%R.
Proof.
  intros Hinit HN HX HF target. unfold target. rewrite Hinit.
  destruct (Fisher_reaction_formFunction_run self factor N X F HX HF)
    as (F' & Hrun & _ & Hget).
  destruct (eval_f_entries self N X t Hinit HN HX)
    as (comp1 & comp2 & Hf & _ & _ & Hfi).
  exists F', comp1, comp2. split_and!; [done..|].
  intros i Hi. destruct (Hfi i Hi) as [_ Hc2].
  unfold item at 1 3. rewrite Hget, Hc2 by done. simpl.
  unfold reaction. destruct (boundary N i); lra.
Qed.

Lemma Fisher_reaction_residual_is_u_minus_factor_comp2_witness :
  ∃ F' comp1 comp2,
    Fisher_reaction.formFunction
      (Fisher_reaction.new (DMDA_create 3) (new_problem 3 2 1 (0%R, 1%R)) 5)
      [0%R; 1%R; 0%R] [7%R; 7%R; 7%R] = Some F'
    ∧ eval_f (new_problem 3 2 1 (0%R, 1%R)) [0%R; 1%R; 0%R] 0 = Some (comp1, comp2)
    ∧ item F' 1 = (item [0%R; 1%R; 0%R] 1 - 5 * item comp2 1)%R.
Proof.
  destruct (Fisher_reaction_residual_is_u_minus_factor_comp2
              (new_problem 3 2 1 (0%R, 1%R)) 3 5
              [0%R; 1%R; 0%R] [7%R; 7%R; 7%R] 0)
    as (F' & c1 & c2 & HF & Hf & Hi); [reflexivity|lia|reflexivity|reflexivity|].
  exists F', c1, c2. split_and!; [exact HF|exact Hf|apply Hi; lia].
Defined.

(** X5: the Jacobian of the full provider is the system matrix of the
    linear stage plus the Jacobian of the reaction provider minus the
    identity: on a grid of [N >= 2] points, for every vector [X] and every
    factor, every entry of the matrix of [Fisher_full.formJacobian] (with the
    spacing of the instance) is the sum of the entries of [get_sys_mat(factor)]
    and of the matrix of [Fisher_reaction.formJacobian], minus the entry of
    the identity matrix. *)
Theorem Fisher_full_jacobian_is_sys_mat_plus_reaction_jacobian
    (self : problem) (N : Z) (factor : R) (X : Vec) (J P : Mat) :
  init self = DMDA_create N → 2 ≤ N → Z.of_nat (length X) = N →
  ∃ Pfull Preaction,
    Fisher_full.formJacobian
      (Fisher_full.new (init self) self factor (dx self)) X J P
    = Some (Pfull, SAME_NONZERO_PATTERN)
    ∧ Fisher_reaction.formJacobian
        (Fisher_reaction.new (init self) self factor) X J P
      = Some (Preaction, SAME_NONZERO_PATTERN)
    ∧ ∀ i j, 0 ≤ i < N →
        getValue Pfull i j
        = (getValue (get_sys_mat self factor) i j + getValue Preaction i j
           - eye i j)%R.
Proof.
  intros Hinit HN HX. rewrite Hinit.
  destruct (Fisher_full_formJacobian_run self factor (dx self) N X J P HX)
    as (Pf & Hf & Hfe).
  destruct (Fisher_reaction_formJacobian_run self factor N X J P HX)
    as (Pr & Hr & Hre).
  exists Pf, Pr. split_and!; [done..|].
  intros i j Hi. unfold getValue.
  rewrite Hfe, Hre, get_sys_mat_lookup, Hinit by done.
  cbn [da_xs da_xe da_mx DMDA_create].
  rewrite (decide_True (P := 0 ≤ i < N)) by lia.
  unfold eye, tridiagonal. destruct (boundary N i).
  - repeat case_decide; simpl; first [lra|lia|congruence].
  - repeat case_decide; simpl; first [unfold Rdiv; ring|lia|congruence].
Qed.

Lemma Fisher_full_jacobian_is_sys_mat_plus_reaction_jacobian_witness :
  let self := new_problem 3 2 1 (0%R, 1%R) in
  ∃ Pfull Preaction,
    Fisher_full.formJacobian
      (Fisher_full.new (init self) self 5 (dx self)) [0%R; 1%R; 0%R] ∅ ∅
    = Some (Pfull, SAME_NONZERO_PATTERN)
    ∧ Fisher_reaction.formJacobian
        (Fisher_reaction.new (init self) self 5) [0%R; 1%R; 0%R] ∅ ∅
      = Some (Preaction, SAME_NONZERO_PATTERN)
    ∧ getValue Pfull 1 1
      = (getValue (get_sys_mat self 5) 1 1 + getValue Preaction 1 1 - eye 1 1)%R.
Proof.
  intros self.
  destruct (Fisher_full_jacobian_is_sys_mat_plus_reaction_jacobian
              self 3 5 [0%R; 1%R; 0%R] ∅ ∅)
    as (Pf & Pr & Hf & Hr & He); [reflexivity|lia|reflexivity|].
  exists Pf, Pr. split_and!; [exact Hf|exact Hr|apply He; lia].
Defined.

(** ** Shape of the assembled matrices *)

Lemma tridiagonal_Some (i : Z) (lower diag upper : R) (j : Z) (v : R) :
  tridiagonal i lower diag upper j = Some v → -1 ≤ j - i ≤ 1.
Proof. unfold tridiagonal. repeat case_decide; intros Hv; try discriminate; lia. Qed.

Lemma boundary_interior (N i : Z) :
  0 ≤ i < N → boundary N i = false → 0 < i < N - 1.
Proof.
  intros Hi Hb.
  destruct (decide (i = 0 ∨ i = N - 1)) as [Hbd%boundary_spec|]; [congruence|lia].
Qed.

(** The rows of the matrix of a Jacobian loop, inside and outside the
    range of the loop. *)
Lemma Fisher_full_formJacobian_lookup
    (prob : problem) (factor dx : R) (N : Z) (X : Vec) (J P : Mat) :
  Z.of_nat (length X) = N →
  ∃ P', Fisher_full.formJacobian
          (Fisher_full.new (DMDA_create N) prob factor dx) X J P
        = Some (P', SAME_NONZERO_PATTERN)
    ∧ ∀ i j v, P' !! (i, j) = Some v →
        0 ≤ i < N
        ∧ (if boundary N i then j = i else -1 ≤ j - i ≤ 1).
Proof.
  intros HX.
  set (self := Fisher_full.new (DMDA_create N) prob factor dx).
  set (entries := λ i : Z,
    if (i =? 0) || (i =? N - 1) then Some [(i, 1%R)]
    else
      xi ← getitem X i;
      Some [(i - 1, (- factor / dx ^ 2)%R);
            (i, (1 - factor
                     * (-2 / dx ^ 2
                        + lambda0 prob ^ 2
                          * (1 - IZR (nu prob + 1) * powerRZ xi (nu prob))))%R);
            (i + 1, (- factor / dx ^ 2)%R)]).
  destruct (for_each_set_row entries (Fisher_full.formJacobian_row self X) 0 N)
    as (P' & Hrun & Hrows).
  { intros A i. unfold Fisher_full.formJacobian_row, entries. simpl.
    destruct ((i =? 0) || (i =? N - 1)); [done|].
    destruct (getitem X i); done. }
  { intros i Hi. unfold entries.
    destruct ((i =? 0) || (i =? N - 1)); [done|].
    rewrite getitem_in_range by lia. done. }
  exists P'. split.
  { unfold Fisher_full.formJacobian, zeroEntries, globalToLocal, assemble. simpl.
    rewrite Hrun. done. }
  intros i j v. rewrite Hrows. case_decide as Hi; [|done].
  split; [done|]. revert H.
  unfold entries, boundary.
  destruct ((i =? 0) || (i =? N - 1)); cbn [mbind option_bind].
  - rewrite set_row_diagonal. case_decide; done.
  - rewrite getitem_in_range by lia. cbn [mbind option_bind].
    rewrite set_row_tridiagonal. apply tridiagonal_Some.
Qed.

Lemma Fisher_reaction_formJacobian_lookup
    (prob : problem) (factor : R) (N : Z) (X : Vec) (J P : Mat) :
  Z.of_nat (length X) = N →
  ∃ P', Fisher_reaction.formJacobian
          (Fisher_reaction.new (DMDA_create N) prob factor) X J P
        = Some (P', SAME_NONZERO_PATTERN)
    ∧ ∀ i j v, P' !! (i, j) = Some v → 0 ≤ i < N ∧ j = i.
Proof.
  intros HX.
  set (self := Fisher_reaction.new (DMDA_create N) prob factor).
  set (entries := λ i : Z,
    if (i =? 0) || (i =? N - 1) then Some [(i, 1%R)]
    else
      xi ← getitem X i;
      Some [(i, (1 - factor * lambda0 prob ^ 2
                     * (1 - IZR (nu prob + 1) * powerRZ xi (nu prob)))%R)]).
  destruct (for_each_set_row entries (Fisher_reaction.formJacobian_row self N X) 0 N)
    as (P' & Hrun & Hrows).
  { intros A i. unfold Fisher_reaction.formJacobian_row, entries. simpl.
    destruct ((i =? 0) || (i =? N - 1)); [done|].
    destruct (getitem X i); done. }
  { intros i Hi. unfold entries.
    destruct ((i =? 0) || (i =? N - 1)); [done|].
    rewrite getitem_in_range by lia. done. }
  exists P'. split.
  { unfold Fisher_reaction.formJacobian, zeroEntries, globalToLocal, assemble.
    simpl. rewrite Hrun. done. }
  intros i j v. rewrite Hrows. case_decide as Hi; [|done].
  split; [done|]. revert H.
  unfold entries. destruct ((i =? 0) || (i =? N - 1)); cbn [mbind option_bind].
  - rewrite set_row_diagonal. case_decide; done.
  - rewrite getitem_in_range by lia. cbn [mbind option_bind].
    rewrite set_row_diagonal. case_decide; done.
Qed.

Lemma getValue_nonzero (A : Mat) (i j : Z) :
  getValue A i j ≠ 0%R → ∃ v, A !! (i, j) = Some v.
Proof.
  unfold getValue. destruct (A !! (i, j)) as [v|]; [by exists v|].
  intros H. exfalso. apply H. reflexivity.
Qed.

(** X6: the assembled matrices stay inside the matrix and on its three
    central diagonals: on the grid of [N] points of one process, every
    coefficient [__get_A] and [get_sys_mat] store in the matrix they create
    has its row and its column in [0, N) and its column within one of its
    row; [Fisher_full.formJacobian] and [Fisher_reaction.formJacobian]
    return with [SAME_NONZERO_PATTERN] a matrix whose coefficients are zero
    outside that band, whatever the matrix held before, and the one of the
    reaction provider is zero off the diagonal. *)
Theorem assembled_matrices_stay_in_band
    (self prob : problem) (N : Z) (factor dx : R) (X : Vec) (J P : Mat) :
  init self = DMDA_create N → Z.of_nat (length X) = N →
  in_band N (get_A self)
  ∧ in_band N (get_sys_mat self factor)
  ∧ (∃ P', Fisher_full.formJacobian
             (Fisher_full.new (DMDA_create N) prob factor dx) X J P
           = Some (P', SAME_NONZERO_PATTERN)
           ∧ nonzeros_in_band N P')
  ∧ (∃ P', Fisher_reaction.formJacobian
             (Fisher_reaction.new (DMDA_create N) prob factor) X J P
           = Some (P', SAME_NONZERO_PATTERN)
           ∧ nonzeros_in_band N P'
           ∧ ∀ i j, getValue P' i j ≠ 0%R → j = i).
Proof.
  intros Hinit HX.
  assert (∀ i j, 0 ≤ i < N →
            (if boundary N i then j = i else -1 ≤ j - i ≤ 1) →
            0 ≤ j < N ∧ -1 ≤ j - i ≤ 1) as Hband.
  { intros i j Hi. destruct (boundary N i) eqn:Hb.
    - intros ->. lia.
    - apply boundary_interior in Hb; [|done]. lia. }
  split_and!.
  - intros i j v. rewrite get_A_lookup, Hinit.
    cbn [da_xs da_xe da_mx DMDA_create]. case_decide as Hi; [|done].
    intros Hv. split; [done|]. apply Hband; [done|].
    destruct (boundary N i).
    + by case_decide.
    + by apply tridiagonal_Some in Hv.
  - intros i j v. rewrite get_sys_mat_lookup, Hinit.
    cbn [da_xs da_xe da_mx DMDA_create]. case_decide as Hi; [|done].
    intros Hv. split; [done|]. apply Hband; [done|].
    destruct (boundary N i).
    + by case_decide.
    + by apply tridiagonal_Some in Hv.
  - destruct (Fisher_full_formJacobian_lookup prob factor dx N X J P HX)
      as (P' & Hrun & Hl).
    exists P'. split; [done|]. intros i j [v Hv]%getValue_nonzero.
    destruct (Hl i j v Hv) as [Hi Hj]. split; [done|]. by apply Hband.
  - destruct (Fisher_reaction_formJacobian_lookup prob factor N X J P HX)
      as (P' & Hrun & Hl).
    exists P'. split; [done|]. split.
    + intros i j [v Hv]%getValue_nonzero.
      destruct (Hl i j v Hv) as [Hi ->]. lia.
    + intros i j [v Hv]%getValue_nonzero. by destruct (Hl i j v Hv).
Qed.

(** A grid of four points; the Jacobians are written into a matrix that
    held a coefficient beside the diagonal. *)
Lemma assembled_matrices_stay_in_band_witness :
  in_band 4 (get_A (new_problem 4 2 1 (0%R, 1%R)))
  ∧ in_band 4 (get_sys_mat (new_problem 4 2 1 (0%R, 1%R)) 7)
  ∧ (∃ P', Fisher_full.formJacobian
             (Fisher_full.new (DMDA_create 4) (new_problem 4 2 1 (0%R, 1%R)) 7
                (dx (new_problem 4 2 1 (0%R, 1%R))))
             [1%R; 2%R; 3%R; 4%R] ∅ {[ (1, 0) := 5%R ]}
           = Some (P', SAME_NONZERO_PATTERN)
           ∧ nonzeros_in_band 4 P')
  ∧ (∃ P', Fisher_reaction.formJacobian
             (Fisher_reaction.new (DMDA_create 4) (new_problem 4 2 1 (0%R, 1%R)) 7)
             [1%R; 2%R; 3%R; 4%R] ∅ {[ (1, 0) := 5%R ]}
           = Some (P', SAME_NONZERO_PATTERN)
           ∧ nonzeros_in_band 4 P'
           ∧ ∀ i j, getValue P' i j ≠ 0%R → j = i).
Proof.
  apply (assembled_matrices_stay_in_band
           (new_problem 4 2 1 (0%R, 1%R)) (new_problem 4 2 1 (0%R, 1%R)) 4 7
           (dx (new_problem 4 2 1 (0%R, 1%R))) [1%R; 2%R; 3%R; 4%R] ∅
           {[ (1, 0) := 5%R ]}); reflexivity.
Defined.

(** X7: for a factor that is not negative the system matrix is strictly
    diagonally dominant, with margin 1 in every row: on the grid of [N]
    points, in every row [i] of [get_sys_mat(factor)] the entries outside the
    columns [i - 1], [i], [i + 1] are zero and the diagonal entry is at least
    1 plus the absolute values of its two neighbours. *)
Theorem get_sys_mat_diagonally_dominant
    (self : problem) (N : Z) (factor : R) (i : Z) :
  init self = DMDA_create N → (0 <= factor)%R → 0 ≤ i < N →
  let S := getValue (get_sys_mat self factor) in
  (∀ j, j ≠ i - 1 → j ≠ i → j ≠ i + 1 → S i j = 0%R)
  ∧ (1 + Rabs (S i (i - 1)%Z) + Rabs (S i (i + 1)%Z) <= S i i)%R.
Proof.
  intros Hinit Hf Hi S.
  assert (∀ j, S i j
               = if boundary N i then eye i j
                 else if decide (j = i - 1) then (- factor / dx self ^ 2)%R
                 else if decide (j = i) then (1 + factor * 2 / dx self ^ 2)%R
                 else if decide (j = i + 1) then (- factor / dx self ^ 2)%R
                 else 0%R) as HS.
  { intros j. unfold S, getValue. rewrite get_sys_mat_lookup, Hinit.
    cbn [da_xs da_xe da_mx DMDA_create]. rewrite decide_True by lia.
    unfold tridiagonal, eye. destruct (boundary N i); repeat case_decide;
      first [done|congruence]. }
  split.
  - intros j H1 H2 H3. rewrite HS. unfold eye.
    destruct (boundary N i); repeat case_decide; first [done|congruence|lia].
  - rewrite !HS. unfold eye. destruct (boundary N i).
    + rewrite (decide_True (P := i = i)) by done.
      rewrite !decide_False by lia. rewrite Rabs_R0. lra.
    + rewrite (decide_True (P := i - 1 = i - 1)) by done.
      rewrite (decide_False (P := i + 1 = i - 1)) by lia.
      rewrite (decide_False (P := i + 1 = i)) by lia.
      rewrite (decide_True (P := i + 1 = i + 1)) by done.
      rewrite (decide_False (P := i = i - 1)) by lia.
      rewrite (decide_True (P := i = i)) by done.
      assert (0 <= / dx self ^ 2)%R as Hinv.
      { destruct (Req_dec_T (dx self ^ 2) 0) as [->|Hne].
        - rewrite Rinv_0. lra.
        - left. apply Rinv_0_lt_compat.
          pose proof (pow2_ge_0 (dx self)). lra. }
      assert (0 <= factor * / dx self ^ 2)%R as Hq by (by apply Rmult_le_pos).
      unfold Rdiv. rewrite <- Ropp_mult_distr_l, Rabs_Ropp, Rabs_pos_eq by done.
      lra.
Qed.

Lemma get_sys_mat_diagonally_dominant_witness :
  let S := getValue (get_sys_mat (new_problem 3 2 1 (0%R, 1%R)) 5) in
  (1 + Rabs (S 1%Z (1 - 1)%Z) + Rabs (S 1%Z (1 + 1)%Z) <= S 1%Z 1%Z)%R.
Proof.
  intros S.
  apply (get_sys_mat_diagonally_dominant (new_problem 3 2 1 (0%R, 1%R)) 3 5 1);
    [reflexivity|lra|lia].
Defined.

(** ** The Jacobians are the derivatives of the residuals *)

Lemma derivable_pt_lim_affine (a b x : R) :
  derivable_pt_lim (fun t => a + b * t)%R x b.
Proof.
  apply (derivable_pt_lim_ext (fct_cte a + mult_real_fct b id)%F).
  - intros z. reflexivity.
  - replace b with (0 + b * 1)%R at 2 by ring.
    apply derivable_pt_lim_plus.
    + apply derivable_pt_lim_const.
    + apply derivable_pt_lim_scal. apply derivable_pt_lim_id.
Qed.

Lemma x_pow_pred (x : R) (n : nat) :
  (INR n * (x * x ^ pred n) = INR n * x ^ n)%R.
Proof. destruct n as [|n]; simpl; ring. Qed.

Lemma derivable_pt_lim_reaction_residual (a b c x : R) (n : nat) :
  derivable_pt_lim (fun t => t - (a + b * t + c * t * (1 - t ^ n)))%R x
                   (1 - (b + c * (1 - INR (n + 1) * x ^ n)))%R.
Proof.
  apply (derivable_pt_lim_ext
           (id - ((fun t => (a + b * t)%R)
                  + (mult_real_fct c id * (fct_cte 1 - (fun t => (t ^ n)%R))))%F)%F).
  - intros z. unfold minus_fct, plus_fct, mult_fct, mult_real_fct, fct_cte, id. ring.
  - replace (1 - (b + c * (1 - INR (n + 1) * x ^ n)))%R
      with (1 - (b + ((c * 1) * (fct_cte 1 - (fun t => (t ^ n)%R))%F x
                      + mult_real_fct c id x * (0 - INR n * x ^ pred n))))%R.
    + apply derivable_pt_lim_minus; [apply derivable_pt_lim_id|].
      apply derivable_pt_lim_plus; [apply derivable_pt_lim_affine|].
      apply derivable_pt_lim_mult.
      * apply derivable_pt_lim_scal. apply derivable_pt_lim_id.
      * apply derivable_pt_lim_minus; [apply derivable_pt_lim_const|].
        apply derivable_pt_lim_pow.
    + unfold minus_fct, mult_real_fct, fct_cte, id.
      rewrite plus_INR. simpl INR.
      replace (c * x * (0 - INR n * x ^ pred n))%R
        with (- c * (INR n * (x * x ^ pred n)))%R by ring.
      rewrite x_pow_pred. ring.
Qed.

Lemma powerRZ_nonneg (x : R) (nu : Z) :
  0 ≤ nu → powerRZ x nu = (x ^ Z.to_nat nu)%R.
Proof. intros Hnu. rewrite pow_powerRZ, Z2Nat.id by done. done. Qed.

Lemma IZR_succ_nonneg (nu : Z) :
  0 ≤ nu → IZR (nu + 1) = INR (Z.to_nat nu + 1).
Proof.
  intros Hnu. rewrite INR_IZR_INZ. f_equal. lia.
Qed.

Lemma default_Some (d v : R) : default d (Some v) = v.
Proof. done. Qed.

Lemma default_None (d : R) : default d None = d.
Proof. done. Qed.

Lemma length_perturb (X : Vec) (j : Z) (t : R) :
  length (perturb X j t) = length X.
Proof. apply length_insert. Qed.

Lemma item_perturb (X : Vec) (j k : Z) (t : R) :
  0 ≤ j < Z.of_nat (length X) → 0 ≤ k < Z.of_nat (length X) →
  item (perturb X j t) k = if decide (k = j) then t else item X k.
Proof.
  intros Hj Hk. unfold item at 1, perturb.
  rewrite getitem_insert by done. case_decide; [done|].
  by rewrite getitem_in_range.
Qed.

(** X8: the matrix [Fisher_reaction.formJacobian] writes is the Jacobian
    of the residual [Fisher_reaction.formFunction] writes: on a grid of
    [N >= 2] points and for an exponent [nu >= 0], the entry (i, j) is the
    derivative of the component [i] of the residual with respect to the
    component [j] of the input vector, at every input vector. *)
Theorem Fisher_reaction_jacobian_is_derivative_of_residual
    (prob : problem) (factor : R) (N : Z) (X F : Vec) (J P : Mat) :
  2 ≤ N → Z.of_nat (length X) = N → Z.of_nat (length F) = N → 0 ≤ nu prob →
  let self := Fisher_reaction.new (DMDA_create N) prob factor in
  ∃ P', Fisher_reaction.formJacobian self X J P = Some (P', SAME_NONZERO_PATTERN)
    ∧ ∀ i j, 0 ≤ i < N → 0 ≤ j < N →
        derivable_pt_lim
          (λ t, component (Fisher_reaction.formFunction self (perturb X j t) F) i)
          (item X j) (getValue P' i j).
Proof.
  intros HN HX HF Hnu self. subst self.
  destruct (Fisher_reaction_formJacobian_run prob factor N X J P HX)
    as (P' & Hrun & Hrows).
  exists P'. split; [exact Hrun|]. intros i j Hi Hj.
  unfold getValue. rewrite Hrows by done.
  apply (derivable_pt_lim_ext
           (λ t, let xi := if decide (i = j) then t else item X i in
                 if boundary N i then xi
                 else (xi - factor * lambda0 prob ^ 2 * xi
                            * (1 - powerRZ xi (nu prob)))%R)).
  { intros t. symmetry. unfold component.
    destruct (Fisher_reaction_formFunction_run prob factor N (perturb X j t) F)
      as (F' & -> & _ & Hget); [by rewrite length_perturb|done|].
    simpl. unfold item at 1. rewrite Hget by done. simpl.
    rewrite item_perturb by lia. done. }
  cbn zeta. destruct (decide (i = j)) as [->|Hne].
  - rewrite decide_True by done. rewrite default_Some. destruct (boundary N j).
    + apply derivable_pt_lim_id.
    + apply (derivable_pt_lim_ext
               (λ t, t - (0 + 0 * t
                          + factor * lambda0 prob ^ 2 * t
                            * (1 - t ^ Z.to_nat (nu prob))))%R).
      { intros t. rewrite powerRZ_nonneg by done. ring. }
      rewrite powerRZ_nonneg, IZR_succ_nonneg by done.
      replace (1 - factor * lambda0 prob ^ 2
                   * (1 - INR (Z.to_nat (nu prob) + 1)
                          * item X j ^ Z.to_nat (nu prob)))%R
        with (1 - (0 + factor * lambda0 prob ^ 2
                       * (1 - INR (Z.to_nat (nu prob) + 1)
                              * item X j ^ Z.to_nat (nu prob))))%R by ring.
      apply (derivable_pt_lim_reaction_residual
               0 0 (factor * lambda0 prob ^ 2) (item X j) (Z.to_nat (nu prob))).
  - rewrite decide_False by done. rewrite default_None.
    apply (derivable_pt_lim_const
             (if boundary N i then item X i
              else (item X i - factor * lambda0 prob ^ 2 * item X i
                               * (1 - powerRZ (item X i) (nu prob)))%R)).
Qed.

Lemma Fisher_reaction_jacobian_is_derivative_of_residual_witness :
  let self := Fisher_reaction.new (DMDA_create 3) (new_problem 3 2 1 (0%R, 1%R)) 5 in
  ∃ P', Fisher_reaction.formJacobian self [0%R; 1%R; 0%R] ∅ ∅
        = Some (P', SAME_NONZERO_PATTERN)
    ∧ derivable_pt_lim
        (λ t, component
                (Fisher_reaction.formFunction self (perturb [0%R; 1%R; 0%R] 1 t)
                   [7%R; 7%R; 7%R]) 1)
        (item [0%R; 1%R; 0%R] 1) (getValue P' 1 1).
Proof.
  intros self.
  destruct (Fisher_reaction_jacobian_is_derivative_of_residual
              (new_problem 3 2 1 (0%R, 1%R)) 5 3 [0%R; 1%R; 0%R] [7%R; 7%R; 7%R] ∅ ∅)
    as (P' & Hrun & Hd); [lia|reflexivity|reflexivity|simpl; lia|].
  exists P'. split; [exact Hrun|]. apply Hd; lia.
Defined.

(** X9: the matrix [Fisher_full.formJacobian] writes is the Jacobian of
    the residual [Fisher_full.formFunction] writes: on a grid of [N >= 2]
    points and for an exponent [nu >= 0], the entry (i, j) is the derivative
    of the component [i] of the residual with respect to the component [j] of
    the input vector, at every input vector. *)
Theorem Fisher_full_jacobian_is_derivative_of_residual
    (prob : problem) (factor dx : R) (N : Z) (X F : Vec) (J P : Mat) :
  2 ≤ N → Z.of_nat (length X) = N → Z.of_nat (length F) = N → 0 ≤ nu prob →
  let self := Fisher_full.new (DMDA_create N) prob factor dx in
  ∃ P', Fisher_full.formJacobian self X J P = Some (P', SAME_NONZERO_PATTERN)
    ∧ ∀ i j, 0 ≤ i < N → 0 ≤ j < N →
        derivable_pt_lim
          (λ t, component (Fisher_full.formFunction self (perturb X j t) F) i)
          (item X j) (getValue P' i j).
Proof.
  intros HN HX HF Hnu self. subst self.
  destruct (Fisher_full_formJacobian_run prob factor dx N X J P HX)
    as (P' & Hrun & Hrows).
  exists P'. split; [exact Hrun|]. intros i j Hi Hj.
  assert (∀ t, component
                 (Fisher_full.formFunction
                    (Fisher_full.new (DMDA_create N) prob factor dx)
                    (perturb X j t) F) i
               = if boundary N i then item (perturb X j t) i
                 else (item (perturb X j t) i
                       - factor * (u_xx dx (perturb X j t) i
                                   + reaction prob (item (perturb X j t) i)))%R)
    as Hres.
  { intros t. unfold component.
    destruct (Fisher_full_formFunction_run prob factor dx N (perturb X j t) F)
      as (F' & -> & _ & Hget); [by rewrite length_perturb|done|].
    cbn [default from_option]. unfold Datatypes.id, item at 1.
    rewrite Hget by done. done. }
  unfold getValue. rewrite Hrows by done.
  destruct (boundary N i) eqn:Hb.
  - apply (derivable_pt_lim_ext (λ t, if decide (i = j) then t else item X i)).
    { intros t. rewrite Hres, item_perturb by lia. done. }
    destruct (decide (i = j)) as [->|Hne].
    + rewrite decide_True by done. rewrite default_Some. apply derivable_pt_lim_id.
    + rewrite decide_False by done. rewrite default_None.
      apply (derivable_pt_lim_const (item X i)).
  - apply boundary_interior in Hb; [|done].
    set (lam := (lambda0 prob ^ 2)%R). set (n := Z.to_nat (nu prob)).
    set (q := (/ dx ^ 2)%R).
    assert (∀ t, component
                   (Fisher_full.formFunction
                      (Fisher_full.new (DMDA_create N) prob factor dx)
                      (perturb X j t) F) i
                 = let v := λ k, if decide (k = j) then t else item X k in
                   (v i - factor * ((v (i + 1)%Z - 2 * v i + v (i - 1)%Z) * q
                                    + lam * v i * (1 - v i ^ n)))%R) as Hres'.
    { intros t. rewrite Hres. unfold u_xx, reaction.
      rewrite !item_perturb by lia. rewrite powerRZ_nonneg by done. done. }
    unfold tridiagonal.
    destruct (decide (j = i - 1)) as [->|H1].
    { rewrite default_Some.
      apply (derivable_pt_lim_ext
               (λ t, (item X i
                      - factor * ((item X (i + 1)%Z - 2 * item X i) * q
                                  + lam * item X i * (1 - item X i ^ n)))
                     + (- factor / dx ^ 2) * t)%R).
      - intros t. rewrite Hres'. cbv beta zeta.
        rewrite (decide_False (P := i = i - 1)) by lia.
        rewrite (decide_False (P := i + 1 = i - 1)) by lia.
        rewrite (decide_True (P := i - 1 = i - 1)) by done.
        unfold q, Rdiv. ring.
      - apply derivable_pt_lim_affine. }
    destruct (decide (j = i)) as [->|H2].
    { rewrite default_Some.
      apply (derivable_pt_lim_ext
               (λ t, t - (factor * (item X (i + 1)%Z + item X (i - 1)%Z) * q
                          + (factor * (-2 * q)) * t
                          + (factor * lam) * t * (1 - t ^ n)))%R).
      - intros t. rewrite Hres'. cbv beta zeta.
        rewrite (decide_True (P := i = i)) by done.
        rewrite (decide_False (P := i + 1 = i)) by lia.
        rewrite (decide_False (P := i - 1 = i)) by lia.
        ring.
      - rewrite powerRZ_nonneg, IZR_succ_nonneg by done. fold n lam.
        replace (1 - factor * (-2 / dx ^ 2 + lam * (1 - INR (n + 1) * item X i ^ n)))%R
          with (1 - (factor * (-2 * q)
                     + factor * lam * (1 - INR (n + 1) * item X i ^ n)))%R
          by (unfold q, Rdiv; ring).
        apply derivable_pt_lim_reaction_residual. }
    destruct (decide (j = i + 1)) as [->|H3].
    { rewrite default_Some.
      apply (derivable_pt_lim_ext
               (λ t, (item X i
                      - factor * ((- 2 * item X i + item X (i - 1)%Z) * q
                                  + lam * item X i * (1 - item X i ^ n)))
                     + (- factor / dx ^ 2) * t)%R).
      - intros t. rewrite Hres'. cbv beta zeta.
        rewrite (decide_False (P := i = i + 1)) by lia.
        rewrite (decide_True (P := i + 1 = i + 1)) by done.
        rewrite (decide_False (P := i - 1 = i + 1)) by lia.
        unfold q, Rdiv. ring.
      - apply derivable_pt_lim_affine. }
    rewrite default_None.
    apply (derivable_pt_lim_ext
             (fct_cte (item X i
                       - factor * ((item X (i + 1)%Z - 2 * item X i + item X (i - 1)%Z) * q
                                   + lam * item X i * (1 - item X i ^ n)))%R)).
    + intros t. rewrite Hres'. cbv beta zeta. rewrite !decide_False by lia. done.
    + apply derivable_pt_lim_const.
Qed.

Lemma Fisher_full_jacobian_is_derivative_of_residual_witness :
  let self :=
    Fisher_full.new (DMDA_create 3) (new_problem 3 2 1 (0%R, 1%R)) 5 (1 / 2) in
  ∃ P', Fisher_full.formJacobian self [0%R; 1%R; 0%R] ∅ ∅
        = Some (P', SAME_NONZERO_PATTERN)
    ∧ derivable_pt_lim
        (λ t, component
                (Fisher_full.formFunction self (perturb [0%R; 1%R; 0%R] 0 t)
                   [7%R; 7%R; 7%R]) 1)
        (item [0%R; 1%R; 0%R] 0) (getValue P' 1 0).
Proof.
  intros self.
  destruct (Fisher_full_jacobian_is_derivative_of_residual
              (new_problem 3 2 1 (0%R, 1%R)) 5 (1 / 2) 3
              [0%R; 1%R; 0%R] [7%R; 7%R; 7%R] ∅ ∅)
    as (P' & Hrun & Hd); [lia|reflexivity|reflexivity|simpl; lia|].
  exists P'. split; [exact Hrun|]. apply Hd; lia.
Defined.

(** ** Operators, steady states and counters *)

Lemma item_replicate (n : nat) (c : R) (k : Z) :
  0 ≤ k < Z.of_nat n → item (replicate n c) k = c.
Proof.
  intros Hk. rewrite item_nonneg by lia.
  rewrite lookup_replicate_2 by lia. done.
Qed.

(** X10: the linear stage solves [(I - factor * L) u = rhs] with [L] the
    diffusion part of the right-hand side: on a grid of [N >= 2] points and
    for every vector [u], the matrix of [get_sys_mat(factor)] times [u] is,
    at every point, [u_i - factor * eval_f(u).comp1_i]. *)
Theorem get_sys_mat_is_I_minus_factor_eval_f
    (self : problem) (N : Z) (factor : R) (u : Vec) (t : R) :
  init self = DMDA_create N → 2 ≤ N → Z.of_nat (length u) = N →
  ∃ comp1 comp2, eval_f self u t = Some (comp1, comp2)
    ∧ ∀ i, 0 ≤ i < N →
        getitem (mult (get_sys_mat self factor) u) i
        = Some (item u i - factor * item comp1 i)%R.
Proof.
  intros Hinit HN Hu.
  destruct (eval_f_entries self N u t Hinit HN Hu)
    as (comp1 & comp2 & Hrun & _ & _ & Hget).
  exists comp1, comp2. split; [exact Hrun|].
  intros i Hi. rewrite getitem_mult by lia. f_equal.
  destruct (Hget i Hi) as [Hc1 _]. unfold item at 2. rewrite Hc1, default_Some.
  assert (∀ j, get_sys_mat self factor !! (i, j)
               = if boundary N i then (if decide (j = i) then Some 1%R else None)
                 else tridiagonal i (- factor / dx self ^ 2)
                        (1 + factor * 2 / dx self ^ 2) (- factor / dx self ^ 2) j)
    as HS.
  { intros j. rewrite get_sys_mat_lookup, Hinit.
    cbn [da_xs da_xe da_mx DMDA_create]. by rewrite decide_True by lia. }
  destruct (boundary N i) eqn:Hb.
  - rewrite (row_sum_identity _ i u ltac:(lia) HS). lra.
  - apply boundary_interior in Hb; [|done].
    rewrite (row_sum_tridiagonal _ i _ _ _ u ltac:(lia) HS).
    unfold u_xx, Rdiv. ring.
Qed.

Lemma get_sys_mat_is_I_minus_factor_eval_f_witness :
  let self := new_problem 3 2 1 (0%R, 1%R) in
  ∃ comp1 comp2, eval_f self [0%R; 1%R; 0%R] 0 = Some (comp1, comp2)
    ∧ getitem (mult (get_sys_mat self 5) [0%R; 1%R; 0%R]) 1
      = Some (item [0%R; 1%R; 0%R] 1 - 5 * item comp1 1)%R.
Proof.
  intros self.
  destruct (get_sys_mat_is_I_minus_factor_eval_f self 3 5 [0%R; 1%R; 0%R] 0)
    as (c1 & c2 & Hrun & Hi); [reflexivity|lia|reflexivity|].
  exists c1, c2. split; [exact Hrun|]. apply Hi. lia.
Defined.

(** X11: diffusion does not act on constants, and the states 0 and 1 are
    steady: on a grid of [N >= 2] points, for the vector with every component
    [c], the first component of [eval_f] is zero at every point, whatever
    [lambda0], [nu] and [dx]; the second one is zero at every point too for
    [c = 1], whatever the exponent, and for [c = 0] with an exponent
    [nu >= 0] (a negative power of zero is not a number the reaction term
    could cancel). *)
Theorem eval_f_of_constant_state
    (self : problem) (N : Z) (c : R) (t : R) :
  init self = DMDA_create N → 2 ≤ N →
  ∃ comp1 comp2,
    eval_f self (replicate (Z.to_nat N) c) t = Some (comp1, comp2)
    ∧ (∀ i, 0 ≤ i < N → item comp1 i = 0%R)
    ∧ (c = 1%R ∨ (c = 0%R ∧ 0 ≤ nu self) →
       ∀ i, 0 ≤ i < N → item comp2 i = 0%R).
Proof.
  intros Hinit HN.
  destruct (eval_f_entries self N (replicate (Z.to_nat N) c) t Hinit HN)
    as (comp1 & comp2 & Hrun & _ & _ & Hget); [rewrite length_replicate; lia|].
  exists comp1, comp2. split; [exact Hrun|]. split.
  - intros i Hi. destruct (Hget i Hi) as [Hc1 _].
    unfold item at 1. rewrite Hc1, default_Some.
    destruct (boundary N i) eqn:Hb; [done|].
    apply boundary_interior in Hb; [|done].
    unfold u_xx. rewrite !item_replicate by lia. unfold Rdiv. ring.
  - intros Hc i Hi. destruct (Hget i Hi) as [_ Hc2].
    unfold item at 1. rewrite Hc2, default_Some.
    destruct (boundary N i); [done|].
    unfold reaction. rewrite item_replicate by lia.
    destruct Hc as [->|[-> _]].
    + rewrite powerRZ_R1. ring.
    + ring.
Qed.

(** The state 1 and, with the exponent 1, the state 0 on a grid of three
    points. *)
Lemma eval_f_of_constant_state_witness :
  (∃ comp1 comp2,
     eval_f (new_problem 3 2 1 (0%R, 1%R)) (replicate (Z.to_nat 3) 1%R) 0
     = Some (comp1, comp2)
     ∧ item comp1 1 = 0%R ∧ item comp2 1 = 0%R)
  ∧ (∃ comp1 comp2,
       eval_f (new_problem 3 2 1 (0%R, 1%R)) (replicate (Z.to_nat 3) 0%R) 0
       = Some (comp1, comp2)
       ∧ item comp1 1 = 0%R ∧ item comp2 1 = 0%R).
Proof.
  split.
  - destruct (eval_f_of_constant_state (new_problem 3 2 1 (0%R, 1%R)) 3 1 0)
      as (c1 & c2 & Hrun & H1 & H2); [reflexivity|lia|].
    exists c1, c2. split; [exact Hrun|].
    split; [apply H1; lia|apply H2; [left; reflexivity|lia]].
  - destruct (eval_f_of_constant_state (new_problem 3 2 1 (0%R, 1%R)) 3 0 0)
      as (c1 & c2 & Hrun & H1 & H2); [reflexivity|lia|].
    exists c1, c2. split; [exact Hrun|].
    split; [apply H1; lia|apply H2; [right; split; [reflexivity|simpl; lia]|lia]].
Defined.

(** X12: the system matrix is symmetric inside but not as a whole: on the
    grid of [N] points the entries (i, j) and (j, i) of [get_sys_mat(factor)]
    are equal for interior [i] and [j]; with [N >= 3], [factor <> 0] and
    [dx <> 0] the entry (1, 0) is [-factor/dx^2] and not zero, while the entry
    (0, 1) of the pinned row is zero, and likewise at the other end. *)
Theorem get_sys_mat_symmetric_inside_only
    (self : problem) (N : Z) (factor : R) :
  init self = DMDA_create N →
  let S := getValue (get_sys_mat self factor) in
  (∀ i j, 0 < i < N - 1 → 0 < j < N - 1 → S i j = S j i)
  ∧ (3 ≤ N → factor ≠ 0%R → dx self ≠ 0%R →
     S 1 0 = (- factor / dx self ^ 2)%R ∧ S 0 1 = 0%R ∧ S 1 0 ≠ S 0 1
     ∧ S (N - 2) (N - 1) ≠ S (N - 1) (N - 2)).
Proof.
  intros Hinit S.
  assert (∀ i j, 0 ≤ i < N →
            S i j
            = if boundary N i then eye i j
              else if decide (j = i - 1) then (- factor / dx self ^ 2)%R
              else if decide (j = i) then (1 + factor * 2 / dx self ^ 2)%R
              else if decide (j = i + 1) then (- factor / dx self ^ 2)%R
              else 0%R) as HS.
  { intros i j Hi. unfold S, getValue. rewrite get_sys_mat_lookup, Hinit.
    cbn [da_xs da_xe da_mx DMDA_create]. rewrite decide_True by lia.
    unfold tridiagonal, eye. destruct (boundary N i); repeat case_decide;
      first [done|congruence]. }
  split.
  - intros i j Hi Hj. rewrite !HS by lia. rewrite !boundary_false by done.
    repeat case_decide; first [done|lia].
  - intros HN Hf Hdx.
    assert (- factor / dx self ^ 2 ≠ 0)%R as Hne.
    { unfold Rdiv. apply Rmult_integral_contrapositive_currified.
      - lra.
      - apply Rinv_neq_0_compat. by apply pow_nonzero. }
    rewrite !HS by lia.
    rewrite (boundary_false N 1), (boundary_true N 0),
      (boundary_false N (N - 2)), (boundary_true N (N - 1)) by lia.
    unfold eye.
    rewrite (decide_True (P := 0 = 1 - 1)) by done.
    rewrite (decide_False (P := 0 = 1)) by done.
    rewrite (decide_False (P := N - 1 = N - 2 - 1)) by lia.
    rewrite (decide_False (P := N - 1 = N - 2)) by lia.
    rewrite (decide_True (P := N - 1 = N - 2 + 1)) by lia.
    rewrite (decide_False (P := N - 1 = N - 2)) by lia.
    done.
Qed.

Lemma get_sys_mat_symmetric_inside_only_witness :
  let S := getValue (get_sys_mat (new_problem 3 2 1 (0%R, 1%R)) 5) in
  S 1 0 ≠ S 0 1.
Proof.
  intros S.
  destruct (get_sys_mat_symmetric_inside_only (new_problem 3 2 1 (0%R, 1%R)) 3 5)
    as [_ Hns]; [reflexivity|].
  destruct Hns as (_ & _ & Hne & _); [lia|lra| |exact Hne].
  simpl. change (3 - 1) with 2. lra.
Defined.

Section StageCallCounters.
Variable ksp_solve : Mat → Vec → Vec → Vec * Z.
Variable snes_solve :
  (Vec → Vec → option Vec) → (Vec → Mat → Mat → option (Mat * Structure)) →
  Vec → Vec → Vec * Z.

Lemma after_stage_call_fields (self : problem) (c : stage_call) :
  let self' := after_stage_call ksp_solve snes_solve self c in
  ksp_ncalls self' = ksp_ncalls self + (if is_linear_stage c then 1 else 0)
  ∧ snes_ncalls self' = snes_ncalls self + (if is_linear_stage c then 0 else 1)
  ∧ nvars self' = nvars self ∧ lambda0 self' = lambda0 self ∧ nu self' = nu self
  ∧ interval self' = interval self ∧ dx self' = dx self ∧ init self' = init self.
Proof.
  destruct c as [rhs factor u0 t|rhs factor u0 t]; simpl.
  - unfold solve_system_1. destruct (ksp_solve _ _ _). simpl.
    split_and!; (done || lia).
  - unfold solve_system_2. destruct (snes_solve _ _ _ _). simpl.
    split_and!; (done || lia).
Qed.

Lemma after_stage_calls_fields (calls : list stage_call) (self : problem) :
  let self' := after_stage_calls ksp_solve snes_solve self calls in
  ksp_ncalls self' = ksp_ncalls self + linear_stages calls
  ∧ snes_ncalls self' = snes_ncalls self + nonlinear_stages calls
  ∧ nvars self' = nvars self ∧ lambda0 self' = lambda0 self ∧ nu self' = nu self
  ∧ interval self' = interval self ∧ dx self' = dx self ∧ init self' = init self.
Proof.
  revert self. induction calls as [|c calls IH]; intros self.
  - simpl. split_and!; (done || lia).
  - cbn [after_stage_calls foldl linear_stages nonlinear_stages].
    destruct (IH (after_stage_call ksp_solve snes_solve self c))
      as (H1 & H2 & H3 & H4 & H5 & H6 & H7 & H8).
    destruct (after_stage_call_fields self c)
      as (G1 & G2 & G3 & G4 & G5 & G6 & G7 & G8).
    unfold after_stage_calls in *. cbv zeta in *.
    split_and!; try congruence; lia.
Qed.

(** X13: the call counters count the stage solves, and a stage solve
    changes nothing else of the instance: after any sequence of calls of
    [solve_system_1] and [solve_system_2] on an instance fresh from
    [__init__], [ksp_ncalls] is the number of linear solves made and
    [snes_ncalls] the number of nonlinear ones, whatever the backends report,
    and the matrices [__get_A] and [get_sys_mat] build from the instance are
    the ones they built before the calls. *)
Theorem counters_count_the_stage_calls
    (n : Z) (lam : R) (exponent : Z) (ab : R * R) (calls : list stage_call)
    (factor : R) :
  let fresh := new_problem n lam exponent ab in
  let self := after_stage_calls ksp_solve snes_solve fresh calls in
  ksp_ncalls self = linear_stages calls
  ∧ snes_ncalls self = nonlinear_stages calls
  ∧ ksp_ncalls self + snes_ncalls self = Z.of_nat (length calls)
  ∧ get_A self = get_A fresh
  ∧ get_sys_mat self factor = get_sys_mat fresh factor.
Proof.
  intros fresh self.
  destruct (after_stage_calls_fields calls fresh)
    as (H1 & H2 & _ & _ & _ & _ & H7 & H8).
  fold self in H1, H2, H7, H8.
  split_and!.
  - rewrite H1. simpl. lia.
  - rewrite H2. simpl. lia.
  - rewrite H1, H2. simpl. clear. induction calls as [|c calls IH]; [done|].
    cbn [linear_stages nonlinear_stages length].
    destruct (is_linear_stage c); lia.
  - unfold get_A. by rewrite H7, H8.
  - unfold get_sys_mat. by rewrite H7, H8.
Qed.
End StageCallCounters.

(** ** The exact solution *)

Lemma Rpower_gt_1 (x y : R) : (1 < x)%R → (0 < y)%R → (1 < Rpower x y)%R.
Proof.
  intros Hx Hy. unfold Rpower. rewrite <- exp_0. apply exp_increasing.
  apply Rmult_lt_0_compat; [done|].
  rewrite <- ln_1. apply ln_increasing; lra.
Qed.

Lemma Rpower_lt_1 (x y : R) : (1 < x)%R → (y < 0)%R → (0 < Rpower x y < 1)%R.
Proof.
  intros Hx Hy. unfold Rpower. split; [apply exp_pos|].
  rewrite <- exp_0. apply exp_increasing.
  assert (0 < ln x)%R as Hln.
  { rewrite <- ln_1. apply ln_increasing; lra. }
  nra.
Qed.

(** X14: for an exponent [nu > 0] the exact solution lies strictly between
    the two steady states: the square root [u_exact] takes is of a number
    that is not negative, and on the grid of [N] points [u_exact] returns a
    vector of length [N] whose every component is greater than 0 and less
    than 1, at every time and for every [lambda0], [dx] and interval. *)
Theorem u_exact_between_0_and_1 (self : problem) (N : Z) (t : R) :
  init self = DMDA_create N → 0 < nu self →
  let lam1 :=
    (lambda0 self / 2
     * (Rpower (IZR (nu self) / 2 + 1) 0.5 + Rpower (IZR (nu self) / 2 + 1) (-0.5)))%R in
  (0 <= lam1 ^ 2 - lambda0 self ^ 2)%R
  ∧ ∃ me, u_exact self t = Some me
      ∧ Z.of_nat (length me) = Z.max 0 N
      ∧ ∀ i, 0 ≤ i < N → (0 < item me i < 1)%R.
Proof.
  intros Hinit Hnu lam1'. split.
  { unfold lam1'. replace (-0.5)%R with (Ropp 0.5) by lra.
    rewrite Rpower_Ropp.
    set (a := Rpower (IZR (nu self) / 2 + 1) 0.5).
    assert (0 < a)%R as Ha by apply exp_pos.
    assert (a * / a = 1)%R as Hinv by (apply Rinv_r; lra).
    replace (((lambda0 self / 2 * (a + / a)) ^ 2 - lambda0 self ^ 2))%R
      with ((lambda0 self / 2 * (a - / a)) ^ 2
            + lambda0 self ^ 2 * (a * / a - 1))%R by (field; lra).
    rewrite Hinv. pose proof (pow2_ge_0 (lambda0 self / 2 * (a - / a))). lra. }
  clear lam1'. unfold u_exact. rewrite Hinit.
  cbn [da_xs da_xe da_mx DMDA_create].
  set (lam1 := (lambda0 self / 2 * _)%R). set (sig1 := (lam1 - _)%R).
  set (val := λ i : Z,
    Some (Rpower
            (1 + (Rpower 2 (IZR (nu self) / 2) - 1)
                 * exp (- IZR (nu self) / 2 * sig1
                        * ((interval self).1 + IZR (i + 1) * dx self + 2 * lam1 * t)))
            (-2 / IZR (nu self)))%R).
  destruct (for_each_setitem val (u_exact_at self lam1 sig1 t) (range 0 N)
              (replicate (Z.to_nat N) 0%R)) as (me & Hrun & Hlen & Hget).
  { intros f i. done. }
  { apply NoDup_range. }
  { intros i Hi%elem_of_range. rewrite length_replicate. split; [lia|done]. }
  rewrite length_replicate in Hlen, Hget.
  exists me. split; [exact Hrun|]. split; [lia|].
  intros i Hi. unfold item. rewrite Hget by lia.
  rewrite decide_True by (apply elem_of_range; lia).
  unfold val. rewrite default_Some.
  assert (0 < IZR (nu self))%R as Hnu' by (by apply IZR_lt).
  apply Rpower_lt_1.
  - assert (1 < Rpower 2 (IZR (nu self) / 2))%R as H2
      by (apply Rpower_gt_1; lra).
    match goal with |- (1 < 1 + _ * exp ?e)%R => pose proof (exp_pos e) end.
    nra.
  - apply Rdiv_neg_pos; lra.
Qed.

Lemma u_exact_between_0_and_1_witness :
  ∃ me, u_exact (new_problem 3 2 1 (0%R, 1%R)) 0 = Some me
    ∧ (0 < item me 1 < 1)%R.
Proof.
  destruct (u_exact_between_0_and_1 (new_problem 3 2 1 (0%R, 1%R)) 3 0)
    as (_ & me & Hrun & _ & Hb); [reflexivity|simpl; lia|].
  exists me. split; [exact Hrun|]. apply Hb. lia.
Defined.
(** ** The reference stencils of [fd_stencil_single] *)

Section ReferenceStencils.

Import TestHelpers.
Local Open Scope Q_scope.

Lemma moments_ok_spec (derivative order : Z) (coeffs : list Q) (steps : list Z) :
  moments_ok derivative order coeffs steps = true →
  ∀ m : Z, (0 ≤ m < derivative + order)%Z →
    moment coeffs steps m ==
      if (m =? derivative)%Z
      then inject_Z (Z.of_nat (fact (Z.to_nat derivative))) else 0.
Proof.
  unfold moments_ok. intros H m Hm.
  rewrite forallb_forall in H.
  apply Qeq_bool_iff, H, list_elem_of_In, elem_of_range. lia.
Qed.

Lemma reference_table_cases (derivative order : Z) (stencil_type : string)
    (r : list Q * Z * Q) :
  reference_table derivative order stencil_type = inr r →
  (derivative, order, stencil_type) ∈ test_fd_stencils_cases.
Proof.
  unfold reference_table. intros H.
  destruct (Z.eqb_spec derivative 1) as [-> | _];
    [| destruct (Z.eqb_spec derivative 2) as [-> | _]; [| discriminate ] ];
    (destruct (String.eqb_spec stencil_type "center") as [-> | _];
     [| try (destruct (String.eqb_spec stencil_type "upwind") as [-> | _]);
        try discriminate ]);
    repeat match type of H with
      | context [ (order =? ?k)%Z ] =>
          destruct (Z.eqb_spec order k) as [-> | _]
      end;
    try discriminate;
    unfold test_fd_stencils_cases; cbn [map app];
    rewrite !elem_of_cons; tauto.
Qed.

(** X20: whenever [fd_stencil_single] gets as far as its reference values,
    these form a finite-difference stencil of the derivative and order asked
    for: there are as many coefficients as offsets, the offsets increase
    strictly (so sorting them changes nothing), and the moments
    [sum_k c_k * s_k^m] for [0 <= m < derivative + order] are the factorial
    of [derivative] at [m = derivative] and zero elsewhere. *)
Theorem fd_reference_is_a_stencil_of_that_order
    (derivative order : Z) (stencil_type : string)
    (coeff_reference : list Q) (steps_reference : list Z) :
  fd_reference derivative order stencil_type
    = inr (coeff_reference, steps_reference) →
  length coeff_reference = length steps_reference
  ∧ StronglySorted Z.lt steps_reference
  ∧ ∀ m : Z, (0 ≤ m < derivative + order)%Z →
      moment coeff_reference steps_reference m ==
        if (m =? derivative)%Z
        then inject_Z (Z.of_nat (fact (Z.to_nat derivative))) else 0.
Proof.
  unfold fd_reference. intros H.
  destruct (reference_table derivative order stencil_type)
    as [e | [[stencil zero_pos] coeff]] eqn:Ht; [ discriminate |].
  pose proof (reference_table_cases _ _ _ _ Ht) as Hc.
  unfold test_fd_stencils_cases in Hc; cbn [map app] in Hc.
  rewrite !elem_of_cons, elem_of_nil in Hc.
  assert (moments_ok derivative order coeff_reference steps_reference = true
          ∧ length coeff_reference = length steps_reference
          ∧ StronglySorted Z.lt steps_reference) as (Hm & Hl & Hs).
  { repeat (destruct Hc as [Hc | Hc]; [ injection Hc as -> -> -> |]);
      try contradiction;
      vm_compute in Ht; injection Ht as <- <- <-;
      injection H as <- <-;
      (split; [ vm_compute; reflexivity |]);
      (split; [ reflexivity |]);
      repeat (constructor; [| repeat (constructor; [ reflexivity |]); constructor ]);
      constructor. }
  split; [ exact Hl |]. split; [ exact Hs |].
  apply moments_ok_spec, Hm.
Qed.

Lemma fd_reference_is_a_stencil_of_that_order_witness :
  fd_reference 1 4 "center"
    = inr ([1 # 12; - 8 # 12; 0 # 12; 8 # 12; - 1 # 12], [-2; -1; 0; 1; 2]%Z)
  ∧ moment [1 # 12; - 8 # 12; 0 # 12; 8 # 12; - 1 # 12] [-2; -1; 0; 1; 2]%Z 1 == 1.
Proof.
  assert (fd_reference 1 4 "center"
    = inr ([1 # 12; - 8 # 12; 0 # 12; 8 # 12; - 1 # 12], [-2; -1; 0; 1; 2]%Z))
    as H by (vm_compute; reflexivity).
  split; [ exact H |].
  destruct (fd_reference_is_a_stencil_of_that_order _ _ _ _ _ H) as (_ & _ & Hm).
  apply (Hm 1%Z). lia.
Defined.

(** X21: [fd_stencil_single] has reference values exactly for the twelve
    combinations [test_fd_stencils] runs it on.  For every other combination
    it raises before the stencil generator is called: [NotImplementedError]
    naming the derivative when that is neither 1 nor 2, naming the stencil
    type when that has no table for the derivative, naming the order for an
    order missing from a table of the first derivative -- and, for the
    centered second derivative with an order other than 2, 4, 6 and 8, no
    [NotImplementedError] at all but the error of reading the unassigned
    [stencil]. *)
Theorem fd_reference_defined_exactly_on_the_tested_cases
    (derivative order : Z) (stencil_type : string) :
  ((∃ r, fd_reference derivative order stencil_type = inr r)
     ↔ (derivative, order, stencil_type) ∈ test_fd_stencils_cases)
  ∧ (derivative ≠ 1%Z → derivative ≠ 2%Z →
       fd_reference derivative order stencil_type
         = inl (NotImplementedError_derivative derivative))
  ∧ (derivative = 1%Z → stencil_type ≠ "center"%string →
       stencil_type ≠ "upwind"%string →
       fd_reference derivative order stencil_type
         = inl (NotImplementedError_stencil_type stencil_type 1))
  ∧ (derivative = 2%Z → stencil_type ≠ "center"%string →
       fd_reference derivative order stencil_type
         = inl (NotImplementedError_stencil_type stencil_type 2))
  ∧ (derivative = 1%Z →
       (derivative, order, stencil_type) ∉ test_fd_stencils_cases →
       stencil_type = "center"%string ∨ stencil_type = "upwind"%string →
       fd_reference derivative order stencil_type
         = inl (NotImplementedError_order order))
  ∧ (derivative = 2%Z → stencil_type = "center"%string →
       order ≠ 2%Z → order ≠ 4%Z → order ≠ 6%Z → order ≠ 8%Z →
       fd_reference derivative order stencil_type
         = inl UnboundLocalError_stencil).
Proof.
  split_and!.
  - split.
    + intros [r Hr]. unfold fd_reference in Hr.
      destruct (reference_table derivative order stencil_type) as [e | t] eqn:Ht;
        [ discriminate |].
      eapply reference_table_cases, Ht.
    + unfold test_fd_stencils_cases; cbn [map app].
      rewrite !elem_of_cons, elem_of_nil. intros Hc.
      repeat (destruct Hc as [Hc | Hc]; [ injection Hc as -> -> -> |]);
        try contradiction; eexists; vm_compute; reflexivity.
  - intros H1 H2. unfold fd_reference, reference_table.
    destruct (Z.eqb_spec derivative 1); [ contradiction |].
    destruct (Z.eqb_spec derivative 2); [ contradiction |]. reflexivity.
  - intros -> Hc Hu. unfold fd_reference, reference_table.
    cbn [Z.eqb Pos.eqb].
    destruct (String.eqb_spec stencil_type "center"); [ contradiction |].
    destruct (String.eqb_spec stencil_type "upwind"); [ contradiction |].
    reflexivity.
  - intros -> Hc. unfold fd_reference, reference_table.
    cbn [Z.eqb Pos.eqb].
    destruct (String.eqb_spec stencil_type "center"); [ contradiction |].
    reflexivity.
  - intros -> Hn Hs. unfold test_fd_stencils_cases in Hn; cbn [map app] in Hn.
    rewrite !not_elem_of_cons in Hn.
    unfold fd_reference, reference_table. cbn [Z.eqb Pos.eqb].
    destruct Hs as [-> | ->]; cbn [String.eqb Ascii.eqb Bool.eqb];
      repeat match goal with
        | |- context [ (order =? ?k)%Z ] =>
            destruct (Z.eqb_spec order k) as [-> | _]
        end;
      try reflexivity; exfalso; tauto.
  - intros -> -> H2 H4 H6 H8. unfold fd_reference, reference_table.
    cbn [Z.eqb Pos.eqb String.eqb Ascii.eqb Bool.eqb].
    destruct (Z.eqb_spec order 2); [ contradiction |].
    destruct (Z.eqb_spec order 4); [ contradiction |].
    destruct (Z.eqb_spec order 6); [ contradiction |].
    destruct (Z.eqb_spec order 8); [ contradiction |]. reflexivity.
Qed.

Lemma fd_reference_defined_exactly_on_the_tested_cases_witness :
  fd_reference 2 3 "center" = inl UnboundLocalError_stencil
  ∧ fd_reference 1 7 "upwind" = inl (NotImplementedError_order 7)
  ∧ fd_reference 3 2 "center" = inl (NotImplementedError_derivative 3)
  ∧ fd_reference 1 2 "forward" = inl (NotImplementedError_stencil_type "forward" 1)
  ∧ fd_reference 2 2 "upwind" = inl (NotImplementedError_stencil_type "upwind" 2).
Proof.
  split_and!.
  - apply (fd_reference_defined_exactly_on_the_tested_cases 2 3 "center");
      (reflexivity || lia).
  - apply (fd_reference_defined_exactly_on_the_tested_cases 1 7 "upwind");
      [ reflexivity | | right; reflexivity ].
    unfold test_fd_stencils_cases; cbn [map app].
    rewrite !not_elem_of_cons. split_and!; try discriminate.
    apply not_elem_of_nil.
  - apply (fd_reference_defined_exactly_on_the_tested_cases 3 2 "center"); lia.
  - apply (fd_reference_defined_exactly_on_the_tested_cases 1 2 "forward");
      (reflexivity || discriminate).
  - apply (fd_reference_defined_exactly_on_the_tested_cases 2 2 "upwind");
      (reflexivity || discriminate).
Defined.

End ReferenceStencils.

(** ** Arithmetic of the extended reals *)

Import Newton.
Local Open Scope float64_scope.

Lemma sign_0 : sign 0 = None.
Proof. unfold sign. destruct (Req_dec_T 0 0); [done|lra]. Qed.

Lemma sign_1 : sign 1 = Some false.
Proof.
  unfold sign. destruct (Req_dec_T 1 0); [lra|].
  destruct (Rlt_dec 1 0); [lra|done].
Qed.

Lemma sign_None (r : R) : sign r = None ↔ r = 0%R.
Proof. unfold sign. destruct (Req_dec_T r 0), (Rlt_dec r 0); split; done. Qed.

Lemma sign_opp (r : R) : sign (- r) = negb <$> sign r.
Proof.
  unfold sign.
  destruct (Req_dec_T (- r) 0), (Req_dec_T r 0); simpl; try done; try lra.
  destruct (Rlt_dec (- r) 0), (Rlt_dec r 0); simpl; try done; lra.
Qed.

Lemma sign_inv (d : R) : d ≠ 0%R → sign (1 / d) = sign d.
Proof.
  intros Hd. unfold sign.
  destruct (Req_dec_T d 0) as [|_]; [done|].
  assert (1 / d ≠ 0)%R as Hinv.
  { unfold Rdiv. rewrite Rmult_1_l. by apply Rinv_neq_0_compat. }
  destruct (Req_dec_T (1 / d) 0) as [|_]; [done|].
  destruct (Rlt_dec d 0) as [Hneg|Hpos].
  - assert (1 / d < 0)%R.
    { unfold Rdiv. rewrite Rmult_1_l. by apply Rinv_lt_0_compat. }
    destruct (Rlt_dec (1 / d) 0); done.
  - assert (0 < 1 / d)%R.
    { unfold Rdiv. rewrite Rmult_1_l. apply Rinv_0_lt_compat. lra. }
    destruct (Rlt_dec (1 / d) 0); [lra|done].
Qed.

Lemma neg_div_neg (a d : float64) : - (- a / d) = a / d.
Proof.
  destruct a as [|s|a], d as [|s'|b]; simpl; try reflexivity.
  - destruct (sign b) as [[]|], s; reflexivity.
  - f_equal. lra.
  - destruct (Req_dec_T b 0) as [_|Hb].
    + rewrite sign_opp. destruct (sign a) as [[]|]; reflexivity.
    + simpl. f_equal. unfold Rdiv. ring.
Qed.

(** [1 - (-dt) / d] is [1 + dt / d]. *)
Lemma sub_div_neg (x a d : float64) : x - (- a) / d = x + a / d.
Proof. unfold sub. by rewrite neg_div_neg. Qed.

(** [1.0 / dg * g] is [g / dg]. *)
Lemma one_over_times (dg g : float64) : Fin 1 / dg * g = g / dg.
Proof.
  destruct dg as [|s|d]; [destruct g; reflexivity| |].
  - destruct g as [|s'|b]; simpl; try reflexivity.
    + by rewrite sign_0.
    + f_equal. lra.
  - simpl. destruct (Req_dec_T d 0) as [->|Hd].
    + rewrite sign_1. destruct g as [|s'|b]; simpl; try reflexivity.
      * by rewrite sign_0.
      * destruct (Req_dec_T 0 0) as [_|]; [|lra].
        destruct (sign b) as [[]|]; reflexivity.
    + destruct g as [|s'|b]; simpl; try reflexivity.
      * rewrite sign_inv by done. destruct (sign d) as [s|] eqn:Hs; [reflexivity|].
        by apply sign_None in Hs.
      * destruct (Req_dec_T d 0) as [|_]; [done|]. f_equal. unfold Rdiv. ring.
Qed.

Lemma ltb_not_nan (x y : float64) : (x <? y) = true → isnan x = false.
Proof. by destruct x. Qed.

(** ** The Newton loop *)

Lemma while_loop_unfold (self : nonlinear_ODE_1) (rhs dt : float64)
    (n : Z) (u : mesh) (res : float64) :
  while_loop self rhs dt n u res
  = if decide (n < newton_maxiter self)%Z then
      let res' := norm_inf (g_of rhs dt u) in
      if (res' <? newton_tol self) || isnan res' then (n, u, res')
      else while_loop self rhs dt (n + 1) (update dt u (g_of rhs dt u)) res'
    else (n, u, res).
Proof.
  rewrite while_loop_equation_1.
  destruct (Z_lt_dec n (newton_maxiter self)) as [Hlt|Hge].
  - rewrite decide_True by done. reflexivity.
  - rewrite decide_False by done. reflexivity.
Qed.

(** C6: every pass of the loop of [solve_system] (one is made whenever
    [n < newton_maxiter]) is a pass of the Newton iterator of the
    specification: the residual is [g(u) = u - dt * sqrt(1 - u) - rhs]; with
    its norm below [newton_tol] the loop is left in the converged state, with
    its norm NaN in the diverged-nan state, in both with [n] and [u]
    unchanged; otherwise the loop goes on with [u - g / dg], where
    [dg = 1 + dt / (2 * sqrt(1 - u))], and [n + 1]. *)
Theorem while_loop_pass_is_spec_iteration
    (self : nonlinear_ODE_1) (rhs dt : float64) (n : Z) (u : mesh) (res : float64) :
  (n < newton_maxiter self)%Z →
  while_loop self rhs dt n u res
  = match spec_iteration (newton_tol self) rhs dt n u with
    | iterating n' u' res' => while_loop self rhs dt n' u' res'
    | converged n' u' res' => (n', u', res')
    | diverged_nan n' u' res' => (n', u', res')
    end
  ∧ match spec_iteration (newton_tol self) rhs dt n u with
    | iterating n' u' res' =>
        n' = (n + 1)%Z ∧ (res' <? newton_tol self) = false ∧ isnan res' = false
    | converged n' u' res' =>
        n' = n ∧ u' = u ∧ (res' <? newton_tol self) = true
    | diverged_nan n' u' res' =>
        n' = n ∧ u' = u ∧ isnan res' = true
    end.
Proof.
  intros Hn. rewrite while_loop_unfold, decide_True by done.
  unfold spec_iteration, g_of, update. cbn zeta.
  rewrite sub_div_neg, one_over_times.
  destruct (_ <? newton_tol self) eqn:Hlt; simpl; [done|].
  destruct (isnan _) eqn:Hnan; done.
Qed.

(** A pass from [n = 0] with [newton_maxiter = 1]. *)
Lemma while_loop_pass_is_spec_iteration_witness :
  let self := {| u0 := Fin 0; newton_maxiter := 1;
                 newton_tol := Fin 1; stop_at_nan := true |} in
  while_loop self (Fin 0) (Fin 0) 0 (Fin 0) (Fin 99)
  = match spec_iteration (Fin 1) (Fin 0) (Fin 0) 0 (Fin 0) with
    | iterating n' u' res' => while_loop self (Fin 0) (Fin 0) n' u' res'
    | converged n' u' res' => (n', u', res')
    | diverged_nan n' u' res' => (n', u', res')
    end.
Proof.
  intros self.
  apply (while_loop_pass_is_spec_iteration self (Fin 0) (Fin 0) 0 (Fin 0) (Fin 99)).
  simpl. lia.
Defined.

(** How the loop is left: by a [break], below the iteration cap and with
    the residual norm of the iterate it returns, or by its test, and then
    either without a pass or after a pass that did not break. *)
Lemma while_loop_exit (self : nonlinear_ODE_1) (rhs dt : float64)
    (n : Z) (u : mesh) (res : float64) :
  ∃ n' u' res',
    while_loop self rhs dt n u res = (n', u', res')
    ∧ (n ≤ n')%Z
    ∧ ((n' < newton_maxiter self)%Z
       ∧ res' = norm_inf (g_of rhs dt u')
       ∧ (res' <? newton_tol self) || isnan res' = true
       ∨ (newton_maxiter self ≤ n)%Z ∧ n' = n ∧ u' = u ∧ res' = res
       ∨ (n < n')%Z ∧ n' = newton_maxiter self
         ∧ (res' <? newton_tol self) = false ∧ isnan res' = false).
Proof.
  remember (Z.to_nat (newton_maxiter self - n)) as k eqn:Hk.
  revert n u res Hk. induction k as [|k IH]; intros n u res Hk.
  - exists n, u, res. rewrite while_loop_unfold, decide_False by lia.
    split_and!; [done..|]. right. left. split_and!; [lia|done..].
  - rewrite while_loop_unfold, decide_True by lia. cbn zeta.
    destruct (_ || _) eqn:Hbreak.
    + eexists _, _, _. split_and!; [done..|]. left. split_and!; [lia|done..].
    + apply orb_false_iff in Hbreak as [Hlt Hnan].
      destruct (IH (n + 1)%Z (update dt u (g_of rhs dt u))
                  (norm_inf (g_of rhs dt u))) as (n' & u' & res' & Hrun & Hle & Hexit);
        [lia|].
      exists n', u', res'. split_and!; [done|lia|].
      destruct Hexit as [Hb|[(Hge & -> & -> & ->)|(Hn & Hmax & Hl & Hi)]].
      * by left.
      * right. right. split_and!; [lia|lia|done..].
      * right. right. split_and!; [lia|done..].
Qed.

(** When the loop is left by its test after a pass, the residual norm it
    holds is the one of the iterate before the last update. *)
Lemma while_loop_last_residual (self : nonlinear_ODE_1) (rhs dt : float64)
    (n : Z) (u : mesh) (res : float64) (n' : Z) (u' : mesh) (res' : float64) :
  while_loop self rhs dt n u res = (n', u', res') →
  (n < n')%Z → n' = newton_maxiter self →
  ∃ u_prev, res' = norm_inf (g_of rhs dt u_prev)
            ∧ u' = update dt u_prev (g_of rhs dt u_prev).
Proof.
  remember (Z.to_nat (newton_maxiter self - n)) as k eqn:Hk.
  revert n u res Hk. induction k as [|k IH]; intros n u res Hk Hrun Hlt Hmax.
  - rewrite while_loop_unfold, decide_False in Hrun by lia.
    injection Hrun as Hn _ _. lia.
  - rewrite while_loop_unfold, decide_True in Hrun by lia. cbn zeta in Hrun.
    destruct (_ || _) eqn:Hbreak.
    + injection Hrun as Hn _ _. lia.
    + destruct (decide (n + 1 < n')%Z) as [Hmore|Hlast].
      * apply (IH (n + 1)%Z (update dt u (g_of rhs dt u))
                 (norm_inf (g_of rhs dt u))); [lia|done..].
      * rewrite while_loop_unfold, decide_False in Hrun by lia.
        injection Hrun as _ <- <-. by exists u.
Qed.

(** Passes of the loop on numbers: the residual and the update for an
    iterate below 1 and a step that is not negative, the [break] on a
    residual below the tolerance, and the [break] on an iterate above 1. *)
Lemma g_of_Fin (rhs dt u : R) :
  (u <= 1)%R →
  g_of (Fin rhs) (Fin dt) (Fin u) = Fin (u - dt * R_sqrt.sqrt (1 - u) - rhs).
Proof.
  intros Hu. unfold g_of. simpl.
  destruct (Rlt_dec (1 + - u) 0) as [|_]; [lra|]. reflexivity.
Qed.

Lemma update_Fin (dt u g : R) :
  (u < 1)%R → (0 <= dt)%R →
  update (Fin dt) (Fin u) (Fin g)
  = Fin (u - g / (1 + dt / (2 * R_sqrt.sqrt (1 - u)))).
Proof.
  intros Hu Hdt.
  assert (0 < R_sqrt.sqrt (1 - u))%R as Hs by (apply sqrt_lt_R0; lra).
  assert (0 <= dt / (2 * R_sqrt.sqrt (1 - u)))%R as Hq.
  { apply Rmult_le_pos; [done|]. left. apply Rinv_0_lt_compat. lra. }
  unfold update. rewrite one_over_times, sub_div_neg. simpl.
  destruct (Rlt_dec (1 + - u) 0) as [|_]; [lra|]. simpl.
  change (1 + - u)%R with (1 - u)%R.
  destruct (Req_dec_T (2 * R_sqrt.sqrt (1 - u)) 0) as [|_]; [lra|]. simpl.
  destruct (Req_dec_T (1 + dt / (2 * R_sqrt.sqrt (1 - u))) 0) as [|_]; [lra|].
  reflexivity.
Qed.

Lemma while_loop_pass_Fin (self : nonlinear_ODE_1) (rhs dt u g u' : R)
    (n : Z) (res : float64) :
  (n < newton_maxiter self)%Z → (u < 1)%R → (0 <= dt)%R →
  g = (u - dt * R_sqrt.sqrt (1 - u) - rhs)%R →
  u' = (u - g / (1 + dt / (2 * R_sqrt.sqrt (1 - u))))%R →
  (Fin (Rabs g) <? newton_tol self) = false →
  while_loop self (Fin rhs) (Fin dt) n (Fin u) res
  = while_loop self (Fin rhs) (Fin dt) (n + 1) (Fin u') (Fin (Rabs g)).
Proof.
  intros Hn Hu Hdt -> -> Htol.
  rewrite while_loop_unfold, decide_True by done. cbn zeta.
  rewrite g_of_Fin by lra. unfold norm_inf, abs. rewrite Htol.
  cbn [isnan orb]. by rewrite update_Fin.
Qed.

Lemma while_loop_break_Fin (self : nonlinear_ODE_1) (rhs dt u g : R)
    (n : Z) (res : float64) :
  (n < newton_maxiter self)%Z → (u <= 1)%R →
  g = (u - dt * R_sqrt.sqrt (1 - u) - rhs)%R →
  (Fin (Rabs g) <? newton_tol self) = true →
  while_loop self (Fin rhs) (Fin dt) n (Fin u) res = (n, Fin u, Fin (Rabs g)).
Proof.
  intros Hn Hu -> Htol.
  rewrite while_loop_unfold, decide_True by done. cbn zeta.
  rewrite g_of_Fin by lra. unfold norm_inf, abs. by rewrite Htol.
Qed.

Lemma g_of_above_1 (rhs dt : float64) (r : R) :
  (1 < r)%R → norm_inf (g_of rhs dt (Fin r)) = NaN.
Proof.
  intros Hr. unfold g_of, norm_inf. simpl.
  destruct (Rlt_dec (1 + - r) 0) as [_|Hn]; [|lra].
  destruct dt, rhs; reflexivity.
Qed.

Lemma while_loop_break_nan (self : nonlinear_ODE_1) (rhs dt : float64) (r : R)
    (n : Z) (res : float64) :
  (n < newton_maxiter self)%Z → (1 < r)%R →
  while_loop self rhs dt n (Fin r) res = (n, Fin r, NaN).
Proof.
  intros Hn Hr. rewrite while_loop_unfold, decide_True by done. cbn zeta.
  rewrite g_of_above_1 by done. by rewrite orb_true_r.
Qed.

(** Square roots and comparisons of the runs below. *)
Lemma sqrt_quarter : R_sqrt.sqrt (1 - 3 / 4) = (1 / 2)%R.
Proof. apply sqrt_lem_1; lra. Qed.

Lemma sqrt_1_0 : R_sqrt.sqrt (1 - 0) = 1%R.
Proof. rewrite Rminus_0_r. apply sqrt_1. Qed.

Lemma ltb_Fin_false (a b : R) : (b <= a)%R → (Fin a <? Fin b) = false.
Proof. intros H. unfold ltb. destruct (Rlt_dec a b); [lra|done]. Qed.

Lemma ltb_Fin_true (a b : R) : (a < b)%R → (Fin a <? Fin b) = true.
Proof. intros H. unfold ltb. destruct (Rlt_dec a b); [done|lra]. Qed.

(** Three runs from the guess 0 with [dt = 1] and [newton_tol = 1/4].
    With [rhs = 1/8] the first residual is [-9/8], the update gives [3/4],
    whose residual is [1/8]: with two passes allowed the loop is left by the
    [break], with one by its test.  With [rhs = 1] the first residual is
    [-2] and the update gives [4/3], where the square root is NaN. *)
Lemma while_loop_run_converges (stop : bool) :
  while_loop {| u0 := Fin 0; newton_maxiter := 2;
                newton_tol := Fin (1 / 4); stop_at_nan := stop |}
             (Fin (1 / 8)) (Fin 1) 0 (Fin 0) (Fin 99)
  = (1%Z, Fin (3 / 4), Fin (1 / 8)).
Proof.
  rewrite (while_loop_pass_Fin _ _ _ _ (- (9 / 8)) (3 / 4));
    [|simpl; lia|lra|lra|rewrite sqrt_1_0; lra|rewrite sqrt_1_0; lra|].
  2:{ rewrite Rabs_Ropp, Rabs_pos_eq by lra. apply ltb_Fin_false. lra. }
  rewrite (while_loop_break_Fin _ _ _ _ (1 / 8));
    [|simpl; lia|lra|rewrite sqrt_quarter; lra|].
  2:{ rewrite Rabs_pos_eq by lra. apply ltb_Fin_true. lra. }
  rewrite Rabs_pos_eq by lra. reflexivity.
Qed.

Lemma while_loop_run_exhausted (stop : bool) :
  while_loop {| u0 := Fin 0; newton_maxiter := 1;
                newton_tol := Fin (1 / 4); stop_at_nan := stop |}
             (Fin (1 / 8)) (Fin 1) 0 (Fin 0) (Fin 99)
  = (1%Z, Fin (3 / 4), Fin (9 / 8)).
Proof.
  rewrite (while_loop_pass_Fin _ _ _ _ (- (9 / 8)) (3 / 4));
    [|simpl; lia|lra|lra|rewrite sqrt_1_0; lra|rewrite sqrt_1_0; lra|].
  2:{ rewrite Rabs_Ropp, Rabs_pos_eq by lra. apply ltb_Fin_false. lra. }
  rewrite while_loop_unfold, decide_False by (simpl; lia).
  rewrite Rabs_Ropp, Rabs_pos_eq by lra. reflexivity.
Qed.

Lemma while_loop_run_nan (stop : bool) :
  while_loop {| u0 := Fin 0; newton_maxiter := 2;
                newton_tol := Fin (1 / 4); stop_at_nan := stop |}
             (Fin 1) (Fin 1) 0 (Fin 0) (Fin 99)
  = (1%Z, Fin (4 / 3), NaN).
Proof.
  rewrite (while_loop_pass_Fin _ _ _ _ (- 2) (4 / 3));
    [|simpl; lia|lra|lra|rewrite sqrt_1_0; lra|rewrite sqrt_1_0; lra|].
  2:{ rewrite Rabs_left by lra. apply ltb_Fin_false. lra. }
  apply while_loop_break_nan; [simpl; lia|lra].
Qed.

(** C7, amended: with [newton_maxiter >= 0], [solve_system] ends in
    exactly one of the three ways: with a NaN residual norm of the last
    iterate, raising with [stop_at_nan] and otherwise warning and returning
    that iterate; with the iteration count at [newton_maxiter], raising with
    the last residual norm computed (the one of the iterate before the last
    update; the initial 99 when [newton_maxiter = 0] allows no pass); or
    with the residual norm of the current iterate below [newton_tol],
    returning that iterate. *)
Theorem solve_system_ends_in_one_of_three_ways
    (self : nonlinear_ODE_1) (rhs dt : float64) (u0 : mesh) (t : float64) :
  (0 ≤ newton_maxiter self)%Z →
  ∃ way, ends self rhs dt u0 t way
         ∧ ∀ way', ends self rhs dt u0 t way' → way' = way.
Proof.
  intros Hmax. unfold ends, solve_system. cbn zeta.
  destruct (while_loop_exit self rhs dt 0 u0 (Fin 99))
    as (n & u & res & Hrun & Hn & Hexit).
  pose proof (while_loop_last_residual self rhs dt 0 u0 (Fin 99) n u res Hrun)
    as Hlast.
  rewrite Hrun.
  destruct Hexit as [(Hlt & Hres & Hbreak)|[(Hge & -> & -> & ->)|(Hpos & -> & Hl & Hi)]].
  - assert ((n =? newton_maxiter self)%Z = false) as -> by (apply Z.eqb_neq; lia).
    destruct (isnan res) eqn:Hnan.
    + exists by_nan. split.
      * split_and!; [done..|]. by destruct (stop_at_nan self).
      * intros [| |]; [done| |]; intros (H1 & H2 & _).
        -- lia.
        -- apply ltb_not_nan in H1. congruence.
    + rewrite orb_false_r in Hbreak. exists by_convergence. split.
      * by split_and!.
      * intros [| |]; [|lia|done]. intros (H1 & _). done.
  - assert (newton_maxiter self = 0%Z) as Hz by lia. rewrite Hz. simpl.
    exists by_exhaustion. split.
    + split_and!; auto.
    + intros [| |]; [|done|]; intros (H1 & H2 & H3); [done|lia].
  - rewrite Hi, Z.eqb_refl. simpl.
    exists by_exhaustion. split.
    + split_and!; [done..| |done]. right. split_and!; [done..|].
      by apply Hlast.
    + intros [| |]; [|done|]; intros (H1 & H2 & H3); [done|lia].
Qed.

(** The three runs end in the three ways. *)
Lemma ends_run_converges (stop : bool) :
  ends {| u0 := Fin 0; newton_maxiter := 2;
          newton_tol := Fin (1 / 4); stop_at_nan := stop |}
       (Fin (1 / 8)) (Fin 1) (Fin 0) (Fin 0) by_convergence.
Proof.
  unfold ends, solve_system. cbn zeta. rewrite while_loop_run_converges.
  cbn [newton_tol newton_maxiter stop_at_nan].
  split_and!.
  - apply ltb_Fin_true. lra.
  - rewrite g_of_Fin by lra. rewrite sqrt_quarter. unfold norm_inf, abs.
    f_equal. rewrite Rabs_pos_eq; lra.
  - lia.
  - reflexivity.
Qed.

Lemma ends_run_exhausted (stop : bool) :
  ends {| u0 := Fin 0; newton_maxiter := 1;
          newton_tol := Fin (1 / 4); stop_at_nan := stop |}
       (Fin (1 / 8)) (Fin 1) (Fin 0) (Fin 0) by_exhaustion.
Proof.
  unfold ends, solve_system. cbn zeta. rewrite while_loop_run_exhausted.
  cbn [newton_tol newton_maxiter stop_at_nan].
  split_and!; [reflexivity..| |reflexivity].
  right. split_and!; [lia|apply ltb_Fin_false; lra|].
  exists (Fin 0). split.
  - rewrite g_of_Fin by lra. rewrite sqrt_1_0. unfold norm_inf, abs.
    f_equal. rewrite Rabs_left; lra.
  - rewrite g_of_Fin, update_Fin by lra. rewrite sqrt_1_0. f_equal. lra.
Qed.

Lemma ends_run_nan (stop : bool) :
  ends {| u0 := Fin 0; newton_maxiter := 2;
          newton_tol := Fin (1 / 4); stop_at_nan := stop |}
       (Fin 1) (Fin 1) (Fin 0) (Fin 0) by_nan.
Proof.
  unfold ends, solve_system. cbn zeta. rewrite while_loop_run_nan.
  cbn [newton_tol newton_maxiter stop_at_nan].
  split_and!; [reflexivity| |by destruct stop].
  symmetry. apply g_of_above_1. lra.
Qed.

(** Three instances with passes through the loop: the run that converges
    after one update, the run that is cut off after one update, and the run
    whose update leaves the domain of the square root. *)
Lemma solve_system_ends_in_one_of_three_ways_witness :
  (ends {| u0 := Fin 0; newton_maxiter := 2;
           newton_tol := Fin (1 / 4); stop_at_nan := true |}
        (Fin (1 / 8)) (Fin 1) (Fin 0) (Fin 0) by_convergence
   ∧ ∀ way',
       ends {| u0 := Fin 0; newton_maxiter := 2;
               newton_tol := Fin (1 / 4); stop_at_nan := true |}
            (Fin (1 / 8)) (Fin 1) (Fin 0) (Fin 0) way' → way' = by_convergence)
  ∧ (ends {| u0 := Fin 0; newton_maxiter := 1;
             newton_tol := Fin (1 / 4); stop_at_nan := true |}
          (Fin (1 / 8)) (Fin 1) (Fin 0) (Fin 0) by_exhaustion
     ∧ ∀ way',
         ends {| u0 := Fin 0; newton_maxiter := 1;
                 newton_tol := Fin (1 / 4); stop_at_nan := true |}
              (Fin (1 / 8)) (Fin 1) (Fin 0) (Fin 0) way' → way' = by_exhaustion)
  ∧ (ends {| u0 := Fin 0; newton_maxiter := 2;
             newton_tol := Fin (1 / 4); stop_at_nan := false |}
          (Fin 1) (Fin 1) (Fin 0) (Fin 0) by_nan
     ∧ ∀ way',
         ends {| u0 := Fin 0; newton_maxiter := 2;
                 newton_tol := Fin (1 / 4); stop_at_nan := false |}
              (Fin 1) (Fin 1) (Fin 0) (Fin 0) way' → way' = by_nan).
Proof.
  split; [|split].
  - destruct (solve_system_ends_in_one_of_three_ways
                {| u0 := Fin 0; newton_maxiter := 2;
                   newton_tol := Fin (1 / 4); stop_at_nan := true |}
                (Fin (1 / 8)) (Fin 1) (Fin 0) (Fin 0)) as (way & Hway & Huniq);
      [simpl; lia|].
    pose proof (Huniq by_convergence (ends_run_converges true)) as E.
    subst way.
    split; [exact Hway|exact Huniq].
  - destruct (solve_system_ends_in_one_of_three_ways
                {| u0 := Fin 0; newton_maxiter := 1;
                   newton_tol := Fin (1 / 4); stop_at_nan := true |}
                (Fin (1 / 8)) (Fin 1) (Fin 0) (Fin 0)) as (way & Hway & Huniq);
      [simpl; lia|].
    pose proof (Huniq by_exhaustion (ends_run_exhausted true)) as E.
    subst way.
    split; [exact Hway|exact Huniq].
  - destruct (solve_system_ends_in_one_of_three_ways
                {| u0 := Fin 0; newton_maxiter := 2;
                   newton_tol := Fin (1 / 4); stop_at_nan := false |}
                (Fin 1) (Fin 1) (Fin 0) (Fin 0)) as (way & Hway & Huniq);
      [simpl; lia|].
    pose proof (Huniq by_nan (ends_run_nan false)) as E.
    subst way.
    split; [exact Hway|exact Huniq].
Defined.

(** C7 as stated fails for a negative [newton_maxiter]: the loop makes no
    pass, no residual is tested, and the initial guess is returned, here one
    whose residual norm is 1 with [newton_tol = 1/2]; this is none of the
    three ways. *)
Lemma solve_system_negative_maxiter_ends_in_none_of_three_ways :
  let self := {| u0 := Fin 0; newton_maxiter := -1;
                 newton_tol := Fin (1 / 2); stop_at_nan := true |} in
  norm_inf (g_of (Fin 0) (Fin 1) (Fin 0)) = Fin 1
  ∧ solve_system self (Fin 0) (Fin 1) (Fin 0) (Fin 0) = ([], Return (Fin 0))
  ∧ ∀ way, ¬ ends self (Fin 0) (Fin 1) (Fin 0) (Fin 0) way.
Proof.
  intros self.
  assert (while_loop self (Fin 0) (Fin 1) 0 (Fin 0) (Fin 99) = (0%Z, Fin 0, Fin 99))
    as Hloop by (by rewrite while_loop_unfold).
  split_and!.
  - unfold g_of, norm_inf. simpl.
    destruct (Rlt_dec (1 + - 0) 0) as [|_]; [lra|]. simpl. f_equal.
    replace (1 + - 0)%R with 1%R by lra. rewrite sqrt_1.
    unfold Rabs. destruct (Rcase_abs _); lra.
  - unfold solve_system. rewrite Hloop. reflexivity.
  - intros way. unfold ends. rewrite Hloop.
    destruct way; simpl; intros (H1 & H2); try done.
    unfold ltb in H1. destruct (Rlt_dec 99 (1 / 2)); [lra|done].
Qed.

(** C10: with [newton_maxiter = 0], [solve_system] raises [ProblemError]
    for every [rhs], [dt], [u0] and [t], also when the residual of [u0] is
    below the tolerance: the loop makes no pass, and the test
    [n == newton_maxiter] holds with [n = 0]. *)
Theorem solve_system_maxiter_0_raises
    (self : nonlinear_ODE_1) (rhs dt : float64) (u0 : mesh) (t : float64) :
  newton_maxiter self = 0%Z →
  while_loop self rhs dt 0 u0 (Fin 99) = (0%Z, u0, Fin 99)
  ∧ solve_system self rhs dt u0 t
    = ([], Raise (Newton_did_not_converge 0 (Fin 99))).
Proof.
  intros Hmax.
  assert (while_loop self rhs dt 0 u0 (Fin 99) = (0%Z, u0, Fin 99)) as Hloop.
  { rewrite while_loop_unfold, decide_False by lia. done. }
  split; [exact Hloop|].
  unfold solve_system. rewrite Hloop, Hmax. reflexivity.
Qed.

(** With [rhs = 0], [dt = 0] and [u0 = 0] the residual of [u0] is zero,
    below [newton_tol = 1], and the call raises all the same. *)
Lemma solve_system_maxiter_0_raises_witness :
  let self := {| u0 := Fin 0; newton_maxiter := 0;
                 newton_tol := Fin 1; stop_at_nan := false |} in
  (norm_inf (g_of (Fin 0) (Fin 0) (Fin 0)) <? newton_tol self) = true
  ∧ solve_system self (Fin 0) (Fin 0) (Fin 0) (Fin 0)
    = ([], Raise (Newton_did_not_converge 0 (Fin 99))).
Proof.
  intros self. split.
  - unfold g_of, norm_inf. simpl.
    destruct (Rlt_dec (1 + - 0) 0) as [|_]; [lra|]. simpl.
    match goal with
    | |- context [Rlt_dec ?a ?b] => destruct (Rlt_dec a b) as [|Hn]
    end; [done|].
    exfalso. apply Hn.
    match goal with
    | |- (Rabs ?a < 1)%R => replace a with 0%R by ring
    end.
    rewrite Rabs_R0. lra.
  - apply (solve_system_maxiter_0_raises self (Fin 0) (Fin 0) (Fin 0) (Fin 0)).
    reflexivity.
Defined.


(** ** What the Newton solver returns *)

(** X15: with [newton_maxiter >= 0], a value [solve_system] returns without
    a warning has a residual norm below [newton_tol], a value it returns with
    a warning has a NaN residual norm and [stop_at_nan] is off; the error
    for NaN carries a count below [newton_maxiter], the error for
    non-convergence carries [newton_maxiter]. *)
Theorem solve_system_result_sound
    (self : nonlinear_ODE_1) (rhs dt : float64) (u0 : mesh) (t : float64) :
  (0 ≤ newton_maxiter self)%Z →
  match solve_system self rhs dt u0 t with
  | ([], Return u) => (norm_inf (g_of rhs dt u) <? newton_tol self) = true
  | ([warning_Newton_got_nan n], Return u) =>
      isnan (norm_inf (g_of rhs dt u)) = true ∧ stop_at_nan self = false
      ∧ (0 ≤ n < newton_maxiter self)%Z
  | ([], Raise (Newton_got_nan n)) =>
      stop_at_nan self = true ∧ (0 ≤ n < newton_maxiter self)%Z
  | ([], Raise (Newton_did_not_converge n res)) =>
      n = newton_maxiter self ∧ isnan res = false
  | _ => False
  end.
Proof.
  intros Hmax. unfold solve_system. cbn zeta.
  destruct (while_loop_exit self rhs dt 0 u0 (Fin 99))
    as (n & u & res & -> & Hn & Hexit).
  destruct Hexit as [(Hlt & Hres & Hbreak)|[(Hge & -> & -> & ->)|(Hpos & -> & Hl & Hi)]].
  - assert ((n =? newton_maxiter self)%Z = false) as -> by (apply Z.eqb_neq; lia).
    destruct (isnan res) eqn:Hnan.
    + destruct (stop_at_nan self) eqn:Hstop; simpl.
      * split; [done|lia].
      * rewrite <- Hres. split_and!; [done..|lia].
    + rewrite orb_false_r in Hbreak. simpl. by rewrite <- Hres.
  - assert (newton_maxiter self = 0%Z) as Hz by lia. rewrite Hz. simpl. done.
  - rewrite Hi, Z.eqb_refl. simpl. done.
Qed.

(** The guarantees on the three runs: the one that converges after one
    update, the one cut off after one update, and the one whose update
    leaves the domain of the square root, with [stop_at_nan] off. *)
Lemma solve_system_result_sound_witness :
  (solve_system {| u0 := Fin 0; newton_maxiter := 2;
                   newton_tol := Fin (1 / 4); stop_at_nan := true |}
                (Fin (1 / 8)) (Fin 1) (Fin 0) (Fin 0)
   = ([], Return (Fin (3 / 4)))
   ∧ (norm_inf (g_of (Fin (1 / 8)) (Fin 1) (Fin (3 / 4))) <? Fin (1 / 4)) = true)
  ∧ (solve_system {| u0 := Fin 0; newton_maxiter := 1;
                     newton_tol := Fin (1 / 4); stop_at_nan := true |}
                  (Fin (1 / 8)) (Fin 1) (Fin 0) (Fin 0)
     = ([], Raise (Newton_did_not_converge 1 (Fin (9 / 8))))
     ∧ 1%Z = 1%Z ∧ isnan (Fin (9 / 8)) = false)
  ∧ (solve_system {| u0 := Fin 0; newton_maxiter := 2;
                     newton_tol := Fin (1 / 4); stop_at_nan := false |}
                  (Fin 1) (Fin 1) (Fin 0) (Fin 0)
     = ([warning_Newton_got_nan 1], Return (Fin (4 / 3)))
     ∧ isnan (norm_inf (g_of (Fin 1) (Fin 1) (Fin (4 / 3)))) = true
     ∧ false = false ∧ (0 ≤ 1 < 2)%Z).
Proof.
  split; [|split].
  - assert (solve_system {| u0 := Fin 0; newton_maxiter := 2;
                            newton_tol := Fin (1 / 4); stop_at_nan := true |}
                         (Fin (1 / 8)) (Fin 1) (Fin 0) (Fin 0)
            = ([], Return (Fin (3 / 4)))) as Heq.
    { unfold solve_system. cbn zeta. rewrite while_loop_run_converges.
      reflexivity. }
    split; [exact Heq|].
    pose proof (solve_system_result_sound
                  {| u0 := Fin 0; newton_maxiter := 2;
                     newton_tol := Fin (1 / 4); stop_at_nan := true |}
                  (Fin (1 / 8)) (Fin 1) (Fin 0) (Fin 0)) as H.
    rewrite Heq in H. apply H. simpl. lia.
  - assert (solve_system {| u0 := Fin 0; newton_maxiter := 1;
                            newton_tol := Fin (1 / 4); stop_at_nan := true |}
                         (Fin (1 / 8)) (Fin 1) (Fin 0) (Fin 0)
            = ([], Raise (Newton_did_not_converge 1 (Fin (9 / 8))))) as Heq.
    { unfold solve_system. cbn zeta. rewrite while_loop_run_exhausted.
      reflexivity. }
    split; [exact Heq|].
    pose proof (solve_system_result_sound
                  {| u0 := Fin 0; newton_maxiter := 1;
                     newton_tol := Fin (1 / 4); stop_at_nan := true |}
                  (Fin (1 / 8)) (Fin 1) (Fin 0) (Fin 0)) as H.
    rewrite Heq in H. apply H. simpl. lia.
  - assert (solve_system {| u0 := Fin 0; newton_maxiter := 2;
                            newton_tol := Fin (1 / 4); stop_at_nan := false |}
                         (Fin 1) (Fin 1) (Fin 0) (Fin 0)
            = ([warning_Newton_got_nan 1], Return (Fin (4 / 3)))) as Heq.
    { unfold solve_system. cbn zeta. rewrite while_loop_run_nan.
      reflexivity. }
    split; [exact Heq|].
    pose proof (solve_system_result_sound
                  {| u0 := Fin 0; newton_maxiter := 2;
                     newton_tol := Fin (1 / 4); stop_at_nan := false |}
                  (Fin 1) (Fin 1) (Fin 0) (Fin 0)) as H.
    rewrite Heq in H. apply H. simpl. lia.
Defined.

(** X16: with [newton_maxiter >= 1], an initial guess whose residual norm
    is below [newton_tol] is returned as it is, without a Newton update and
    without a warning. *)
Theorem solve_system_returns_converged_guess
    (self : nonlinear_ODE_1) (rhs dt : float64) (u0 : mesh) (t : float64) :
  (1 ≤ newton_maxiter self)%Z →
  (norm_inf (g_of rhs dt u0) <? newton_tol self) = true →
  solve_system self rhs dt u0 t = ([], Return u0).
Proof.
  intros Hmax Hconv. unfold solve_system. cbn zeta.
  rewrite while_loop_unfold, decide_True by lia. cbn zeta.
  rewrite Hconv. simpl.
  rewrite (ltb_not_nan _ _ Hconv). simpl.
  destruct (newton_maxiter self); (done || lia).
Qed.

Lemma residual_of_zero_guess :
  (norm_inf (g_of (Fin 0) (Fin 0) (Fin 0)) <? Fin 1) = true.
Proof.
  unfold g_of, norm_inf. simpl.
  destruct (Rlt_dec (1 + - 0) 0) as [|_]; [lra|]. simpl.
  match goal with
  | |- context [Rlt_dec ?a ?b] => destruct (Rlt_dec a b) as [|Hn]
  end; [done|].
  exfalso. apply Hn.
  match goal with
  | |- (Rabs ?a < 1)%R => replace a with 0%R by ring
  end.
  rewrite Rabs_R0. lra.
Qed.

Lemma solve_system_returns_converged_guess_witness :
  let self := {| u0 := Fin 0; newton_maxiter := 5;
                 newton_tol := Fin 1; stop_at_nan := true |} in
  solve_system self (Fin 0) (Fin 0) (Fin 0) (Fin 0) = ([], Return (Fin 0)).
Proof.
  intros self.
  apply (solve_system_returns_converged_guess self (Fin 0) (Fin 0) (Fin 0) (Fin 0)).
  - simpl. lia.
  - exact residual_of_zero_guess.
Defined.

(** X17: a guess outside the domain ends the iteration at once: with
    [newton_maxiter >= 1] and [u0] a number greater than 1, whatever [rhs],
    [dt] and [newton_tol], the first residual is NaN; [solve_system] raises
    'Newton got nan after 0 iterations' with [stop_at_nan], and otherwise logs
    that warning and returns [u0] unchanged. *)
Theorem solve_system_guess_above_1
    (self : nonlinear_ODE_1) (rhs dt : float64) (r : R) (t : float64) :
  (1 ≤ newton_maxiter self)%Z → (1 < r)%R →
  isnan (norm_inf (g_of rhs dt (Fin r))) = true
  ∧ solve_system self rhs dt (Fin r) t
    = if stop_at_nan self then ([], Raise (Newton_got_nan 0))
      else ([warning_Newton_got_nan 0], Return (Fin r)).
Proof.
  intros Hmax Hr.
  assert (norm_inf (g_of rhs dt (Fin r)) = NaN) as Hg.
  { unfold g_of, norm_inf. simpl.
    destruct (Rlt_dec (1 + - r) 0) as [_|Hn]; [|lra].
    destruct dt, rhs; reflexivity. }
  split; [by rewrite Hg|].
  unfold solve_system. cbn zeta.
  rewrite while_loop_unfold, decide_True by lia. cbn zeta.
  rewrite Hg. simpl.
  destruct (newton_maxiter self); [lia| |lia].
  by destruct (stop_at_nan self).
Qed.

Lemma solve_system_guess_above_1_witness :
  let self := {| u0 := Fin 0; newton_maxiter := 1;
                 newton_tol := Fin 1; stop_at_nan := false |} in
  solve_system self (Fin 0) (Fin 1) (Fin 2) (Fin 0)
  = ([warning_Newton_got_nan 0], Return (Fin 2)).
Proof.
  intros self.
  apply (solve_system_guess_above_1 self (Fin 0) (Fin 1) 2 (Fin 0)).
  - simpl. lia.
  - lra.
Defined.

(** ** The Newton step and the exact solution *)

(** X18: the update of a pass is the Newton step [u - g(u) / g'(u)]: for
    numbers [rhs], [dt] and [u < 1], the residual [g_of] is the function
    [g(v) = v - dt * sqrt(1 - v) - rhs] on [v <= 1], the derivative of [g] at
    [u] is [dg = 1 + dt / (2 * sqrt(1 - u))], and [update] maps [u] and a
    residual value [gv] to [u - gv / dg]. *)
Theorem update_is_the_newton_step (rhs dt u : R) :
  (u < 1)%R →
  let g := λ v : R, (v - dt * R_sqrt.sqrt (1 - v) - rhs)%R in
  let dg := (1 + dt / (2 * R_sqrt.sqrt (1 - u)))%R in
  (∀ v : R, (v <= 1)%R → g_of (Fin rhs) (Fin dt) (Fin v) = Fin (g v))
  ∧ derivable_pt_lim g u dg
  ∧ ∀ gv : float64, update (Fin dt) (Fin u) gv = Fin u - gv / Fin dg.
Proof.
  intros Hu g dg.
  assert (0 < R_sqrt.sqrt (1 - u))%R as Hs by (apply sqrt_lt_R0; lra).
  split_and!.
  - intros v Hv. unfold g_of, g. simpl.
    destruct (Rlt_dec (1 + - v) 0) as [|_]; [lra|]. simpl.
    reflexivity.
  - apply (derivable_pt_lim_ext
             (id - mult_real_fct dt (comp R_sqrt.sqrt (fct_cte 1 - id))
              - fct_cte rhs)%F).
    { intros v. reflexivity. }
    replace dg with (1 - dt * (/ (2 * R_sqrt.sqrt (1 - u)) * (0 - 1)) - 0)%R
      by (unfold dg; field; lra).
    apply derivable_pt_lim_minus; [|apply derivable_pt_lim_const].
    apply derivable_pt_lim_minus; [apply derivable_pt_lim_id|].
    apply derivable_pt_lim_scal.
    apply derivable_pt_lim_comp.
    + apply derivable_pt_lim_minus;
        [apply derivable_pt_lim_const|apply derivable_pt_lim_id].
    + apply derivable_pt_lim_sqrt. unfold minus_fct, fct_cte, id. lra.
  - intros gv. unfold update. rewrite one_over_times. do 2 f_equal.
    simpl. destruct (Rlt_dec (1 + - u) 0) as [|_]; [lra|]. simpl.
    change (1 + - u)%R with (1 - u)%R.
    destruct (Req_dec_T (2 * R_sqrt.sqrt (1 - u)) 0) as [|_]; [lra|]. simpl.
    f_equal. unfold dg. field. lra.
Qed.

Lemma update_is_the_newton_step_witness :
  (0 < 1)%R
  ∧ update (Fin 1) (Fin 0) (Fin (-1))
    = Fin 0 - Fin (-1) / Fin (1 + 1 / (2 * R_sqrt.sqrt (1 - 0)))%R.
Proof.
  split; [ lra |].
  apply (update_is_the_newton_step 0 1 0). lra.
Defined.

(** X19: the exact solution solves the equation up to its singularity:
    for a number [t], [u_exact(t)] is [t - t^2/4], its derivative in [t] is
    [1 - t/2], and for [t <= 2] this is the value of [eval_f] at
    [u_exact(t)]; for [t > 2] [eval_f] gives [t/2 - 1] instead.  At [t = 0]
    the solution is 0. *)
Theorem u_exact_solves_the_equation (t : R) :
  u_exact (Fin t) = Fin (t - t * t / 4)%R
  ∧ derivable_pt_lim (λ s : R, (s - s * s / 4)%R) t (1 - t / 2)%R
  ∧ ((t <= 2)%R → eval_f (u_exact (Fin t)) (Fin t) = Fin (1 - t / 2)%R)
  ∧ ((2 < t)%R → eval_f (u_exact (Fin t)) (Fin t) = Fin (t / 2 - 1)%R)
  ∧ u_exact (Fin 0) = Fin 0.
Proof.
  assert (∀ s : R, u_exact (Fin s) = Fin (s - s * s / 4)%R) as Hu.
  { intros s. unfold u_exact. simpl.
    destruct (Req_dec_T 4 0) as [|_]; [lra|]. simpl. done. }
  assert (eval_f (u_exact (Fin t)) (Fin t) = Fin (Rabs (1 - t / 2))) as He.
  { rewrite Hu. unfold eval_f. simpl.
    replace (1 + - (t - t * t / 4))%R with (Rsqr (1 - t / 2))
      by (unfold Rsqr; field).
    destruct (Rlt_dec (Rsqr (1 - t / 2)) 0) as [Hneg|_].
    - pose proof (Rle_0_sqr (1 - t / 2)). lra.
    - by rewrite sqrt_Rsqr_abs. }
  split_and!.
  - apply Hu.
  - apply (derivable_pt_lim_ext (id - mult_real_fct (/ 4) (id * id))%F).
    { intros s. unfold minus_fct, mult_real_fct, mult_fct, id. field. }
    replace (1 - t / 2)%R with (1 - / 4 * (1 * id t + id t * 1))%R
      by (unfold id; field).
    apply derivable_pt_lim_minus; [apply derivable_pt_lim_id|].
    apply derivable_pt_lim_scal.
    apply derivable_pt_lim_mult; apply derivable_pt_lim_id.
  - intros Ht. rewrite He. f_equal. apply Rabs_pos_eq. lra.
  - intros Ht. rewrite He. f_equal. rewrite Rabs_left by lra. lra.
  - rewrite Hu. f_equal. lra.
Qed.

Lemma u_exact_solves_the_equation_witness :
  eval_f (u_exact (Fin 1)) (Fin 1) = Fin (1 - 1 / 2)%R.
Proof.
  apply (u_exact_solves_the_equation 1). lra.
Defined.
